(** * PACC threading core: counting semaphore and thread pool

    A shallow embedding of [PACC/Threading/Semaphore.cpp] and
    [PACC/Threading/ThreadPool.cpp].

    The semaphore methods are embedded as functions on the two counters of
    the class; every call they make on the embedded [Condition] (lock,
    unlock, signal, wait) is logged, and what [Condition::wait] returns is
    read from a list of wake-ups supplied by the caller of the model.

    The thread pool is embedded statement by statement: each thread (slave,
    producer inside [push], owner inside the destructor) has a program
    counter naming the source line it executes next, and one step of the
    system executes one statement of one thread. *)

From Stdlib Require Import ZArith Lia Bool List.
From stdpp Require Import base tactics option list.

(** ** Semaphore.cpp *)

Module Semaphore.

Local Open Scope Z_scope.

(** Modelled from the spec: the two data members of the class.  The header
    [Semaphore.hpp] that declares them is not part of the sources; the spec
    describes both as integers, so they are unbounded integers here. *)
Record Semaphore := mkSem { mCount : Z; mWaiters : Z }.

(** Calls made on the embedded [Condition] (and its [Mutex]).  The argument
    of [Wait] is the time-out handed to [Condition::wait]; the source passes
    [inMaxTime] through unchanged, its value is never inspected. *)
Inductive prim (Time : Type) :=
| Lock
| Unlock
| Signal
| Wait (inMaxTime : Time).
Arguments Lock {Time}.
Arguments Unlock {Time}.
Arguments Signal {Time}.
Arguments Wait {Time} inMaxTime.

(** Modelled from the spec: one return of [Condition::wait], whose code is
    not part of the sources.  The condition variable releases the mutex
    while blocked and re-acquires it before it returns; it returns [false]
    on time-out and [true] otherwise (signal, broadcast or spurious
    wake-up).  While the mutex is released other threads may have changed
    the counters: [d_count] and [d_waiters] are the net changes they
    made. *)
Record wake := mkWake { w_ret : bool; d_count : Z; d_waiters : Z }.

Definition interfere (w : wake) (s : Semaphore) : Semaphore :=
  mkSem (mCount s + d_count w) (mWaiters s + d_waiters w).

Section Methods.
Context {Time : Type}.

Definition guard (inLock : bool) (p : prim Time) : list (prim Time) :=
  if inLock then [p] else [].

(** [void Semaphore::post(bool inLock)] *)
Definition post (inLock : bool) (s : Semaphore) : list (prim Time) * Semaphore :=
  let s1 := mkSem (mCount s + 1) (mWaiters s) in
  (guard inLock Lock
     ++ (if 0 <? mWaiters s1 then [Signal] else [])
     ++ guard inLock Unlock,
   s1).

(** [bool Semaphore::tryWait(bool inLock)] *)
Definition tryWait (inLock : bool) (s : Semaphore)
  : list (prim Time) * (bool * Semaphore) :=
  let lReturn := true in
  let lReturn := if mCount s <=? 0 then false else lReturn in
  let s1 := if lReturn then mkSem (mCount s - 1) (mWaiters s) else s in
  (guard inLock Lock ++ guard inLock Unlock, (lReturn, s1)).

(** [mWaiters += 1], the statement before the loop of [wait]. *)
Definition wait_enter (s : Semaphore) : Semaphore :=
  mkSem (mCount s) (mWaiters s + 1).

(** The test of [while(mCount <= 0 && lReturn)]. *)
Definition loop_test (lReturn : bool) (s : Semaphore) : bool :=
  (mCount s <=? 0) && lReturn.

(** The statements after the loop: decrement the count only when the
    condition was signalled, then decrement the number of waiters. *)
Definition wait_finish (lReturn : bool) (s : Semaphore) : Semaphore :=
  let s1 := if lReturn then mkSem (mCount s - 1) (mWaiters s) else s in
  mkSem (mCount s1) (mWaiters s1 - 1).

(** The loop [while(mCount <= 0 && lReturn) lReturn = Condition::wait(inMaxTime)].
    Each iteration consumes one wake-up; [None] means that the thread is
    still blocked inside [Condition::wait] when the wake-ups are used up.
    The result carries the number of calls made to [Condition::wait]. *)
Fixpoint wait_loop (ws : list wake) (lReturn : bool) (s : Semaphore) (calls : nat)
  : option (bool * Semaphore * nat) :=
  if loop_test lReturn s then
    match ws with
    | [] => None
    | w :: ws' => wait_loop ws' (w_ret w) (interfere w s) (S calls)
    end
  else Some (lReturn, s, calls).

(** [bool Semaphore::wait(double inMaxTime, bool inLock)] *)
Definition wait (inMaxTime : Time) (inLock : bool) (ws : list wake) (s : Semaphore)
  : option (list (prim Time) * (bool * Semaphore)) :=
  let lReturn := true in
  let s1 := wait_enter s in
  match wait_loop ws lReturn s1 0 with
  | None => None
  | Some (lReturn, s2, calls) =>
      Some (guard inLock Lock ++ repeat (Wait inMaxTime) calls ++ guard inLock Unlock,
            (lReturn, wait_finish lReturn s2))
  end.

End Methods.

(** Vocabulary for the statements about [wait]. *)

(** The counters after the other threads' changes of a list of wake-ups. *)
Definition after (ws : list wake) (s : Semaphore) : Semaphore :=
  fold_left (fun s w => interfere w s) ws s.

Definition sum_count (ws : list wake) : Z := fold_right (fun w a => d_count w + a) 0 ws.
Definition sum_waiters (ws : list wake) : Z := fold_right (fun w a => d_waiters w + a) 0 ws.

(** Every wake-up of the list was absorbed by the loop: it was not a
    time-out and the count it found was not positive. *)
Fixpoint absorbed (ws : list wake) (s : Semaphore) : Prop :=
  match ws with
  | [] => True
  | w :: ws' =>
      w_ret w = true /\ mCount (interfere w s) <= 0 /\ absorbed ws' (interfere w s)
  end.

Definition is_wait {Time} (p : prim Time) : bool :=
  match p with Wait _ => true | _ => false end.

Definition is_signal {Time} (p : prim Time) : bool :=
  match p with Signal => true | _ => false end.

(** *** Threads sharing one semaphore

    Every method runs under the mutex, so the sections of code between two
    points where the mutex is free execute atomically: a whole [post], a
    whole [tryWait], the part of [wait] up to the first call of
    [Condition::wait] (or up to its return when the count is positive), and
    the part of [wait] from one return of [Condition::wait] to the next call
    (or to the return of [wait]). *)

Inductive op :=
| OpPost (th : nat)
| OpTryWait (th : nat)
| OpWaitEnter (th : nat)
| OpWaitResume (th : nat) (r : bool).

(** What an atomic section produced: the value returned by the method, or
    [Blocked] when the thread is (again) inside [Condition::wait]. *)
Inductive outcome :=
| Posted (signalled : bool)
| TryWaited (r : bool)
| Blocked
| Waited (r : bool).

Record shared := mkShared { sem : Semaphore; blocked : list nat }.

Definition is_blocked (th : nat) (st : shared) : bool :=
  existsb (Nat.eqb th) (blocked st).

Definition unblock (th : nat) (l : list nat) : list nat :=
  List.filter (fun x => negb (Nat.eqb th x)) l.

(** One atomic section.  [None]: the thread cannot take this step (a
    blocked thread calls nothing, a thread that is not blocked has no
    [Condition::wait] to return from). *)
Definition exec (o : op) (st : shared) : option (outcome * shared) :=
  match o with
  | OpPost th =>
      if is_blocked th st then None else
      let '(log, s') := post (Time:=unit) true (sem st) in
      Some (Posted (existsb is_signal log),
            mkShared s' (blocked st))
  | OpTryWait th =>
      if is_blocked th st then None else
      let '(_, (r, s')) := tryWait (Time:=unit) true (sem st) in
      Some (TryWaited r, mkShared s' (blocked st))
  | OpWaitEnter th =>
      if is_blocked th st then None else
      let s1 := wait_enter (sem st) in
      if loop_test true s1
      then Some (Blocked, mkShared s1 (th :: blocked st))
      else Some (Waited true, mkShared (wait_finish true s1) (blocked st))
  | OpWaitResume th r =>
      if is_blocked th st then
        if loop_test r (sem st)
        then Some (Blocked, st)
        else Some (Waited r, mkShared (wait_finish r (sem st)) (unblock th (blocked st)))
      else None
  end.

Fixpoint run (os : list op) (st : shared) : option (list outcome * shared) :=
  match os with
  | [] => Some ([], st)
  | o :: os' =>
      match exec o st with
      | None => None
      | Some (out, st1) =>
          match run os' st1 with
          | None => None
          | Some (outs, st2) => Some (out :: outs, st2)
          end
      end
  end.

(** A semaphore constructed with count 0, no thread waiting. *)
Definition init : shared := mkShared (mkSem 0 0) [].






End Semaphore.

(** ** ThreadPool.cpp *)

Module ThreadPool.

(** A [Task*]: the address of a task object. *)
Definition task_ptr := nat.

Inductive thread :=
| Slave (i : nat)      (* the i-th slave thread of the pool *)
| Producer (p : nat)   (* a thread that calls [push] *)
| Owner.               (* the thread that destroys the pool *)

#[global] Instance thread_eq_dec : EqDecision thread.
Proof. solve_decision. Defined.

(** Modelled from the spec: class [Task] is declared in [ThreadPool.hpp],
    which is not part of the sources.  A task is a lockable, waitable object
    (it embeds a [Condition], hence a [Mutex]) with the flags [running] and
    [completed], both false after construction and after [reset()].  The
    mutex is represented by its holder. *)
Record Task := mkTask { mRunning : bool; mCompleted : bool; t_mutex : option thread }.

(** Modelled from the spec: a task as its constructor leaves it. *)
Definition new_task : Task := mkTask false false None.

(** Modelled from the spec: [Task::reset()] clears both flags. *)
Definition reset (k : Task) : Task := mkTask false false (t_mutex k).

(** Modelled from the spec: [Mutex::lock], whose code is not part of the
    sources, blocks while a thread holds the mutex ([None]: the step is not
    enabled). *)
Definition acquire (th : thread) (m : option thread) : option (option thread) :=
  match m with
  | None => Some (Some th)
  | Some _ => None
  end.

(** Modelled from the spec: [Mutex::unlock] by a thread that does not hold
    the mutex is a fatal ownership error ([None]). *)
Definition release (th : thread) (m : option thread) : option (option thread) :=
  match m with
  | Some th' => if decide (th' = th) then Some None else None
  | None => None
  end.

(** Program counters of [SlaveThread::main]; each names the statement that
    the thread executes next, by its line in [ThreadPool.cpp].  A call of
    [Condition::wait] takes three steps: the call releases the mutex and
    blocks the thread, a signal, a broadcast or a spurious wake-up unblocks
    it, and the thread returns from the call once it has the mutex
    again. *)
Inductive slave_pc :=
| S_loop                          (* 67: while(!mCancel) *)
| S_lock                          (* 70: mPool->lock() *)
| S_check                         (* 71: while(mTasks.empty() && !mCancel) *)
| S_waiting                       (* 71: blocked inside mPool->wait() *)
| S_woken                         (* 71: woken, re-acquiring the pool mutex *)
| S_test                          (* 72: if(!mCancel) *)
| S_front                         (* 75-76: front(), pop() *)
| S_unlock (t : task_ptr)         (* 77: mPool->unlock() *)
| S_tlock1 (t : task_ptr)         (* 79: lTask->lock() *)
| S_set_running (t : task_ptr)    (* 80: lTask->mRunning = true *)
| S_bcast1 (t : task_ptr)         (* 81: lTask->broadcast() *)
| S_tunlock1 (t : task_ptr)       (* 82: lTask->unlock() *)
| S_main (t : task_ptr)           (* 84: lTask->main() *)
| S_tlock2 (t : task_ptr)         (* 86: lTask->lock() *)
| S_clear_running (t : task_ptr)  (* 87: lTask->mRunning = false *)
| S_set_completed (t : task_ptr)  (* 88: lTask->mCompleted = true *)
| S_bcast2 (t : task_ptr)         (* 89: lTask->broadcast() *)
| S_tunlock2 (t : task_ptr)       (* 90: lTask->unlock() *)
| S_unlock_else                   (* 92: else mPool->unlock() *)
| S_exit                          (* 94: main returned, the thread is over *)
| S_raised (t : task_ptr).        (* 84: lTask->main() raised; the failure left
                                     SlaveThread::main *)

(** Program counters of [ThreadPool::push]. *)
Inductive producer_pc :=
| P_idle                          (* not inside push *)
| P_reset (t : task_ptr)          (* 138: inTask.reset() *)
| P_lock (t : task_ptr)           (* 140: lock() *)
| P_push (t : task_ptr)           (* 141: mTasks.push(&inTask) *)
| P_signal (t : task_ptr)         (* 142: signal() *)
| P_unlock (t : task_ptr).        (* 143: unlock() *)

(** Program counters of [ThreadPool::~ThreadPool]. *)
Inductive owner_pc :=
| D_alive                         (* the destructor has not been called *)
| D_lock                          (* 110, 120: lock() *)
| D_check                         (* 112: while(!mTasks.empty()) *)
| D_back                          (* 115: lTask = mTasks.back() *)
| D_tlock (t : task_ptr)          (* 116: lTask->lock() *)
| D_unlock (t : task_ptr)         (* 117: unlock() *)
| D_wait (t : task_ptr)           (* 118: lTask->wait(false) *)
| D_waiting (t : task_ptr)        (* 118: blocked inside the wait *)
| D_woken (t : task_ptr)          (* 118: woken, re-acquiring the task mutex *)
| D_tunlock (t : task_ptr)        (* 119: lTask->unlock() *)
| D_cancel (i : nat)              (* 123: cancel() on slave i *)
| D_bcast                         (* 125: broadcast() *)
| D_unlock2                       (* 126: unlock() *)
| D_delete (i : nat)              (* 128: delete slave i *)
| D_done.                         (* 129: the destructor returned *)

(** Modelled from the spec: class [SlaveThread] is declared in
    [ThreadPool.hpp]; besides its thread it has the flag [cancel], false at
    first. *)
Record SlaveThread := mkSlave { mCancel : bool; s_pc : slave_pc }.

(** Modelled from the spec: [cancel()], inherited from [Thread] whose code is
    not part of the sources, sets the cancel flag. *)
Definition cancel (sl : SlaveThread) : SlaveThread := mkSlave true (s_pc sl).

(** The pool, the task objects its queue points to and the threads that
    work on it. *)
Record state := mkState {
  mTasks : list task_ptr;         (* std::queue<Task*>: front is the head *)
  p_mutex : option thread;        (* holder of the pool's mutex *)
  slaves : list SlaveThread;      (* the pool is a vector of SlaveThread* *)
  heap : task_ptr -> Task;
  producers : list producer_pc;
  owner : owner_pc
}.

Definition set_mTasks (q : list task_ptr) (s : state) : state :=
  mkState q (p_mutex s) (slaves s) (heap s) (producers s) (owner s).
Definition set_p_mutex (m : option thread) (s : state) : state :=
  mkState (mTasks s) m (slaves s) (heap s) (producers s) (owner s).
Definition set_slaves (l : list SlaveThread) (s : state) : state :=
  mkState (mTasks s) (p_mutex s) l (heap s) (producers s) (owner s).
Definition set_heap (h : task_ptr -> Task) (s : state) : state :=
  mkState (mTasks s) (p_mutex s) (slaves s) h (producers s) (owner s).
Definition set_producers (l : list producer_pc) (s : state) : state :=
  mkState (mTasks s) (p_mutex s) (slaves s) (heap s) l (owner s).
Definition set_owner (pc : owner_pc) (s : state) : state :=
  mkState (mTasks s) (p_mutex s) (slaves s) (heap s) (producers s) pc.

Definition upd (t : task_ptr) (k : Task) (h : task_ptr -> Task) : task_ptr -> Task :=
  fun u => if Nat.eqb u t then k else h u.

Definition set_task (t : task_ptr) (k : Task) (s : state) : state :=
  set_heap (upd t k (heap s)) s.

(** Slave [i], whose record is [sl], moves on to [pc]. *)
Definition goto (i : nat) (sl : SlaveThread) (pc : slave_pc) (s : state) : state :=
  set_slaves (<[i := mkSlave (mCancel sl) pc]> (slaves s)) s.

Definition pgoto (p : nat) (pc : producer_pc) (s : state) : state :=
  set_producers (<[p := pc]> (producers s)) s.

(** Modelled from the spec: what [Condition::signal] and
    [Condition::broadcast] do to a slave blocked in [Condition::wait]: the
    woken thread leaves the wait once it has re-acquired the mutex. *)
Definition wake_slave (sl : SlaveThread) : SlaveThread :=
  match s_pc sl with
  | S_waiting => mkSlave (mCancel sl) S_woken
  | _ => sl
  end.

(** Modelled from the spec: [broadcast()] on the pool's condition wakes
    every slave blocked on it. *)
Definition broadcast_pool (s : state) : state :=
  set_slaves (wake_slave <$> slaves s) s.

(** Modelled from the spec: [broadcast()] on a task's condition wakes the
    threads blocked on it; of the threads of the model only the owner
    (line 118) waits on a task. *)
Definition broadcast_task (t : task_ptr) (s : state) : state :=
  match owner s with
  | D_waiting u => if Nat.eqb u t then set_owner (D_woken u) s else s
  | _ => s
  end.

(** The statements, as they appear in the trace of a run. *)
Inductive action :=
| SLoop (continue : bool)               (* 67 *)
| SLockPool                             (* 70 *)
| SWaitPool                             (* 71: the test holds, wait() is called *)
| SWokenPool                            (* 71: wait() returns *)
| SQueueTest                            (* 71: the test fails, the loop is left *)
| SIfCancel (cancelled : bool)          (* 72 *)
| SDequeue (t : task_ptr)               (* 75-76 *)
| SUnlockPool                           (* 77 *)
| SLockTask (t : task_ptr)              (* 79, 86 *)
| SSetRunning (t : task_ptr) (b : bool) (* 80, 87 *)
| SSetCompleted (t : task_ptr)          (* 88 *)
| SBroadcast (t : task_ptr)             (* 81, 89 *)
| SUnlockTask (t : task_ptr)            (* 82, 90 *)
| SMain (t : task_ptr) (returned : bool)  (* 84 *)
| SUnlockElse                           (* 92 *)
| PCall (t : task_ptr)                  (* push(inTask) is called *)
| PReset (t : task_ptr)                 (* 138 *)
| PLockPool                             (* 140 *)
| PEnqueue (t : task_ptr)               (* 141 *)
| PSignal (woken : option nat)          (* 142 *)
| PUnlockPool                           (* 143: push returns *)
| DCall                                 (* the destructor is called *)
| DLockPool                             (* 110, 120 *)
| DLoop (nonempty : bool)               (* 112 *)
| DBack (t : task_ptr)                  (* 115 *)
| DLockTask (t : task_ptr)              (* 116 *)
| DUnlockPool                           (* 117, 126 *)
| DWaitTask (t : task_ptr)              (* 118: wait is called *)
| DWokenTask (t : task_ptr)             (* 118: wait returns *)
| DUnlockTask (t : task_ptr)            (* 119 *)
| DCancel (i : nat)                     (* 123 *)
| DCancelEnd                            (* 123: i == size() *)
| DBroadcast                            (* 125 *)
| DDelete (i : nat)                     (* 128 *)
| DReturn                               (* 128: i == size(), 129 *)
| Spurious.                             (* a wake-up that nobody sent *)

Definition trace := list (thread * action).

(** What the scheduler and the environment choose at a step. *)
Inductive label :=
| LSlave (i : nat)                       (* slave i executes its next statement;
                                            at line 84, main() returns *)
| LRaise (i : nat)                       (* at line 84, main() raises *)
| LPush (p : nat) (t : task_ptr)         (* idle producer p calls push(t) *)
| LProducer (p : nat) (w : option nat)   (* producer p executes its next
                                            statement; at line 142 the signal
                                            wakes slave w, or nobody *)
| LDestroy                               (* the owner calls the destructor *)
| LOwner                                 (* the owner executes its next statement *)
| LSpurious (th : thread).               (* th wakes up spuriously *)

Definition thread_of (l : label) : thread :=
  match l with
  | LSlave i | LRaise i => Slave i
  | LPush p _ | LProducer p _ => Producer p
  | LDestroy | LOwner => Owner
  | LSpurious th => th
  end.

Definition is_empty {A} (l : list A) : bool :=
  match l with [] => true | _ => false end.

(** [void SlaveThread::main(void)], one statement. *)
Definition slave_step (i : nat) (s : state) : option (action * state) :=
  sl ← slaves s !! i;
  match s_pc sl with
  | S_loop =>
      if mCancel sl then Some (SLoop false, goto i sl S_exit s)
      else Some (SLoop true, goto i sl S_lock s)
  | S_lock =>
      m ← acquire (Slave i) (p_mutex s);
      Some (SLockPool, goto i sl S_check (set_p_mutex m s))
  | S_check =>
      if is_empty (mTasks s) && negb (mCancel sl) then
        m ← release (Slave i) (p_mutex s);
        Some (SWaitPool, goto i sl S_waiting (set_p_mutex m s))
      else Some (SQueueTest, goto i sl S_test s)
  | S_waiting => None
  | S_woken =>
      m ← acquire (Slave i) (p_mutex s);
      Some (SWokenPool, goto i sl S_check (set_p_mutex m s))
  | S_test =>
      if mCancel sl then Some (SIfCancel true, goto i sl S_unlock_else s)
      else Some (SIfCancel false, goto i sl S_front s)
  | S_front =>
      match mTasks s with
      | [] => None
      | t :: q => Some (SDequeue t, goto i sl (S_unlock t) (set_mTasks q s))
      end
  | S_unlock t =>
      m ← release (Slave i) (p_mutex s);
      Some (SUnlockPool, goto i sl (S_tlock1 t) (set_p_mutex m s))
  | S_tlock1 t =>
      m ← acquire (Slave i) (t_mutex (heap s t));
      Some (SLockTask t,
            goto i sl (S_set_running t)
              (set_task t (mkTask (mRunning (heap s t)) (mCompleted (heap s t)) m) s))
  | S_set_running t =>
      Some (SSetRunning t true,
            goto i sl (S_bcast1 t)
              (set_task t (mkTask true (mCompleted (heap s t)) (t_mutex (heap s t))) s))
  | S_bcast1 t => Some (SBroadcast t, goto i sl (S_tunlock1 t) (broadcast_task t s))
  | S_tunlock1 t =>
      m ← release (Slave i) (t_mutex (heap s t));
      Some (SUnlockTask t,
            goto i sl (S_main t)
              (set_task t (mkTask (mRunning (heap s t)) (mCompleted (heap s t)) m) s))
  | S_main t => Some (SMain t true, goto i sl (S_tlock2 t) s)
  | S_tlock2 t =>
      m ← acquire (Slave i) (t_mutex (heap s t));
      Some (SLockTask t,
            goto i sl (S_clear_running t)
              (set_task t (mkTask (mRunning (heap s t)) (mCompleted (heap s t)) m) s))
  | S_clear_running t =>
      Some (SSetRunning t false,
            goto i sl (S_set_completed t)
              (set_task t (mkTask false (mCompleted (heap s t)) (t_mutex (heap s t))) s))
  | S_set_completed t =>
      Some (SSetCompleted t,
            goto i sl (S_bcast2 t)
              (set_task t (mkTask (mRunning (heap s t)) true (t_mutex (heap s t))) s))
  | S_bcast2 t => Some (SBroadcast t, goto i sl (S_tunlock2 t) (broadcast_task t s))
  | S_tunlock2 t =>
      m ← release (Slave i) (t_mutex (heap s t));
      Some (SUnlockTask t,
            goto i sl S_loop
              (set_task t (mkTask (mRunning (heap s t)) (mCompleted (heap s t)) m) s))
  | S_unlock_else =>
      m ← release (Slave i) (p_mutex s);
      Some (SUnlockElse, goto i sl S_loop (set_p_mutex m s))
  | S_exit => None
  | S_raised _ => None
  end.

(** Line 84 when [lTask->main()] raises: the source has no handler, so the
    failure leaves [SlaveThread::main] and lines 86-90 are not executed. *)
Definition slave_raise (i : nat) (s : state) : option (action * state) :=
  sl ← slaves s !! i;
  match s_pc sl with
  | S_main t => Some (SMain t false, goto i sl (S_raised t) s)
  | _ => None
  end.

(** [void ThreadPool::push(Task& inTask)], one statement. *)
Definition push_call (p : nat) (t : task_ptr) (s : state) : option (action * state) :=
  pc ← producers s !! p;
  match pc with
  | P_idle => Some (PCall t, pgoto p (P_reset t) s)
  | _ => None
  end.

Definition push_step (p : nat) (w : option nat) (s : state) : option (action * state) :=
  pc ← producers s !! p;
  match pc with
  | P_idle => None
  | P_reset t => Some (PReset t, pgoto p (P_lock t) (set_task t (reset (heap s t)) s))
  | P_lock t =>
      m ← acquire (Producer p) (p_mutex s);
      Some (PLockPool, pgoto p (P_push t) (set_p_mutex m s))
  | P_push t => Some (PEnqueue t, pgoto p (P_signal t) (set_mTasks (mTasks s ++ [t]) s))
  | P_signal t =>
      match w with
      | None => Some (PSignal None, pgoto p (P_unlock t) s)
      | Some i =>
          sl ← slaves s !! i;
          match s_pc sl with
          | S_waiting => Some (PSignal (Some i), pgoto p (P_unlock t) (goto i sl S_woken s))
          | _ => None
          end
      end
  | P_unlock t =>
      m ← release (Producer p) (p_mutex s);
      Some (PUnlockPool, pgoto p P_idle (set_p_mutex m s))
  end.

(** Modelled from the spec: the thread of a slave has terminated when
    [SlaveThread::main] has returned or a failure has left it. *)
Definition terminated (pc : slave_pc) : bool :=
  match pc with
  | S_exit | S_raised _ => true
  | _ => false
  end.

(** The owner calls the destructor. *)
Definition destroy_call (s : state) : option (action * state) :=
  match owner s with
  | D_alive => Some (DCall, set_owner D_lock s)
  | _ => None
  end.

(** [ThreadPool::~ThreadPool(void)], one statement.  Deleting a slave
    (line 128) blocks until its thread has terminated: the comment of line
    127 says so, and so does the spec of the thread destructor, whose code
    is not part of the sources. *)
Definition destroy_step (s : state) : option (action * state) :=
  match owner s with
  | D_alive => None
  | D_lock =>
      m ← acquire Owner (p_mutex s);
      Some (DLockPool, set_owner D_check (set_p_mutex m s))
  | D_check =>
      if negb (is_empty (mTasks s)) then Some (DLoop true, set_owner D_back s)
      else Some (DLoop false, set_owner (D_cancel 0) s)
  | D_back =>
      t ← last (mTasks s);
      Some (DBack t, set_owner (D_tlock t) s)
  | D_tlock t =>
      m ← acquire Owner (t_mutex (heap s t));
      Some (DLockTask t,
            set_owner (D_unlock t)
              (set_task t (mkTask (mRunning (heap s t)) (mCompleted (heap s t)) m) s))
  | D_unlock t =>
      m ← release Owner (p_mutex s);
      Some (DUnlockPool, set_owner (D_wait t) (set_p_mutex m s))
  | D_wait t =>
      m ← release Owner (t_mutex (heap s t));
      Some (DWaitTask t,
            set_owner (D_waiting t)
              (set_task t (mkTask (mRunning (heap s t)) (mCompleted (heap s t)) m) s))
  | D_waiting _ => None
  | D_woken t =>
      m ← acquire Owner (t_mutex (heap s t));
      Some (DWokenTask t,
            set_owner (D_tunlock t)
              (set_task t (mkTask (mRunning (heap s t)) (mCompleted (heap s t)) m) s))
  | D_tunlock t =>
      m ← release Owner (t_mutex (heap s t));
      Some (DUnlockTask t,
            set_owner D_lock
              (set_task t (mkTask (mRunning (heap s t)) (mCompleted (heap s t)) m) s))
  | D_cancel i =>
      match slaves s !! i with
      | Some sl =>
          Some (DCancel i,
                set_owner (D_cancel (S i))
                  (set_slaves (<[i := cancel sl]> (slaves s)) s))
      | None => Some (DCancelEnd, set_owner D_bcast s)
      end
  | D_bcast => Some (DBroadcast, set_owner D_unlock2 (broadcast_pool s))
  | D_unlock2 =>
      m ← release Owner (p_mutex s);
      Some (DUnlockPool, set_owner (D_delete 0) (set_p_mutex m s))
  | D_delete i =>
      match slaves s !! i with
      | Some sl =>
          if terminated (s_pc sl) then Some (DDelete i, set_owner (D_delete (S i)) s)
          else None
      | None => Some (DReturn, set_owner D_done s)
      end
  | D_done => None
  end.

(** Modelled from the spec: a [Condition::wait] may return without a signal
    or broadcast (spurious wake-up); the two waits of the model are line 71
    and line 118. *)
Definition spurious (th : thread) (s : state) : option (action * state) :=
  match th with
  | Slave i =>
      sl ← slaves s !! i;
      match s_pc sl with
      | S_waiting => Some (Spurious, goto i sl S_woken s)
      | _ => None
      end
  | Owner =>
      match owner s with
      | D_waiting t => Some (Spurious, set_owner (D_woken t) s)
      | _ => None
      end
  | Producer _ => None
  end.

Definition exec (l : label) (s : state) : option (action * state) :=
  match l with
  | LSlave i => slave_step i s
  | LRaise i => slave_raise i s
  | LPush p t => push_call p t s
  | LProducer p w => push_step p w s
  | LDestroy => destroy_call s
  | LOwner => destroy_step s
  | LSpurious th => spurious th s
  end.

(** Restrictions on the environment: which labels may be chosen in which
    state. *)
Definition guard := state -> label -> bool.

Definition unrestricted : guard := fun _ _ => true.

(** A run: the labels are executed from left to right, the trace grows at
    its end.  [None]: some label was not enabled, or not allowed. *)
Fixpoint run (G : guard) (ls : list label) (tr : trace) (s : state)
  : option (trace * state) :=
  match ls with
  | [] => Some (tr, s)
  | l :: ls' =>
      if G s l then
        match exec l s with
        | Some (a, s') => run G ls' (tr ++ [(thread_of l, a)]) s'
        | None => None
        end
      else None
  end.

(** [ThreadPool::ThreadPool(unsigned int inSlaves)]: the loop of lines
    100-104 appends [inSlaves] new slave threads. *)
Fixpoint allocate (inSlaves : nat) (pool : list SlaveThread) : list SlaveThread :=
  match inSlaves with
  | O => pool
  | S n => allocate n (pool ++ [mkSlave false S_loop])
  end.

(** The state after construction, with [np] threads that may call [push]
    and every task object freshly constructed. *)
Definition init (inSlaves np : nat) : state :=
  mkState [] None (allocate inSlaves []) (fun _ => new_task) (replicate np P_idle) D_alive.

(** *** Vocabulary of the statements about the pool *)

(** Which mutexes a thread holds, read off its program counter. *)
Definition slave_holds_pool (pc : slave_pc) : bool :=
  match pc with
  | S_check | S_test | S_front | S_unlock _ | S_unlock_else => true
  | _ => false
  end.

Definition producer_holds_pool (pc : producer_pc) : bool :=
  match pc with
  | P_push _ | P_signal _ | P_unlock _ => true
  | _ => false
  end.

Definition owner_holds_pool (pc : owner_pc) : bool :=
  match pc with
  | D_check | D_back | D_tlock _ | D_unlock _ | D_cancel _ | D_bcast | D_unlock2 => true
  | _ => false
  end.

Definition slave_holds_task (pc : slave_pc) (t : task_ptr) : bool :=
  match pc with
  | S_set_running u | S_bcast1 u | S_tunlock1 u
  | S_clear_running u | S_set_completed u | S_bcast2 u | S_tunlock2 u => Nat.eqb u t
  | _ => false
  end.

Definition owner_holds_task (pc : owner_pc) (t : task_ptr) : bool :=
  match pc with
  | D_unlock u | D_wait u | D_tunlock u => Nat.eqb u t
  | _ => false
  end.

(** The holder recorded in each mutex is the thread whose program counter
    lies between a [lock()] and the matching [unlock()] (or wait). *)
Record lock_inv (s : state) : Prop := {
  li_slave_pool : forall i sl, slaves s !! i = Some sl ->
      (p_mutex s = Some (Slave i) <-> slave_holds_pool (s_pc sl) = true);
  li_producer_pool : forall p pc, producers s !! p = Some pc ->
      (p_mutex s = Some (Producer p) <-> producer_holds_pool pc = true);
  li_owner_pool : p_mutex s = Some Owner <-> owner_holds_pool (owner s) = true;
  li_slave_task : forall t i sl, slaves s !! i = Some sl ->
      (t_mutex (heap s t) = Some (Slave i) <-> slave_holds_task (s_pc sl) t = true);
  li_producer_task : forall t p, t_mutex (heap s t) <> Some (Producer p);
  li_owner_task : forall t,
      t_mutex (heap s t) = Some Owner <-> owner_holds_task (owner s) t = true
}.

(** The statements executed by one thread, in order. *)
Definition proj (th : thread) (tr : trace) : list action :=
  omap (fun e : thread * action => if decide (fst e = th) then Some (snd e) else None) tr.

Definition enqueue_of (e : thread * action) : option task_ptr :=
  match snd e with PEnqueue t => Some t | _ => None end.
Definition dequeue_of (e : thread * action) : option task_ptr :=
  match snd e with SDequeue t => Some t | _ => None end.
Definition call_of (e : thread * action) : option task_ptr :=
  match snd e with PCall t => Some t | _ => None end.

(** The tasks in the order in which [push] was called with them, in which
    line 141 appended them, and in which line 75 took them. *)
Definition called (tr : trace) : list task_ptr := omap call_of tr.
Definition enqueued (tr : trace) : list task_ptr := omap enqueue_of tr.
Definition dequeued (tr : trace) : list task_ptr := omap dequeue_of tr.

(** The statements of one call [push(t)]; [w] is the slave that the signal
    woke, if any. *)
Definition push_script (c : task_ptr * option nat) : list action :=
  [PCall (fst c); PReset (fst c); PLockPool; PEnqueue (fst c); PSignal (snd c); PUnlockPool].

(** How much of [push_script] a producer at [pc] has executed. *)
Definition push_progress (pc : producer_pc) (cur : list action) : Prop :=
  match pc with
  | P_idle => cur = []
  | P_reset t => cur = [PCall t]
  | P_lock t => cur = [PCall t; PReset t]
  | P_push t => cur = [PCall t; PReset t; PLockPool]
  | P_signal t => cur = [PCall t; PReset t; PLockPool; PEnqueue t]
  | P_unlock t => exists w, cur = [PCall t; PReset t; PLockPool; PEnqueue t; PSignal w]
  end.

(** The task that a call of [push] has not yet appended. *)
Definition claim_of (pc : producer_pc) : option task_ptr :=
  match pc with
  | P_reset t | P_lock t | P_push t => Some t
  | _ => None
  end.

Definition is_idle (pc : producer_pc) : bool :=
  match pc with P_idle => true | _ => false end.

(** Calls of [push] that do not overlap: [push] is called only when no other
    call is in progress. *)
Definition sequential : guard := fun s l =>
  match l with
  | LPush _ _ => forallb is_idle (producers s)
  | _ => true
  end.

(** The statements by which a slave handles the task it dequeued, lines
    75 to 90. *)
Definition iteration (t : task_ptr) : list action :=
  [SDequeue t; SUnlockPool; SLockTask t; SSetRunning t true; SBroadcast t; SUnlockTask t;
   SMain t true;
   SLockTask t; SSetRunning t false; SSetCompleted t; SBroadcast t; SUnlockTask t].

(** Position of a program counter inside lines 75 to 90. *)
Definition handles (pc : slave_pc) : option (task_ptr * nat) :=
  match pc with
  | S_unlock t => Some (t, 1)
  | S_tlock1 t => Some (t, 2)
  | S_set_running t => Some (t, 3)
  | S_bcast1 t => Some (t, 4)
  | S_tunlock1 t => Some (t, 5)
  | S_main t => Some (t, 6)
  | S_tlock2 t => Some (t, 7)
  | S_clear_running t => Some (t, 8)
  | S_set_completed t => Some (t, 9)
  | S_bcast2 t => Some (t, 10)
  | S_tunlock2 t => Some (t, 11)
  | _ => None
  end.

(** How much of [iteration] a slave at [pc] has executed; when [main()]
    raised the slave stopped there. *)
Definition slave_progress (pc : slave_pc) : list action :=
  match pc with
  | S_raised t => take 6 (iteration t) ++ [SMain t false]
  | _ => match handles pc with
         | Some (t, k) => take k (iteration t)
         | None => []
         end
  end.

Definition is_handling (a : action) : bool :=
  match a with
  | SDequeue _ | SUnlockPool | SLockTask _ | SSetRunning _ _ | SSetCompleted _
  | SBroadcast _ | SUnlockTask _ | SMain _ _ => true
  | _ => false
  end.

(** The statements of lines 75 to 90 executed by slave [i]. *)
Definition handling (i : nat) (tr : trace) : list action :=
  List.filter is_handling (proj (Slave i) tr).

(** The queue holds the tasks appended and not yet taken, oldest first. *)
Definition fifo_inv (tr : trace) (s : state) : Prop :=
  enqueued tr = dequeued tr ++ mTasks s.

(** Every call of [push] executes the statements of [push_script] in
    order. *)
Definition push_inv (tr : trace) (s : state) : Prop :=
  forall p pc, producers s !! p = Some pc ->
    exists done cur,
      proj (Producer p) tr = concat (push_script <$> done) ++ cur /\ push_progress pc cur.

(** With calls of [push] that do not overlap, at most one call is in
    progress, and the tasks were appended in the order of the calls. *)
Definition seq_inv (tr : trace) (s : state) : Prop :=
  (forall p p' pc pc', producers s !! p = Some pc -> producers s !! p' = Some pc' ->
     is_idle pc = false -> is_idle pc' = false -> p = p') /\
  (forall p pc t, producers s !! p = Some pc -> claim_of pc = Some t ->
     called tr = enqueued tr ++ [t]) /\
  ((forall p pc, producers s !! p = Some pc -> claim_of pc = None) ->
   called tr = enqueued tr).

(** Every slave executes whole iterations, one after the other. *)
Definition iter_inv (tr : trace) (s : state) : Prop :=
  forall i sl, slaves s !! i = Some sl ->
    exists done, handling i tr = concat (iteration <$> done) ++ slave_progress (s_pc sl).

(** Two schedules used as examples: one slave and one producer; [push] is
    called with task 5 and then with task 7 and the slave takes both; the
    slave waits, task 0 is pushed, and the slave handles it up to the call
    of [main()]. *)
Definition two_pushes : list label :=
  [LPush 0 5; LProducer 0 None; LProducer 0 None; LProducer 0 None; LProducer 0 None;
   LProducer 0 None;
   LPush 0 7; LProducer 0 None; LProducer 0 None; LProducer 0 None; LProducer 0 None;
   LProducer 0 None;
   LSlave 0; LSlave 0; LSlave 0; LSlave 0; LSlave 0; LSlave 0; LSlave 0; LSlave 0;
   LSlave 0; LSlave 0; LSlave 0; LSlave 0; LSlave 0; LSlave 0; LSlave 0; LSlave 0;
   LSlave 0; LSlave 0; LSlave 0; LSlave 0; LSlave 0].

Definition one_task : list label :=
  [LSlave 0; LSlave 0; LSlave 0;
   LPush 0 0; LProducer 0 None; LProducer 0 None; LProducer 0 None;
   LProducer 0 (Some 0); LProducer 0 None;
   LSlave 0; LSlave 0; LSlave 0; LSlave 0; LSlave 0; LSlave 0; LSlave 0; LSlave 0;
   LSlave 0].

(** The schedule [one_task], after which [main()] raises. *)
Definition raising_task : list label := one_task ++ [LRaise 0].


(** The destructor has not been called, or is inside the loop of lines
    112 to 121 (or about to test it). *)
Definition draining (pc : owner_pc) : bool :=
  match pc with
  | D_alive | D_lock | D_check | D_back | D_tlock _ | D_unlock _ | D_wait _
  | D_waiting _ | D_woken _ | D_tunlock _ => true
  | _ => false
  end.

(** A pool without slaves: no statement of a slave is ever executed, no
    flag of a task is ever set, nothing is ever dequeued. *)
Definition no_slaves_inv (tr : trace) (s : state) : Prop :=
  slaves s = [] /\
  (forall t, mRunning (heap s t) = false /\ mCompleted (heap s t) = false) /\
  (forall th a, In (th, a) tr -> forall i, th <> Slave i) /\
  dequeued tr = [].

(** A pool without slaves whose queue is not empty while the destructor is
    not past its loop. *)
Definition stuck (s : state) : Prop :=
  slaves s = [] /\ mTasks s <> [] /\ draining (owner s) = true.

(** One producer pushes task 3 to a pool without slaves; then the
    destructor is called, blocks on the task, wakes up spuriously, finds the
    queue not empty and blocks on the task again. *)
Definition push_then_destroy : list label :=
  [LPush 0 3; LProducer 0 None; LProducer 0 None; LProducer 0 None; LProducer 0 None;
   LProducer 0 None;
   LDestroy; LOwner; LOwner; LOwner; LOwner; LOwner; LOwner;
   LSpurious Owner; LOwner; LOwner; LOwner; LOwner; LOwner; LOwner; LOwner; LOwner].

(** Which slaves the loop of line 123 has cancelled, and which slaves the
    loop of line 128 has deleted, when the owner is at [pc]. *)
Definition cancelled_upto (pc : owner_pc) (i : nat) : bool :=
  match pc with
  | D_cancel k => Nat.ltb i k
  | D_bcast | D_unlock2 | D_delete _ | D_done => true
  | _ => false
  end.

Definition deleted_upto (pc : owner_pc) (i : nat) : bool :=
  match pc with
  | D_delete k => Nat.ltb i k
  | D_done => true
  | _ => false
  end.

(** The destructor and the state of the pool. *)
Record dtor_inv (s : state) : Prop := {
  di_locks : lock_inv s;
  di_last : forall t, owner s = D_tlock t \/ owner s = D_unlock t ->
      last (mTasks s) = Some t;
  di_empty : (exists k, owner s = D_cancel k) \/ owner s = D_bcast -> mTasks s = [];
  di_cancel : forall i sl, slaves s !! i = Some sl ->
      mCancel sl = cancelled_upto (owner s) i;
  di_delete : forall i sl, slaves s !! i = Some sl ->
      deleted_upto (owner s) i = true -> terminated (s_pc sl) = true
}.

(** One turn of the loop of lines 112 to 121, starting with the [lock()]
    that precedes its test (line 110 or line 120). *)
Definition drain_round (t : task_ptr) : list action :=
  [DLockPool; DLoop true; DBack t; DLockTask t; DUnlockPool; DWaitTask t;
   DWokenTask t; DUnlockTask t].

(** What the destructor of a pool of [n] slaves has executed after the
    last whole turn of its loop, when it is at [pc]. *)
Definition owner_progress (n : nat) (pc : owner_pc) : list action :=
  match pc with
  | D_alive | D_lock => []
  | D_check => [DLockPool]
  | D_back => [DLockPool; DLoop true]
  | D_tlock t => take 3 (drain_round t)
  | D_unlock t => take 4 (drain_round t)
  | D_wait t => take 5 (drain_round t)
  | D_waiting t | D_woken t => take 6 (drain_round t)
  | D_tunlock t => take 7 (drain_round t)
  | D_cancel k => [DLockPool; DLoop false] ++ (DCancel <$> seq 0 k)
  | D_bcast => [DLockPool; DLoop false] ++ (DCancel <$> seq 0 n) ++ [DCancelEnd]
  | D_unlock2 =>
      [DLockPool; DLoop false] ++ (DCancel <$> seq 0 n) ++ [DCancelEnd; DBroadcast]
  | D_delete k =>
      [DLockPool; DLoop false] ++ (DCancel <$> seq 0 n)
        ++ [DCancelEnd; DBroadcast; DUnlockPool] ++ (DDelete <$> seq 0 k)
  | D_done =>
      [DLockPool; DLoop false] ++ (DCancel <$> seq 0 n)
        ++ [DCancelEnd; DBroadcast; DUnlockPool] ++ (DDelete <$> seq 0 n) ++ [DReturn]
  end.

Definition owner_trace (n : nat) (pc : owner_pc) (rounds : list task_ptr) : list action :=
  match pc with
  | D_alive => []
  | _ => DCall :: concat (drain_round <$> rounds) ++ owner_progress n pc
  end.

Definition is_statement (a : action) : bool :=
  match a with Spurious => false | _ => true end.

(** The statements executed by a thread, its spurious wake-ups left out. *)
Definition statements (th : thread) (tr : trace) : list action :=
  List.filter is_statement (proj th tr).

(** The destructor executes its statements in the order of the source. *)
Definition owner_inv (tr : trace) (s : state) : Prop :=
  (exists rounds,
     statements Owner tr = owner_trace (length (slaves s)) (owner s) rounds) /\
  (forall k, owner s = D_cancel k \/ owner s = D_delete k -> k <= length (slaves s)).

(** One slave, one producer: the slave waits, task 0 is pushed, the
    destructor is called and blocks on task 0; the slave dequeues the task
    and announces that it runs, which wakes the destructor; the destructor
    finds the queue empty, cancels the slave and comes to delete it while
    [main()] still executes. *)
Definition destroy_while_running : list label :=
  [LSlave 0; LSlave 0; LSlave 0;
   LPush 0 0; LProducer 0 None; LProducer 0 None; LProducer 0 None;
   LProducer 0 (Some 0); LProducer 0 None;
   LDestroy; LOwner; LOwner; LOwner; LOwner; LOwner; LOwner;
   LSlave 0; LSlave 0; LSlave 0; LSlave 0; LSlave 0; LSlave 0; LSlave 0; LSlave 0;
   LSlave 0;
   LOwner; LOwner; LOwner; LOwner; LOwner; LOwner; LOwner; LOwner].

(** The same, until [main()] has returned, the slave has completed the
    task and left its loop, and the destructor has returned. *)
Definition destroy_and_join : list label :=
  destroy_while_running
    ++ [LSlave 0; LSlave 0; LSlave 0; LSlave 0; LSlave 0; LSlave 0; LSlave 0;
        LOwner; LOwner].

(** A slave that has dequeued task [t] and has not yet set its completed
    flag (lines 77 to 88) works on [t]; a call of [push] that has not yet
    appended [t] (lines 138 to 141) works on [t]. *)
Definition claims_slave (pc : slave_pc) (t : task_ptr) : bool :=
  match handles pc with
  | Some (u, k) => Nat.eqb u t && Nat.leb k 9
  | None => false
  end.

Definition claims_producer (pc : producer_pc) (t : task_ptr) : bool :=
  match claim_of pc with
  | Some u => Nat.eqb u t
  | None => false
  end.

Definition count {A} (f : A -> bool) (l : list A) : nat := length (List.filter f l).

(** How often the pool refers to task [t]: in its queue, in a call of
    [push] before the append, in a slave before the completion. *)
Definition refs (s : state) (t : task_ptr) : nat :=
  count (Nat.eqb t) (mTasks s)
  + count (fun pc => claims_producer pc t) (producers s)
  + count (fun sl => claims_slave (s_pc sl) t) (slaves s).

(** The caller's side of the contract of [push]: a task is pushed only
    while the pool does not refer to it. *)
Definition contract : guard := fun s l =>
  match l with
  | LPush _ t => Nat.eqb (refs s t) 0
  | _ => true
  end.

(** The value of [running] at position [k] of lines 75 to 90, up to
    line 88. *)
Definition running_at (k : nat) : bool := Nat.leb 4 k && Nat.leb k 8.

(** The flags of the tasks the pool refers to. *)
Record flags_inv (s : state) : Prop := {
  fi_refs : forall t, refs s t <= 1;
  fi_queue : forall t, In t (mTasks s) ->
      mRunning (heap s t) = false /\ mCompleted (heap s t) = false;
  fi_producer : forall p t,
      producers s !! p = Some (P_lock t) \/ producers s !! p = Some (P_push t) ->
      mRunning (heap s t) = false /\ mCompleted (heap s t) = false;
  fi_slave : forall i sl t k,
      slaves s !! i = Some sl -> handles (s_pc sl) = Some (t, k) -> k <= 9 ->
      mRunning (heap s t) = running_at k /\ mCompleted (heap s t) = false;
  fi_excl : forall t, mRunning (heap s t) && mCompleted (heap s t) = false
}.

(** One slave, one producer: task 0 is pushed twice in a row; the slave
    handles it once to the end and a second time up to line 80. *)
Definition double_push : list label :=
  [LPush 0 0; LProducer 0 None; LProducer 0 None; LProducer 0 None; LProducer 0 None;
   LProducer 0 None;
   LPush 0 0; LProducer 0 None; LProducer 0 None; LProducer 0 None; LProducer 0 None;
   LProducer 0 None;
   LSlave 0; LSlave 0; LSlave 0; LSlave 0; LSlave 0; LSlave 0; LSlave 0; LSlave 0;
   LSlave 0; LSlave 0; LSlave 0; LSlave 0; LSlave 0; LSlave 0; LSlave 0; LSlave 0;
   LSlave 0; LSlave 0; LSlave 0; LSlave 0; LSlave 0; LSlave 0; LSlave 0; LSlave 0].

(** The same with the second call of [push] after the completion of the
    first execution. *)
Definition push_again : list label :=
  [LPush 0 0; LProducer 0 None; LProducer 0 None; LProducer 0 None; LProducer 0 None;
   LProducer 0 None;
   LSlave 0; LSlave 0; LSlave 0; LSlave 0; LSlave 0; LSlave 0; LSlave 0; LSlave 0;
   LSlave 0; LSlave 0; LSlave 0; LSlave 0; LSlave 0; LSlave 0; LSlave 0; LSlave 0;
   LPush 0 0; LProducer 0 None; LProducer 0 None; LProducer 0 None; LProducer 0 None;
   LProducer 0 None;
   LSlave 0; LSlave 0; LSlave 0; LSlave 0; LSlave 0; LSlave 0; LSlave 0; LSlave 0].

(** *** Vocabulary of the further properties *)

(** Whether thread [th] is, by its program counter, inside a section of
    code that runs with the pool's mutex, or with the mutex of task [t]. *)
Definition in_pool_section (s : state) (th : thread) : bool :=
  match th with
  | Slave i => from_option (fun sl => slave_holds_pool (s_pc sl)) false (slaves s !! i)
  | Producer p => from_option producer_holds_pool false (producers s !! p)
  | Owner => owner_holds_pool (owner s)
  end.

Definition in_task_section (s : state) (th : thread) (t : task_ptr) : bool :=
  match th with
  | Slave i => from_option (fun sl => slave_holds_task (s_pc sl) t) false (slaves s !! i)
  | Producer _ => false
  | Owner => owner_holds_task (owner s) t
  end.

(** Two slaves and one producer: slave 0 waits for a task, then [push] is
    called with task 0 and stops before the append of line 141. *)
Definition before_append : list label :=
  [LSlave 0; LSlave 0; LSlave 0; LPush 0 0; LProducer 0 None; LProducer 0 None].

(** What the tests of lines 71, 72 and 112 have established when a thread
    comes to take a task from the queue. *)
Record access_inv (s : state) : Prop := {
  ai_test : forall i sl, slaves s !! i = Some sl -> s_pc sl = S_test ->
      mCancel sl = true \/ mTasks s <> [];
  ai_front : forall i sl, slaves s !! i = Some sl -> s_pc sl = S_front -> mTasks s <> [];
  ai_back : owner s = D_back -> mTasks s <> []
}.

(** The two kinds of mutex of the pool. *)
Inductive mutex :=
| PoolMutex
| TaskMutex (t : task_ptr).

Definition holder (s : state) (m : mutex) : option thread :=
  match m with
  | PoolMutex => p_mutex s
  | TaskMutex t => t_mutex (heap s t)
  end.

(** What the next statement of a thread needs before it can be executed. *)
Inductive need :=
| Nothing               (* it can be executed at once *)
| Free (m : mutex)      (* a lock(), or the return from a wait: the mutex must be free *)
| Wakeup                (* the thread is blocked inside a wait *)
| Joined (i : nat)      (* delete of slave i: its thread must have terminated *)
| Over.                 (* the thread has no statement to execute *)

Definition slave_needs (pc : slave_pc) : need :=
  match pc with
  | S_lock | S_woken => Free PoolMutex
  | S_tlock1 t | S_tlock2 t => Free (TaskMutex t)
  | S_waiting => Wakeup
  | S_exit | S_raised _ => Over
  | _ => Nothing
  end.

Definition producer_needs (pc : producer_pc) : need :=
  match pc with
  | P_idle => Over
  | P_lock _ => Free PoolMutex
  | _ => Nothing
  end.

Definition owner_needs (pc : owner_pc) : need :=
  match pc with
  | D_alive | D_done => Over
  | D_lock => Free PoolMutex
  | D_tlock t | D_woken t => Free (TaskMutex t)
  | D_waiting _ => Wakeup
  | D_delete i => Joined i
  | _ => Nothing
  end.

Definition needs (s : state) (th : thread) : need :=
  match th with
  | Slave i => from_option (fun sl => slave_needs (s_pc sl)) Over (slaves s !! i)
  | Producer p => from_option producer_needs Over (producers s !! p)
  | Owner => owner_needs (owner s)
  end.

Definition satisfied (s : state) (n : need) : bool :=
  match n with
  | Nothing => true
  | Free m => match holder s m with None => true | Some _ => false end
  | Wakeup => false
  | Joined i => from_option (fun sl => terminated (s_pc sl)) true (slaves s !! i)
  | Over => false
  end.

(** The label by which a thread executes its next statement (for a
    slave at line 84, [main()] returns; for [push] at line 142, the signal
    wakes nobody). *)
Definition next (th : thread) : label :=
  match th with
  | Slave i => LSlave i
  | Producer p => LProducer p None
  | Owner => LOwner
  end.

(** The thread is one of the threads of the state. *)
Definition alive (s : state) (th : thread) : Prop :=
  match th with
  | Slave i => i < length (slaves s)
  | Producer p => p < length (producers s)
  | Owner => True
  end.

(** A mutex is held by a thread of the state. *)
Definition holder_inv (s : state) : Prop :=
  forall m th, holder s m = Some th -> alive s th.

(** The schedule [one_task]; then [main()] returns and the slave comes to
    the broadcast of line 89, task 0 is pushed again, the destructor is
    called and comes to lock task 0, whose mutex the slave holds. *)
Definition destroy_meets_slave : list label :=
  one_task ++ [LSlave 0; LSlave 0; LSlave 0; LSlave 0;
               LPush 0 0; LProducer 0 None; LProducer 0 None; LProducer 0 None;
               LProducer 0 None; LProducer 0 None;
               LDestroy; LOwner; LOwner; LOwner].

(** The schedule [one_task]; then task 4 is pushed while task 0 executes,
    the destructor is called and finds the queue not empty. *)
Definition destroy_finds_task : list label :=
  one_task ++ [LPush 0 4; LProducer 0 None; LProducer 0 None; LProducer 0 None;
               LProducer 0 None; LProducer 0 None; LDestroy; LOwner; LOwner].

(** The destructor is past its broadcast (line 125). *)
Definition past_broadcast (pc : owner_pc) : bool :=
  match pc with
  | D_unlock2 | D_delete _ | D_done => true
  | _ => false
  end.

(** The slaves and the cancellation: a cancelled slave is not about to
    take a task, after the broadcast no slave is blocked on the pool, and
    the flag of a slave that was cancelled stays set. *)
Record cancel_inv (tr : trace) (s : state) : Prop := {
  ci_front : forall i sl, slaves s !! i = Some sl -> mCancel sl = true ->
      s_pc sl <> S_front;
  ci_awake : past_broadcast (owner s) = true ->
      forall i sl, slaves s !! i = Some sl -> s_pc sl <> S_waiting;
  ci_flag : forall i sl, In (Owner, DCancel i) tr -> slaves s !! i = Some sl ->
      mCancel sl = true
}.

(** One slave and one producer: the destructor cancels the slave, which
    waits for a task, and wakes it; then task 0 is pushed; the slave
    leaves its loop and the destructor returns. *)
Definition push_after_cancel : list label :=
  [LSlave 0; LSlave 0; LSlave 0;
   LDestroy; LOwner; LOwner; LOwner; LOwner; LOwner; LOwner;
   LPush 0 0; LProducer 0 None; LProducer 0 None; LProducer 0 None; LProducer 0 None;
   LProducer 0 None;
   LSlave 0; LSlave 0; LSlave 0; LSlave 0; LSlave 0;
   LOwner; LOwner].

(** After its cancellation a slave has neither taken a task nor called
    [wait()]. *)
Definition idle_since_cancel (tr : trace) : Prop :=
  forall i tr1 tr2, tr = tr1 ++ (Owner, DCancel i) :: tr2 ->
    (forall t, ~ In (Slave i, SDequeue t) tr2) /\ ~ In (Slave i, SWaitPool) tr2.

Definition call_arg (a : action) : option task_ptr :=
  match a with PCall t => Some t | _ => None end.

Definition append_arg (a : action) : option task_ptr :=
  match a with PEnqueue t => Some t | _ => None end.

(** The tasks with which thread [p] called [push], and the tasks that its
    calls appended to the queue (line 141), in order. *)
Definition calls_by (p : nat) (tr : trace) : list task_ptr :=
  omap call_arg (proj (Producer p) tr).

Definition appends_by (p : nat) (tr : trace) : list task_ptr :=
  omap append_arg (proj (Producer p) tr).

(** Two producers, the slaves not yet started: producer 0 calls [push]
    with task 5 and is overtaken, before it has the pool's mutex, by
    producer 1 which pushes task 7. *)
Definition overlapping_pushes : list label :=
  [LPush 0 5; LProducer 0 None;
   LPush 1 7; LProducer 1 None; LProducer 1 None; LProducer 1 None; LProducer 1 None;
   LProducer 1 None;
   LProducer 0 None; LProducer 0 None; LProducer 0 None; LProducer 0 None].

(** A slave at [pc] is between the write of line 80 and the write of line
    87 for task [t], or was stopped there by a failure of [main()]. *)
Definition runs (pc : slave_pc) (t : task_ptr) : bool :=
  match pc with
  | S_bcast1 u | S_tunlock1 u | S_main u | S_tlock2 u | S_clear_running u
  | S_raised u => Nat.eqb u t
  | _ => false
  end.

(** A task that is running has a slave that runs it. *)
Definition runner_inv (s : state) : Prop :=
  forall t, mRunning (heap s t) = true ->
    exists i sl, slaves s !! i = Some sl /\ runs (s_pc sl) t = true.

(** A task that is completed was completed by a slave. *)
Definition completion_inv (tr : trace) (s : state) : Prop :=
  forall t, mCompleted (heap s t) = true ->
    exists i, i < length (slaves s) /\ In (SSetCompleted t) (handling i tr).

(** The task on which the destructor waits, or is about to wait, with the
    task's mutex taken at line 116. *)
Definition owner_waits_on (pc : owner_pc) : option task_ptr :=
  match pc with
  | D_unlock t | D_wait t | D_waiting t => Some t
  | _ => None
  end.

(** A slave at [pc] has dequeued task [t] and has not yet executed the
    broadcast of line 81. *)
Definition announces (pc : slave_pc) (t : task_ptr) : bool :=
  match handles pc with
  | Some (u, k) => Nat.eqb u t && Nat.leb k 4
  | None => false
  end.

(** The broadcast that the destructor waits for is still to come. *)
Definition wait_inv (s : state) : Prop :=
  forall t, owner_waits_on (owner s) = Some t ->
    In t (mTasks s) \/
    exists i sl, slaves s !! i = Some sl /\ announces (s_pc sl) t = true.

(** One slave and one producer: the slave waits, task 0 is pushed, the
    destructor is called and blocks on task 0 before the slave has taken
    it. *)
Definition destroy_waits : list label :=
  [LSlave 0; LSlave 0; LSlave 0;
   LPush 0 0; LProducer 0 None; LProducer 0 None; LProducer 0 None;
   LProducer 0 (Some 0); LProducer 0 None;
   LDestroy; LOwner; LOwner; LOwner; LOwner; LOwner; LOwner].

(** Every slave in turn enters its loop and blocks on the empty queue
    (lines 67 to 71). *)
Definition all_wait (n : nat) : list label :=
  flat_map (fun i => [LSlave i; LSlave i; LSlave i]) (seq 0 n).

(** Every slave in turn returns from the wait, finds itself cancelled and
    leaves its loop (lines 71, 72, 92, 67). *)
Definition all_exit (n : nat) : list label :=
  flat_map (fun i => [LSlave i; LSlave i; LSlave i; LSlave i; LSlave i]) (seq 0 n).

(** The destructor of a pool of [n] slaves that all wait on the empty
    queue, from its call to its return; the slaves leave their loops after
    its broadcast. *)
Definition destroy_idle (n : nat) : list label :=
  [LDestroy; LOwner; LOwner] ++ repeat LOwner n ++ [LOwner; LOwner; LOwner]
    ++ all_exit n ++ repeat LOwner n ++ [LOwner].

(** The slaves of a pool of [n] block on the empty queue; then the pool is
    destroyed. *)
Definition shutdown (n : nat) : list label := all_wait n ++ destroy_idle n.

(** One call [push(t)] by producer 0, whose signal wakes slave 0; slave 0
    returns from the wait, handles the task from line 72 to line 90 and
    blocks on the empty queue again. *)
Definition serve (t : task_ptr) : list label :=
  [LPush 0 t; LProducer 0 None; LProducer 0 None; LProducer 0 None;
   LProducer 0 (Some 0); LProducer 0 None]
    ++ repeat (LSlave 0) 18.

(** The slaves of a pool of [n] block on the empty queue, the tasks [ts]
    are pushed and served one after the other, and the pool is
    destroyed. *)
Definition life_cycle (n : nat) (ts : list task_ptr) : list label :=
  all_wait n ++ flat_map serve ts ++ destroy_idle n.

(** The labels lead from one state to another, whatever the trace so far. *)
Definition reaches (ls : list label) (s s' : state) : Prop :=
  forall tr, exists tr', run unrestricted ls tr s = Some (tr', s').

End ThreadPool.

(** ** Properties of the semaphore *)

Module SemaphoreFacts.
Import Semaphore.

Local Open Scope Z_scope.

Lemma after_app ws1 ws2 s : after (ws1 ++ ws2) s = after ws2 (after ws1 s).
Proof. unfold after. apply fold_left_app. Qed.

Lemma after_counts ws s :
  mCount (after ws s) = mCount s + sum_count ws /\
  mWaiters (after ws s) = mWaiters s + sum_waiters ws.
Proof.
  revert s. induction ws as [|w ws IH]; intros s.
  - simpl. lia.
  - change (after (w :: ws) s) with (after ws (interfere w s)).
    destruct (IH (interfere w s)) as [Hc Hw].
    rewrite Hc, Hw. simpl. lia.
Qed.

Lemma absorbed_app ws1 ws2 s :
  absorbed (ws1 ++ ws2) s <-> absorbed ws1 s /\ absorbed ws2 (after ws1 s).
Proof.
  revert s. induction ws1 as [|w ws1 IH]; intros s; simpl.
  - tauto.
  - rewrite IH. tauto.
Qed.

(** What the loop of [wait] does with its wake-ups, entered with the value
    [lReturn] that the previous wake-up returned. *)
Lemma wait_loop_spec ws : forall lReturn s calls,
  match wait_loop ws lReturn s calls with
  | Some (r, s2, calls') =>
      exists used rest,
        ws = used ++ rest /\
        calls' = (calls + length used)%nat /\
        s2 = after used s /\
        loop_test r s2 = false /\
        (used = [] -> r = lReturn) /\
        (forall pre w, used = pre ++ [w] ->
           loop_test lReturn s = true /\ absorbed pre s /\ r = w_ret w)
  | None => loop_test lReturn s = true /\ absorbed ws s
  end.
Proof.
  induction ws as [|w ws IH]; intros lReturn s calls; simpl.
  - destruct (loop_test lReturn s) eqn:Ht.
    + split; [reflexivity | exact I].
    + exists [], []. simpl. split; [reflexivity|]. split; [lia|].
      split; [reflexivity|]. split; [exact Ht|]. split; [reflexivity|].
      intros pre w' H. destruct pre; discriminate.
  - destruct (loop_test lReturn s) eqn:Ht.
    + specialize (IH (w_ret w) (interfere w s) (S calls)).
      destruct (wait_loop ws (w_ret w) (interfere w s) (S calls))
        as [[[r s2] calls']|].
      * destruct IH as (used & rest & -> & -> & -> & Hexit & Hnil & Hlast).
        exists (w :: used), rest. simpl.
        split; [reflexivity|]. split; [lia|]. split; [reflexivity|].
        split; [exact Hexit|]. split; [intros H; discriminate|].
        intros pre w' H. split; [reflexivity|].
        destruct pre as [|w0 pre]; simpl in H.
        -- injection H as Hw Hu. subst w' used.
           split; [exact I|]. apply Hnil; reflexivity.
        -- injection H as Hw Hu. subst w0 used.
           destruct (Hlast _ _ eq_refl) as (Hl & Ha & Hr).
           unfold loop_test in Hl. apply andb_prop in Hl as [Hc Hr'].
           simpl. split; [|exact Hr].
           split; [exact Hr'|]. split; [apply Z.leb_le; exact Hc | exact Ha].
      * destruct IH as [Hl Ha]. split; [reflexivity|].
        unfold loop_test in Hl. apply andb_prop in Hl as [Hc Hr].
        simpl. split; [exact Hr|]. split; [apply Z.leb_le; exact Hc | exact Ha].
    + exists [], (w :: ws). simpl. split; [reflexivity|]. split; [lia|].
      split; [reflexivity|]. split; [exact Ht|]. split; [reflexivity|].
      intros pre w' H. destruct pre; discriminate.
Qed.

Lemma loop_test_false r s : loop_test r s = false -> r = true -> 0 < mCount s.
Proof.
  unfold loop_test. intros H ->. rewrite andb_true_r in H.
  apply Z.leb_gt in H. exact H.
Qed.

Lemma loop_test_true r s : loop_test r s = true -> mCount s <= 0 /\ r = true.
Proof.
  unfold loop_test. intros H. apply andb_prop in H as [H1 H2].
  apply Z.leb_le in H1. auto.
Qed.

(** C3.  [Semaphore::wait]: the loop tests the count again after every
    wake-up, so a wake-up that is no time-out and finds no resource is
    absorbed; [wait] returns false only when the last [Condition::wait]
    timed out, and then its own effect on the count is nil; it returns true
    only with a positive count, which it decrements by one; the number of
    waiters is incremented and decremented back in both cases.  When [wait]
    has not returned, every wake-up so far was absorbed. *)
Theorem wait_spec {Time} (inMaxTime : Time) (inLock : bool) (ws : list wake) (s : Semaphore) :
  let s1 := wait_enter s in
  match wait inMaxTime inLock ws s with
  | Some (log, (r, s')) =>
      exists used rest,
        ws = used ++ rest /\
        log = guard inLock Lock ++ repeat (Wait inMaxTime) (length used)
                ++ guard inLock Unlock /\
        (used = [] -> 0 < mCount s /\ r = true) /\
        (forall pre w, used = pre ++ [w] ->
           mCount s <= 0 /\ absorbed pre s1 /\ r = w_ret w) /\
        (r = false -> exists pre w, used = pre ++ [w] /\ w_ret w = false) /\
        mCount s' = mCount s + sum_count used - (if r then 1 else 0) /\
        (r = true -> 0 <= mCount s') /\
        mWaiters s' = mWaiters s + sum_waiters used
  | None => mCount s <= 0 /\ absorbed ws s1
  end.
Proof.
  intros s1. unfold wait. fold s1.
  pose proof (wait_loop_spec ws true s1 0) as H.
  destruct (wait_loop ws true s1 0) as [[[r s2] calls]|].
  - destruct H as (used & rest & -> & -> & -> & Hexit & Hnil & Hlast).
    destruct (after_counts used s1) as [Hc Hw]. simpl in Hc, Hw.
    exists used, rest.
    split; [reflexivity|]. split; [reflexivity|].
    split.
    { intros ->. rewrite (Hnil eq_refl) in *.
      split; [|reflexivity]. apply (loop_test_false true s1); auto. }
    split.
    { intros pre w H. destruct (Hlast _ _ H) as (Hl & Ha & Hr).
      apply loop_test_true in Hl. repeat split; [apply Hl | exact Ha | exact Hr]. }
    split.
    { intros ->. destruct used as [|w0 used _] using rev_ind.
      - specialize (Hnil eq_refl). discriminate.
      - exists used, w0. split; [reflexivity|].
        destruct (Hlast _ _ eq_refl) as (_ & _ & Hr). auto. }
    split.
    { unfold wait_finish. destruct r; simpl; lia. }
    split.
    { intros ->. pose proof (loop_test_false _ _ Hexit eq_refl).
      unfold wait_finish. simpl. lia. }
    unfold wait_finish. destruct r; simpl; lia.
  - destruct H as [Hl Ha]. apply loop_test_true in Hl. split; [apply Hl | exact Ha].
Qed.



(** C5.  [Semaphore::tryWait] always returns and never calls
    [Condition::wait]; with a positive count it returns true and takes one
    resource, otherwise it returns false and changes nothing.  From count 0:
    [tryWait] fails, and after one [post] it succeeds once and then fails
    again. *)
Theorem tryWait_spec {Time} (inLock : bool) (s : Semaphore) :
  List.filter is_wait (fst (tryWait (Time:=Time) inLock s)) = [] /\
  (0 < mCount s ->
     snd (tryWait (Time:=Time) inLock s) = (true, mkSem (mCount s - 1) (mWaiters s))) /\
  (mCount s <= 0 -> snd (tryWait (Time:=Time) inLock s) = (false, s)) /\
  (mCount s = 0 ->
     let s1 := snd (post (Time:=Time) inLock s) in
     let r1 := snd (tryWait (Time:=Time) inLock s1) in
     let r2 := snd (tryWait (Time:=Time) inLock (snd r1)) in
     fst r1 = true /\ fst r2 = false /\ mCount (snd r2) = 0).
Proof.
  unfold tryWait. simpl.
  split; [destruct inLock; reflexivity|].
  split.
  { intros H. apply Z.leb_gt in H. rewrite H. reflexivity. }
  split.
  { intros H. apply Z.leb_le in H. rewrite H. reflexivity. }
  intros H. unfold post. simpl. rewrite H. simpl. repeat split.
Qed.

Lemma tryWait_spec_witness :
  snd (tryWait (Time:=unit) true (mkSem 3 1)) = (true, mkSem (3 - 1) 1) /\
  snd (tryWait (Time:=unit) true (mkSem 0 1)) = (false, mkSem 0 1) /\
  fst (snd (tryWait (Time:=unit) true (snd (post (Time:=unit) true (mkSem 0 1))))) = true.
Proof.
  assert (0 < 3) as H03 by lia.
  assert (0 <= 0) as H00 by lia.
  split; [exact (proj1 (proj2 (tryWait_spec (Time:=unit) true (mkSem 3 1))) H03)|].
  split; [exact (proj1 (proj2 (proj2 (tryWait_spec (Time:=unit) true (mkSem 0 1)))) H00)|].
  exact (proj1 (proj2 (proj2 (proj2 (tryWait_spec (Time:=unit) true (mkSem 0 1)))) eq_refl)).
Defined.

Lemma wait_spec_witness :
  let spurious_wake := mkWake true 0 0 in
  let time_out := mkWake false 0 0 in
  exists used rest,
    [spurious_wake; time_out] = used ++ rest /\
    [Lock; Wait tt; Wait tt; Unlock]
      = guard true Lock ++ repeat (Wait tt) (length used) ++ guard true Unlock /\
    (used = [] -> 0 < 0 /\ false = true) /\
    (forall pre w, used = pre ++ [w] ->
       0 <= 0 /\ absorbed pre (wait_enter (mkSem 0 0)) /\ false = w_ret w) /\
    (false = false -> exists pre w, used = pre ++ [w] /\ w_ret w = false) /\
    0 = 0 + sum_count used - 0 /\
    (false = true -> 0 <= 0) /\
    0 = 0 + sum_waiters used.
Proof.
  exact (wait_spec tt true [mkWake true 0 0; mkWake false 0 0] (mkSem 0 0)).
Defined.

(** *** Threads sharing the semaphore *)










(** *** More on the three methods *)

(** X1.  With a resource available [wait] is [tryWait]: it makes the same
    calls on the mutex, never calls [Condition::wait] whatever wake-ups are
    in store, returns true and leaves the same counters.  Without a
    resource the two differ: [tryWait] returns false at once and changes
    nothing, [wait] calls [Condition::wait] and is blocked there until a
    wake-up comes. *)
Theorem wait_is_tryWait_when_available {Time} (inMaxTime : Time) (inLock : bool)
    (ws : list wake) (s : Semaphore) :
  (0 < mCount s -> wait inMaxTime inLock ws s = Some (tryWait inLock s)) /\
  (mCount s <= 0 ->
     snd (tryWait (Time:=Time) inLock s) = (false, s) /\
     wait inMaxTime inLock [] s = None /\
     forall log r s', wait inMaxTime inLock ws s = Some (log, (r, s')) ->
       In (Wait inMaxTime) log).
Proof.
  split.
  - intros H.
    assert ((mCount s <=? 0) = false) as E by (apply Z.leb_gt; exact H).
    assert (loop_test true (wait_enter s) = false) as Hl.
    { unfold loop_test. simpl. rewrite E. reflexivity. }
    unfold wait, tryWait. rewrite E.
    destruct ws; simpl wait_loop; rewrite Hl.
    all: unfold wait_finish; simpl.
    all: replace (mWaiters s + 1 - 1) with (mWaiters s) by lia; reflexivity.
  - intros H.
    assert ((mCount s <=? 0) = true) as E by (apply Z.leb_le; exact H).
    split; [unfold tryWait; rewrite E; reflexivity|].
    split; [unfold wait; simpl; unfold loop_test; simpl; rewrite E; reflexivity|].
    intros log r s' Hw. unfold wait in Hw.
    pose proof (wait_loop_spec ws true (wait_enter s) 0) as Hs.
    destruct (wait_loop ws true (wait_enter s) 0) as [[[r0 s2] calls]|]; [|discriminate].
    injection Hw as <- <- <-.
    destruct Hs as (used & rest & -> & -> & -> & Hexit & Hnil & _).
    destruct used as [|w used].
    + specialize (Hnil eq_refl). subst r0.
      unfold loop_test in Hexit. simpl in Hexit. rewrite E in Hexit. discriminate.
    + apply in_or_app. right. apply in_or_app. left. simpl. left. reflexivity.
Qed.

Lemma wait_is_tryWait_when_available_witness :
  wait tt true [mkWake false 0 0] (mkSem 2 0) = Some ([Lock; Unlock], (true, mkSem 1 0)) /\
  snd (tryWait (Time:=unit) true (mkSem 0 0)) = (false, mkSem 0 0) /\
  wait tt true [] (mkSem 0 0) = None.
Proof.
  assert (0 < 2) as H02 by lia.
  assert (0 <= 0) as H00 by lia.
  split.
  - exact (proj1 (wait_is_tryWait_when_available tt true [mkWake false 0 0] (mkSem 2 0)) H02).
  - destruct (proj2 (wait_is_tryWait_when_available tt true [] (mkSem 0 0)) H00)
      as (H1 & H2 & _).
    split; [exact H1 | exact H2].
Defined.







End SemaphoreFacts.

(** ** Properties of the thread pool *)

Module ThreadPoolFacts.
Import ThreadPool.

(** *** Case analysis of a step *)

Ltac crunch H :=
  repeat (simpl in H;
    match type of H with
    | None = Some _ => discriminate H
    | Some _ = Some _ => injection H as <- <-
    | context [match ?x with _ => _ end] => destruct x eqn:?
    | context [mbind _ ?x] => destruct x eqn:?
    end).

(** Splits [H : exec l s = Some (a, s')] into one case per statement;
    [step_cases] also splits on the label. *)
Ltac step_split H :=
  unfold exec, slave_step, slave_raise, push_call, push_step, destroy_call, destroy_step,
    spurious in H;
  repeat match type of H with
  | context [mbind _ (slaves ?s !! ?i)] =>
      let sl := fresh "sl" in let E := fresh "Hsl" in
      destruct (slaves s !! i) as [sl|] eqn:E; simpl in H; [|discriminate H]
  | context [mbind _ (producers ?s !! ?i)] =>
      let sl := fresh "pc" in let E := fresh "Hpc" in
      destruct (producers s !! i) as [pc|] eqn:E; simpl in H; [|discriminate H]
  | context [match s_pc ?sl with _ => _ end] =>
      let E := fresh "Hspc" in destruct (s_pc sl) eqn:E; simpl in H
  | context [match owner ?s with _ => _ end] =>
      let E := fresh "Hown" in destruct (owner s) eqn:E; simpl in H
  | context [match ?th with Slave _ => _ | _ => _ end] => destruct th; simpl in H
  | context [match ?pc with P_idle => _ | _ => _ end] => destruct pc; simpl in H
  end;
  try discriminate H;
  unfold acquire, release in H; crunch H; simplify_eq.

Ltac step_cases H :=
  match type of H with
  | exec ?l _ = _ => destruct l; simpl in H
  end;
  step_split H.

Lemma broadcast_task_cases t s :
  broadcast_task t s = s \/
  (owner s = D_waiting t /\ broadcast_task t s = set_owner (D_woken t) s).
Proof.
  unfold broadcast_task. destruct (owner s) eqn:E; auto.
  destruct (Nat.eqb_spec t0 t); subst; auto.
Qed.

(** Unfolds the state after the step, down to the record. *)
Ltac expose :=
  unfold goto, pgoto, set_task, broadcast_pool, reset, cancel;
  try match goal with
  | |- context [broadcast_task ?t ?s] =>
      destruct (broadcast_task_cases t s) as [-> | [? ->]]
  end.

(** Lookups in the updated lists of slaves and producers. *)
Ltac lookups :=
  repeat match goal with
  | H : <[_ := _]> _ !! _ = Some _ |- _ =>
      apply list_lookup_insert_Some in H as [(-> & <- & _) | (? & H)]
  | H : (_ <$> _) !! _ = Some _ |- _ =>
      rewrite list_lookup_fmap in H; apply fmap_Some in H as (? & H & ->)
  end.

Ltac heapcase :=
  repeat match goal with
  | |- context [upd ?t _ _ ?u] => unfold upd; destruct (Nat.eqb_spec u t); subst
  end.

Ltac rewrite_pcs :=
  repeat match goal with
  | H : s_pc _ = _ |- _ => rewrite H in *
  | H : owner _ = _ |- _ => rewrite H in *
  | H : p_mutex _ = _ |- _ => rewrite H in *
  | H : t_mutex _ = _ |- _ => rewrite H in *
  end.

(** *** The mutexes *)

Lemma wake_holds_pool sl :
  slave_holds_pool (s_pc (wake_slave sl)) = slave_holds_pool (s_pc sl).
Proof. unfold wake_slave. destruct (s_pc sl) eqn:E; simpl; rewrite ?E; reflexivity. Qed.

Lemma wake_holds_task sl t :
  slave_holds_task (s_pc (wake_slave sl)) t = slave_holds_task (s_pc sl) t.
Proof. unfold wake_slave. destruct (s_pc sl) eqn:E; simpl; rewrite ?E; reflexivity. Qed.

Ltac lock_saturate I1 I2 I4 :=
  repeat match goal with
  | H : slaves _ !! _ = Some _ |- _ =>
      pose proof (I1 _ _ H); pose proof (fun t => I4 t _ _ H); revert H
  | H : producers _ !! _ = Some _ |- _ =>
      pose proof (I2 _ _ H); revert H
  end; intros.

Ltac eqb_to_eq :=
  repeat match goal with
  | H : context [Nat.eqb _ _ = true] |- _ => rewrite Nat.eqb_eq in H
  | |- context [Nat.eqb _ _ = true] => rewrite Nat.eqb_eq
  end.

Ltac lock_finish :=
  rewrite_pcs;
  cbn in *; eqb_to_eq;
  repeat match goal with
  | H : forall t : task_ptr, _ |- context [heap _ ?t] => pose proof (H t); clear H
  | H : forall t : task_ptr, _, H' : context [heap _ ?t] |- _ => pose proof (H t); clear H
  end;
  eqb_to_eq;
  try (split; intros; simplify_eq; try discriminate; try tauto; try congruence);
  try (intuition (simplify_eq; try discriminate; try congruence)).

Lemma exec_lock_inv l s a s' :
  exec l s = Some (a, s') -> lock_inv s -> lock_inv s'.
Proof.
  intros H I.
  step_cases H.
  all: expose.
  all: destruct I as [I1 I2 I3 I4 I5 I6].
  all: constructor; cbn; intros; lookups; cbn; heapcase; cbn.
  all: try rewrite wake_holds_pool; try rewrite wake_holds_task.
  all: lock_saturate I1 I2 I4.
  all: solve [lock_finish].
Qed.

(** *** Runs *)

Lemma run_snoc G ls l tr s :
  run G (ls ++ [l]) tr s =
  match run G ls tr s with
  | Some (tr1, s1) => run G [l] tr1 s1
  | None => None
  end.
Proof.
  revert tr s. induction ls as [|l0 ls IH]; intros tr s; simpl.
  - reflexivity.
  - destruct (G s l0); [|reflexivity].
    destruct (exec l0 s) as [[a s1]|]; [|reflexivity]. apply IH.
Qed.

Lemma run_app G ls1 ls2 tr s :
  run G (ls1 ++ ls2) tr s =
  match run G ls1 tr s with
  | Some (tr1, s1) => run G ls2 tr1 s1
  | None => None
  end.
Proof.
  revert tr s. induction ls1 as [|l0 ls IH]; intros tr s; simpl.
  - reflexivity.
  - destruct (G s l0); [|reflexivity].
    destruct (exec l0 s) as [[a s1]|]; [|reflexivity]. apply IH.
Qed.

(** A property kept by every allowed step holds along every run. *)
Lemma run_invariant (G : guard) (I : trace -> state -> Prop) :
  (forall tr s l a s',
     I tr s -> G s l = true -> exec l s = Some (a, s') ->
     I (tr ++ [(thread_of l, a)]) s') ->
  forall ls tr s tr' s',
    run G ls tr s = Some (tr', s') -> I tr s -> I tr' s'.
Proof.
  intros Hstep. induction ls as [|l ls IH]; intros tr s tr' s' Hr Hi; simpl in Hr.
  - injection Hr as <- <-. exact Hi.
  - destruct (G s l) eqn:Hg; [|discriminate].
    destruct (exec l s) as [[a s1]|] eqn:He; [|discriminate].
    eapply IH; [exact Hr|]. eapply Hstep; eauto.
Qed.

(** A restricted run is a run. *)
Lemma run_unrestricted G ls : forall tr s r,
  run G ls tr s = Some r -> run unrestricted ls tr s = Some r.
Proof.
  induction ls as [|l ls IH]; intros tr s r Hr; simpl in *.
  - exact Hr.
  - destruct (G s l); [|discriminate].
    destruct (exec l s) as [[a s1]|]; [|discriminate]. apply IH. exact Hr.
Qed.

Lemma lookup_allocate n : forall pool i sl,
  (forall j x, pool !! j = Some x -> x = mkSlave false S_loop) ->
  allocate n pool !! i = Some sl -> sl = mkSlave false S_loop.
Proof.
  induction n as [|n IH]; intros pool i sl Hp H; simpl in H.
  - eapply Hp; eauto.
  - eapply IH; [|exact H]. intros j x Hj.
    apply lookup_app_Some in Hj as [Hj | [_ Hj]].
    + eapply Hp; eauto.
    + apply list_lookup_singleton_Some in Hj as [_ <-]. reflexivity.
Qed.

Lemma length_allocate n : forall pool, length (allocate n pool) = length pool + n.
Proof.
  induction n as [|n IH]; intros pool; simpl.
  - lia.
  - rewrite IH, length_app. simpl. lia.
Qed.

Lemma init_slave n np i sl :
  slaves (init n np) !! i = Some sl -> sl = mkSlave false S_loop.
Proof.
  simpl. apply lookup_allocate. intros j x Hj. destruct j; discriminate.
Qed.

Lemma init_producer n np p pc :
  producers (init n np) !! p = Some pc -> pc = P_idle.
Proof.
  simpl. intros H. apply lookup_replicate in H as [-> _]. reflexivity.
Qed.

Lemma init_lock_inv n np : lock_inv (init n np).
Proof.
  constructor; intros.
  - apply init_slave in H as ->. simpl. split; discriminate.
  - apply init_producer in H as ->. simpl. split; discriminate.
  - simpl. split; discriminate.
  - apply init_slave in H as ->. simpl. split; discriminate.
  - simpl. discriminate.
  - simpl. split; discriminate.
Qed.

Lemma run_lock_inv G ls tr s tr' s' :
  run G ls tr s = Some (tr', s') -> lock_inv s -> lock_inv s'.
Proof.
  apply (run_invariant G (fun _ s => lock_inv s)).
  intros. eapply exec_lock_inv; eauto.
Qed.

(** *** Traces *)

Lemma proj_snoc th tr th' a :
  proj th (tr ++ [(th', a)]) = proj th tr ++ (if decide (th' = th) then [a] else []).
Proof.
  unfold proj. rewrite omap_app. simpl. destruct (decide (th' = th)); reflexivity.
Qed.

Lemma handling_snoc i tr th a :
  handling i (tr ++ [(th, a)]) =
  handling i tr ++ (if decide (th = Slave i) then if is_handling a then [a] else [] else []).
Proof.
  unfold handling. rewrite proj_snoc, List.filter_app.
  destruct (decide (th = Slave i)); [|reflexivity].
  simpl. destruct (is_handling a); reflexivity.
Qed.

Lemma enqueued_snoc tr th a :
  enqueued (tr ++ [(th, a)]) = enqueued tr ++ match a with PEnqueue t => [t] | _ => [] end.
Proof. unfold enqueued. rewrite omap_app. destruct a; reflexivity. Qed.

Lemma dequeued_snoc tr th a :
  dequeued (tr ++ [(th, a)]) = dequeued tr ++ match a with SDequeue t => [t] | _ => [] end.
Proof. unfold dequeued. rewrite omap_app. destruct a; reflexivity. Qed.

Lemma called_snoc tr th a :
  called (tr ++ [(th, a)]) = called tr ++ match a with PCall t => [t] | _ => [] end.
Proof. unfold called. rewrite omap_app. destruct a; reflexivity. Qed.

Lemma exec_fifo_inv tr s l a s' :
  fifo_inv tr s -> exec l s = Some (a, s') -> fifo_inv (tr ++ [(thread_of l, a)]) s'.
Proof.
  unfold fifo_inv. intros I H.
  rewrite enqueued_snoc, dequeued_snoc.
  step_cases H.
  all: expose; cbn; rewrite ?app_nil_r; try assumption.
  - rewrite I, <- app_assoc. reflexivity.
  - rewrite I, <- app_assoc. reflexivity.
Qed.

Lemma init_fifo_inv n np : fifo_inv [] (init n np).
Proof. reflexivity. Qed.

Lemma run_fifo_inv G ls tr s tr' s' :
  run G ls tr s = Some (tr', s') -> fifo_inv tr s -> fifo_inv tr' s'.
Proof.
  apply (run_invariant G fifo_inv). intros. eapply exec_fifo_inv; eauto.
Qed.

Ltac decide_threads :=
  repeat match goal with
  | |- context [decide (?x = ?y)] => destruct (decide (x = y)); simplify_eq
  end.

(** **** The statements of [push] *)

Lemma push_done done c :
  concat (push_script <$> (done ++ [c])) = concat (push_script <$> done) ++ push_script c.
Proof. rewrite fmap_app, concat_app. f_equal. Qed.

Lemma exec_push_inv tr s l a s' :
  push_inv tr s -> exec l s = Some (a, s') -> push_inv (tr ++ [(thread_of l, a)]) s'.
Proof.
  intros I H p' pc' Hl. rewrite proj_snoc.
  step_cases H.
  all: revert Hl; expose; cbn; intros Hl; lookups.
  all: decide_threads.
  all: rewrite ?app_nil_r; try (apply (I _ _ Hl)).
  all: match goal with
       | H : producers _ !! _ = Some _ |- _ => destruct (I _ _ H) as (done & cur & Hd & Hc)
       end.
  all: cbn in Hc.
  all: try match goal with Hx : ex _ |- _ => destruct Hx as [? ?] end.
  all: subst.
  all: try (exists done; eexists; rewrite Hd, <- app_assoc; split; [reflexivity|];
            cbn; eauto; fail).
  all: eexists (done ++ [(_, _)]), [];
       rewrite push_done, Hd, <- app_assoc, app_nil_r; split; reflexivity.
Qed.

Lemma init_push_inv n np : push_inv [] (init n np).
Proof.
  intros p pc H. apply init_producer in H as ->. exists [], []. split; reflexivity.
Qed.

Lemma run_push_inv G ls tr s tr' s' :
  run G ls tr s = Some (tr', s') -> push_inv tr s -> push_inv tr' s'.
Proof.
  apply (run_invariant G push_inv). intros. eapply exec_push_inv; eauto.
Qed.

(** **** Calls of [push] that do not overlap *)

Lemma forallb_idle l p pc :
  forallb is_idle l = true -> l !! p = Some pc -> pc = P_idle.
Proof.
  intros H Hl. rewrite forallb_forall in H.
  assert (In pc l) as Hin by (apply list_elem_of_In; eapply list_elem_of_lookup_2; eauto).
  specialize (H _ Hin). destruct pc; try discriminate. reflexivity.
Qed.

Lemma insert_claims (l : list producer_pc) p x y :
  l !! p = Some y ->
  (forall p0 pc, <[p:=x]> l !! p0 = Some pc -> claim_of pc = None) ->
  claim_of x = None /\
  (forall p0 pc, p0 <> p -> l !! p0 = Some pc -> claim_of pc = None).
Proof.
  intros Hy H. split.
  - apply (H p). apply list_lookup_insert_eq. eapply lookup_lt_Some; eauto.
  - intros p0 pc Hne Hp. apply (H p0). rewrite list_lookup_insert_ne by auto. exact Hp.
Qed.

Lemma exec_seq_inv tr s l a s' :
  seq_inv tr s -> sequential s l = true -> exec l s = Some (a, s') ->
  seq_inv (tr ++ [(thread_of l, a)]) s'.
Proof.
  intros (I1 & I2 & I3) G H.
  unfold seq_inv. rewrite called_snoc, enqueued_snoc.
  step_cases H.
  all: expose; cbn; rewrite ?app_nil_r.
  all: try (split; [exact I1 | split; [exact I2 | exact I3]]).
  all: simpl in G.
  all: (split; [|split]);
       [ intros p1 p2 pc1 pc2 H1 H2 N1 N2; lookups; try discriminate; try reflexivity
       | intros p1 pc1 t1 H1 C1; lookups; cbn in C1; simplify_eq
       | intros Hall; destruct (insert_claims _ _ _ _ Hpc Hall) as [Hx Ho];
         cbn in Hx; try discriminate ].
  all: try (pose proof (forallb_idle _ _ _ G H1); subst; discriminate).
  all: try (pose proof (forallb_idle _ _ _ G H2); subst; discriminate).
  all: try (eapply I1; eauto; fail).
  all: try (eapply I2; eauto; reflexivity).
  all: try (f_equal; apply I3; intros p0 pc0 H0;
            rewrite (forallb_idle _ _ _ G H0); reflexivity).
  all: try match goal with
       | H1 : producers _ !! ?q = Some ?pc, C1 : claim_of ?pc = Some _ |- _ =>
           exfalso;
           assert (q = p)
             by (eapply I1; eauto; destruct pc; try discriminate; reflexivity);
           congruence
       end.
  all: apply I3; intros p0 pc0 H0; destruct (decide (p0 = p)) as [->|];
       [rewrite Hpc in H0; injection H0 as <-; reflexivity | eauto].
Qed.

Lemma init_seq_inv n np : seq_inv [] (init n np).
Proof.
  repeat split.
  - intros p p' pc pc' H _ Hi. apply init_producer in H as ->. discriminate.
  - intros p pc t H Hc. apply init_producer in H as ->. discriminate.
Qed.

Lemma run_seq_inv ls tr s tr' s' :
  run sequential ls tr s = Some (tr', s') -> seq_inv tr s -> seq_inv tr' s'.
Proof.
  apply (run_invariant sequential seq_inv). intros. eapply exec_seq_inv; eauto.
Qed.

Lemma claims_dec (l : list producer_pc) :
  (exists p pc t, l !! p = Some pc /\ claim_of pc = Some t) \/
  (forall p pc, l !! p = Some pc -> claim_of pc = None).
Proof.
  induction l as [|x l IH].
  - right. intros p pc H. destruct p; discriminate.
  - destruct (claim_of x) as [t|] eqn:Hx.
    + left. exists 0, x, t. split; [reflexivity | exact Hx].
    + destruct IH as [(p & pc & t & Hp & Hc) | IH].
      * left. exists (S p), pc, t. split; [exact Hp | exact Hc].
      * right. intros [|p] pc H; simpl in H.
        -- injection H as <-. exact Hx.
        -- eapply IH; eauto.
Qed.

(** **** The statements of a slave *)

Lemma wake_progress sl : slave_progress (s_pc (wake_slave sl)) = slave_progress (s_pc sl).
Proof. unfold wake_slave. destruct (s_pc sl) eqn:E; simpl; rewrite ?E; reflexivity. Qed.

Lemma iteration_done done t :
  concat (iteration <$> (done ++ [t])) = concat (iteration <$> done) ++ iteration t.
Proof. rewrite fmap_app, concat_app. f_equal. Qed.

Lemma exec_iter_inv tr s l a s' :
  iter_inv tr s -> exec l s = Some (a, s') -> iter_inv (tr ++ [(thread_of l, a)]) s'.
Proof.
  intros I H i' sl' Hl. rewrite handling_snoc.
  step_cases H.
  all: revert Hl; expose; cbn; intros Hl; lookups.
  all: try rewrite wake_progress.
  all: try match goal with
       | H : slaves _ !! ?j = Some ?x |- context [slave_progress (s_pc ?x)] =>
           destruct (I _ _ H) as [done Hd]
       end.
  all: decide_threads.
  all: cbn; rewrite ?app_nil_r; try (exists done; exact Hd).
  all: try match goal with
       | H : slaves _ !! ?j = Some ?x |- _ =>
           destruct (I _ _ H) as [done Hd]
       end.
  all: rewrite_pcs; cbn in *.
  all: try (exists done; rewrite Hd, <- app_assoc; reflexivity).
  all: try (exists done; exact Hd).
  all: try match goal with
       | |- context [SUnlockTask ?t] =>
           exists (done ++ [t]); rewrite iteration_done, Hd, <- app_assoc, app_nil_r;
           reflexivity
       end.
  all: match goal with
       | H : slaves _ !! ?j = Some ?x |- context [slave_progress (s_pc ?x)] =>
           apply (I _ _ H)
       end.
Qed.

Lemma init_iter_inv n np : iter_inv [] (init n np).
Proof.
  intros i sl H. apply init_slave in H as ->. exists []. reflexivity.
Qed.

Lemma run_iter_inv G ls tr s tr' s' :
  run G ls tr s = Some (tr', s') -> iter_inv tr s -> iter_inv tr' s'.
Proof.
  apply (run_invariant G iter_inv). intros. eapply exec_iter_inv; eauto.
Qed.

(** *** FIFO order *)

(** C2.  When the calls of [push] do not overlap: every call executes
    reset, lock, append, signal, unlock in this order; the reset clears both
    flags, the append puts the task at the tail of the queue, the signal
    wakes at most one waiting slave, a slave takes the head of the queue;
    and the tasks are dequeued in the order in which [push] was called with
    them: the tasks called are those dequeued, then those queued, then the
    one (at most) not yet appended. *)
Theorem push_fifo (inSlaves np : nat) (ls : list label) (tr : trace) (s : state) :
  run sequential ls [] (init inSlaves np) = Some (tr, s) ->
  push_inv tr s /\
  enqueued tr = dequeued tr ++ mTasks s /\
  (exists pend, called tr = dequeued tr ++ mTasks s ++ pend /\ length pend <= 1) /\
  (forall s0 p w t s1, exec (LProducer p w) s0 = Some (PReset t, s1) ->
     mRunning (heap s1 t) = false /\ mCompleted (heap s1 t) = false /\
     mTasks s1 = mTasks s0) /\
  (forall s0 p w t s1, exec (LProducer p w) s0 = Some (PEnqueue t, s1) ->
     mTasks s1 = mTasks s0 ++ [t]) /\
  (forall s0 p w w' s1, exec (LProducer p w) s0 = Some (PSignal w', s1) ->
     w' = w /\
     match w with
     | None => slaves s1 = slaves s0
     | Some i => exists sl, slaves s0 !! i = Some sl /\ s_pc sl = S_waiting /\
                            slaves s1 = <[i := mkSlave (mCancel sl) S_woken]> (slaves s0)
     end) /\
  (forall s0 i t s1, exec (LSlave i) s0 = Some (SDequeue t, s1) ->
     mTasks s0 = t :: mTasks s1).
Proof.
  intros Hr.
  pose proof (run_push_inv _ _ _ _ _ _ Hr (init_push_inv _ _)) as Hp.
  pose proof (run_fifo_inv _ _ _ _ _ _ Hr (init_fifo_inv _ _)) as Hf.
  pose proof (run_seq_inv _ _ _ _ _ Hr (init_seq_inv _ _)) as (_ & Hs2 & Hs3).
  unfold fifo_inv in Hf.
  split; [exact Hp|]. split; [exact Hf|]. split.
  { destruct (claims_dec (producers s)) as [(p & pc & t & Hl & Hc) | Hnone].
    - exists [t]. split; [|simpl; lia].
      rewrite (Hs2 _ _ _ Hl Hc), Hf, <- app_assoc. reflexivity.
    - exists []. split; [|simpl; lia].
      rewrite (Hs3 Hnone), Hf, app_nil_r. reflexivity. }
  split.
  { intros s0 p w t s1 H. step_split H. expose. cbn. unfold upd.
    rewrite Nat.eqb_refl. auto. }
  split.
  { intros s0 p w t s1 H. step_split H. reflexivity. }
  split.
  { intros s0 p w w' s1 H. step_split H.
    - split; [reflexivity|]. eexists. split; [reflexivity|]. split; [assumption|reflexivity].
    - split; reflexivity. }
  intros s0 i t s1 H. step_split H. cbn. congruence.
Qed.

Lemma push_fifo_witness :
  exists tr s,
    run sequential two_pushes [] (init 1 1) = Some (tr, s) /\
    called tr = [5; 7] /\ dequeued tr = [5; 7] /\ mTasks s = [] /\
    enqueued tr = dequeued tr ++ mTasks s.
Proof.
  eexists _, _. split; [vm_compute; reflexivity|].
  split; [reflexivity|]. split; [reflexivity|]. split; [reflexivity|].
  eapply (proj1 (proj2 (push_fifo 1 1 two_pushes _ _ _))).
  Unshelve. vm_compute. reflexivity.
Defined.

(** *** One iteration of a slave *)






(** *** A task whose [main()] raises *)







(** Lines 86 to 90, statement by statement: what the statement needs, and
    what it leaves of the slave, of the task and of the owner. *)
Section FinalTransition.
Variables (s : state) (i : nat) (sl : SlaveThread) (t : task_ptr).
Hypothesis Hsl : slaves s !! i = Some sl.









End FinalTransition.



(** *** A pool without slaves *)

Ltac no_slave :=
  match goal with
  | Hs : slaves ?s = [], H : slaves ?s !! _ = Some _ |- _ =>
      rewrite Hs in H; discriminate H
  end.

Lemma exec_no_slaves_inv tr s l a s' :
  no_slaves_inv tr s -> exec l s = Some (a, s') ->
  no_slaves_inv (tr ++ [(thread_of l, a)]) s'.
Proof.
  intros (Hs & Hf & Ht & Hd) H.
  unfold no_slaves_inv. rewrite dequeued_snoc.
  assert (forall th' a', (forall i, th' <> Slave i) ->
            forall th a0, In (th, a0) (tr ++ [(th', a')]) -> forall i, th <> Slave i) as Hin.
  { intros th' a' Hn th a0 Hi. apply in_app_or in Hi as [Hi | [Hi | []]].
    - eapply Ht; eauto.
    - injection Hi as <- <-. exact Hn. }
  step_cases H; try no_slave.
  all: expose; cbn; rewrite ?Hs; cbn.
  all: split; [reflexivity|].
  all: split; [intros u; heapcase; cbn; auto|].
  all: split; [apply Hin; discriminate | rewrite Hd; reflexivity].
Qed.

Lemma init_no_slaves_inv np : no_slaves_inv [] (init 0 np).
Proof.
  split; [reflexivity|]. split; [intros t; split; reflexivity|].
  split; [intros th a []|reflexivity].
Qed.

Lemma exec_stuck l s a s' : exec l s = Some (a, s') -> stuck s -> stuck s'.
Proof.
  intros H (Hs & Hq & Hd).
  step_cases H; try no_slave.
  all: try (rewrite Hown in Hd; discriminate Hd).
  all: expose; unfold stuck; cbn; rewrite ?Hs; cbn.
  all: split; [reflexivity|]; split; try reflexivity; try exact Hq; try exact Hd.
  all: try (rewrite Hown in Hd; exact Hd).
  - intros E. apply app_eq_nil in E as [_ E]. discriminate.
  - exfalso. apply Hq. destruct (mTasks s); [reflexivity | discriminate].
Qed.

Lemma run_stuck G ls tr s tr' s' :
  run G ls tr s = Some (tr', s') -> stuck s -> stuck s'.
Proof.
  apply (run_invariant G (fun _ s => stuck s)). intros. eapply exec_stuck; eauto.
Qed.

(** C10.  A pool constructed with 0 slaves has no slave; in every run no
    statement of a slave is executed, the flags of every task stay false,
    and the queue holds every task ever appended.  Once the queue is not
    empty while the destructor is not past its loop, this stays so for
    ever: the destructor never leaves the loop and never returns. *)
Theorem no_slaves (np : nat) (ls : list label) (tr : trace) (s : state) :
  run unrestricted ls [] (init 0 np) = Some (tr, s) ->
  slaves s = [] /\
  (forall th a, In (th, a) tr -> forall i, th <> Slave i) /\
  (forall t, mRunning (heap s t) = false /\ mCompleted (heap s t) = false) /\
  mTasks s = enqueued tr /\
  (mTasks s <> [] -> draining (owner s) = true ->
   forall ls' tr' s',
     run unrestricted ls' tr s = Some (tr', s') ->
     mTasks s' <> [] /\ draining (owner s') = true /\ owner s' <> D_done).
Proof.
  intros Hr.
  pose proof (run_invariant _ _ (fun tr s l a s' I _ => exec_no_slaves_inv tr s l a s' I)
                _ _ _ _ _ Hr (init_no_slaves_inv np)) as (Hs & Hf & Ht & Hd).
  pose proof (run_fifo_inv _ _ _ _ _ _ Hr (init_fifo_inv _ _)) as Hq.
  unfold fifo_inv in Hq. rewrite Hd in Hq. simpl in Hq.
  split; [exact Hs|]. split; [exact Ht|]. split; [exact Hf|]. split; [auto|].
  intros Hne Hdr ls' tr' s' Hr'.
  destruct (run_stuck _ _ _ _ _ _ Hr' (conj Hs (conj Hne Hdr))) as (_ & Hq' & Hd').
  split; [exact Hq'|]. split; [exact Hd'|].
  intros E. rewrite E in Hd'. discriminate.
Qed.

Lemma no_slaves_witness :
  exists tr s,
    run unrestricted push_then_destroy [] (init 0 1) = Some (tr, s) /\
    mTasks s = [3] /\ owner s = D_waiting 3 /\
    mRunning (heap s 3) = false /\ mCompleted (heap s 3) = false /\
    forall ls' tr' s',
      run unrestricted ls' tr s = Some (tr', s') ->
      mTasks s' <> [] /\ draining (owner s') = true /\ owner s' <> D_done.
Proof.
  eexists _, _. split; [vm_compute; reflexivity|].
  split; [reflexivity|]. split; [reflexivity|].
  pose proof (no_slaves 1 push_then_destroy _ _ ltac:(vm_compute; reflexivity))
    as (_ & _ & Hf & _ & Hst).
  split; [exact (proj1 (Hf 3))|]. split; [exact (proj2 (Hf 3))|].
  apply Hst; [discriminate | reflexivity].
Defined.

(** *** The destructor *)

Lemma wake_terminated sl : terminated (s_pc (wake_slave sl)) = terminated (s_pc sl).
Proof. unfold wake_slave. destruct (s_pc sl) eqn:E; simpl; rewrite ?E; reflexivity. Qed.

Lemma wake_cancel sl : mCancel (wake_slave sl) = mCancel sl.
Proof. unfold wake_slave. destruct (s_pc sl); reflexivity. Qed.

(** Two threads cannot both be where the pool's mutex is held. *)
Ltac owner_has_pool L3 :=
  apply L3;
  repeat match goal with
  | H : _ \/ _ |- _ => destruct H
  | H : ex _ |- _ => destruct H
  end;
  rewrite_pcs; reflexivity.

Ltac pool_conflict :=
  exfalso;
  match goal with
  | L3 : p_mutex ?s = Some Owner <-> _, L : forall i sl, slaves ?s !! i = Some sl -> _,
    Hsl : slaves ?s !! ?i = Some _ |- _ =>
      assert (p_mutex s = Some Owner) by (owner_has_pool L3);
      assert (p_mutex s = Some (Slave i))
        by (eapply L; [exact Hsl | rewrite_pcs; reflexivity]);
      congruence
  | L3 : p_mutex ?s = Some Owner <-> _, L : forall p pc, producers ?s !! p = Some pc -> _,
    Hpc : producers ?s !! ?p = Some _ |- _ =>
      assert (p_mutex s = Some Owner) by (owner_has_pool L3);
      assert (p_mutex s = Some (Producer p))
        by (eapply L; [exact Hpc | rewrite_pcs; reflexivity]);
      congruence
  end.

Lemma exec_di_last l s a s' :
  exec l s = Some (a, s') -> dtor_inv s ->
  forall t, owner s' = D_tlock t \/ owner s' = D_unlock t -> last (mTasks s') = Some t.
Proof.
  intros H [IL I1 I2 I3 I4].
  destruct IL as [L1 L2 L3 _ _ _].
  step_cases H.
  all: expose; cbn; intros u Hu.
  all: try (apply I1; assumption).
  all: try (destruct Hu as [Hu|Hu]; discriminate Hu).
  all: try (destruct Hu as [Hu|Hu]; simplify_eq; try assumption; apply I1; auto; fail).
  all: try (destruct Hu as [Hu|Hu]; congruence).
  all: try pool_conflict.
  all: rewrite Hown in Hu; apply I1; assumption.
Qed.

Lemma exec_di_empty l s a s' :
  exec l s = Some (a, s') -> dtor_inv s ->
  (exists k, owner s' = D_cancel k) \/ owner s' = D_bcast -> mTasks s' = [].
Proof.
  intros H [IL I1 I2 I3 I4].
  destruct IL as [L1 L2 L3 _ _ _].
  step_cases H.
  all: expose; cbn; intros Hu.
  all: try (apply I2; assumption).
  all: try (destruct Hu as [[k Hu]|Hu]; discriminate Hu).
  all: try (destruct Hu as [[k Hu]|Hu]; congruence).
  all: try pool_conflict.
  all: try (apply I2; rewrite ?Hown; eauto; fail).
  destruct (mTasks s); [reflexivity | discriminate].
Qed.

Lemma exec_di_cancel l s a s' :
  exec l s = Some (a, s') -> dtor_inv s ->
  forall i sl, slaves s' !! i = Some sl -> mCancel sl = cancelled_upto (owner s') i.
Proof.
  intros H [IL I1 I2 I3 I4].
  step_cases H.
  all: expose; cbn -[Nat.ltb]; intros j sl' Hj; lookups; cbn -[Nat.ltb];
       rewrite ?wake_cancel.
  all: try (apply I3; assumption).
  all: try (rewrite (I3 _ _ Hj); rewrite_pcs; reflexivity).
  all: try (erewrite I3 by eassumption; rewrite_pcs; reflexivity).
  all: try (erewrite I3 by eassumption); cbn -[Nat.ltb].
  all: repeat match goal with
       | H : _ !! _ = Some _ |- _ => apply lookup_lt_Some in H
       | H : _ !! _ = None |- _ => apply lookup_ge_None in H
       end.
  all: repeat match goal with
       | |- context [?a <? ?b] => destruct (Nat.ltb_spec a b)
       end; try reflexivity; lia.
Qed.

Lemma exec_di_delete l s a s' :
  exec l s = Some (a, s') -> dtor_inv s ->
  forall i sl, slaves s' !! i = Some sl ->
    deleted_upto (owner s') i = true -> terminated (s_pc sl) = true.
Proof.
  intros H [IL I1 I2 I3 I4].
  step_cases H.
  all: expose; cbn -[Nat.ltb]; intros j sl' Hj Hd; lookups; cbn -[Nat.ltb];
       rewrite ?wake_terminated.
  all: try (eapply I4; eassumption).
  all: try discriminate Hd.
  all: try match goal with
       | Hl : slaves _ !! ?j = Some ?x, Hd : deleted_upto _ ?j = true |- _ =>
           pose proof (I4 _ _ Hl Hd) as Ht; rewrite_pcs; cbn in Ht;
           first [discriminate Ht | exact Ht]
       end.
  all: try (eapply I4; [eassumption | rewrite ?Hown; exact Hd]).
  all: try match goal with
       | Hl : slaves _ !! ?j = Some ?x, Hd : deleted_upto _ ?j = true |- _ =>
           rewrite Hown in Hd;
           pose proof (I4 _ _ Hl Hd) as Ht; rewrite_pcs; cbn in Ht;
           first [discriminate Ht | exact Ht]
       end.
  all: try (apply Nat.ltb_lt in Hd; lia).
  - apply Nat.ltb_lt in Hd. destruct (decide (j = i)) as [->|Hne].
    + rewrite Heqo in Hj. injection Hj as <-. exact Heqb.
    + eapply I4; [exact Hj|]. cbn -[Nat.ltb]. apply Nat.ltb_lt. lia.
  - eapply I4; [exact Hj|]. cbn -[Nat.ltb]. apply Nat.ltb_lt.
    apply lookup_lt_Some in Hj. apply lookup_ge_None in Heqo. lia.
Qed.

Lemma exec_dtor_inv l s a s' :
  exec l s = Some (a, s') -> dtor_inv s -> dtor_inv s'.
Proof.
  intros H I. constructor.
  - eapply exec_lock_inv; [exact H | apply (di_locks _ I)].
  - eapply exec_di_last; eauto.
  - eapply exec_di_empty; eauto.
  - eapply exec_di_cancel; eauto.
  - eapply exec_di_delete; eauto.
Qed.

Lemma init_dtor_inv n np : dtor_inv (init n np).
Proof.
  constructor.
  - apply init_lock_inv.
  - intros t [H|H]; discriminate H.
  - intros [[k H]|H]; discriminate H.
  - intros i sl H. apply init_slave in H as ->. reflexivity.
  - intros i sl _ H. discriminate H.
Qed.

Lemma run_dtor_inv G ls tr s tr' s' :
  run G ls tr s = Some (tr', s') -> dtor_inv s -> dtor_inv s'.
Proof.
  apply (run_invariant G (fun _ s => dtor_inv s)). intros. eapply exec_dtor_inv; eauto.
Qed.

Lemma statements_snoc th tr th' a :
  statements th (tr ++ [(th', a)]) =
  statements th tr ++ (if decide (th' = th) then if is_statement a then [a] else [] else []).
Proof.
  unfold statements. rewrite proj_snoc, List.filter_app.
  destruct (decide (th' = th)); [|reflexivity].
  simpl. destruct (is_statement a); reflexivity.
Qed.

Lemma drain_done rounds t :
  concat (drain_round <$> (rounds ++ [t])) = concat (drain_round <$> rounds) ++ drain_round t.
Proof. rewrite fmap_app, concat_app. f_equal. Qed.

Lemma snoc_progress (c p p' : list action) a :
  p ++ [a] = p' -> (DCall :: c ++ p) ++ [a] = DCall :: c ++ p'.
Proof. intros <-. simpl. rewrite app_assoc. reflexivity. Qed.

Lemma exec_owner_inv tr s l a s' :
  owner_inv tr s -> exec l s = Some (a, s') -> owner_inv (tr ++ [(thread_of l, a)]) s'.
Proof.
  intros [[rounds I] B] H. unfold owner_inv. rewrite statements_snoc.
  step_cases H.
  all: expose; cbn -[seq]; rewrite ?length_insert, ?length_fmap, ?app_nil_r.
  all: try (split; [exists rounds; exact I | exact B]).
  all: rewrite_pcs; cbn -[seq] in *.
  all: try (split; [exists rounds; exact I | intros k [Hk|Hk]; discriminate Hk]).
  all: decide_threads; cbn [is_statement]; rewrite ?app_nil_r.
  all: try match goal with
       | H : slaves ?s0 !! ?i = None |- _ =>
           let E := fresh "E" in
           assert (length (slaves s0) = i) as E;
             [|rewrite ?E in *; clear E];
             [apply lookup_ge_None in H;
                 first [pose proof (B i (or_introl eq_refl))
                       | pose proof (B i (or_intror eq_refl))]; lia|]
       end.
  all: split;
       [| intros k [Hk|Hk]; simplify_eq;
          repeat match goal with
          | H : _ !! _ = Some _ |- _ => apply lookup_lt_Some in H
          end; try lia].
  all: try (exists rounds; rewrite I; apply snoc_progress;
            rewrite ?seq_S, ?fmap_app; cbn -[seq]; rewrite <- ?app_assoc;
            cbn -[seq]; rewrite <- ?app_assoc; reflexivity).
  all: try (exists rounds; exact I).
  all: try (apply B; auto; fail).
  - exists []. rewrite I. reflexivity.
  - exists (rounds ++ [t]). rewrite I, drain_done, app_nil_r.
    cbn. rewrite <- app_assoc. reflexivity.
Qed.

Lemma init_owner_inv n np : owner_inv [] (init n np).
Proof.
  split.
  - exists []. reflexivity.
  - intros k [H|H]; discriminate H.
Qed.

Lemma run_owner_inv G ls tr s tr' s' :
  run G ls tr s = Some (tr', s') -> owner_inv tr s -> owner_inv tr' s'.
Proof.
  apply (run_invariant G owner_inv). intros. eapply exec_owner_inv; eauto.
Qed.

(** A statement of the destructor changes no flag of any task, leaves the
    queue alone, and moves no slave, except that its broadcast wakes the
    slaves that wait for work. *)
Lemma owner_step_frame s a s' :
  exec LOwner s = Some (a, s') ->
  (forall t, mRunning (heap s' t) = mRunning (heap s t) /\
             mCompleted (heap s' t) = mCompleted (heap s t)) /\
  mTasks s' = mTasks s /\
  (forall i sl, slaves s !! i = Some sl ->
     exists sl', slaves s' !! i = Some sl' /\
       (s_pc sl' = s_pc sl \/ (s_pc sl = S_waiting /\ s_pc sl' = S_woken))).
Proof.
  intros H. step_split H.
  all: expose; cbn.
  all: split; [intros u; heapcase; cbn; auto|].
  all: split; [reflexivity|].
  all: intros j sl' Hj.
  all: try (exists sl'; split; [exact Hj | left; reflexivity]).
  - destruct (decide (i = j)) as [->|Hne].
    + rewrite list_lookup_insert_eq by (eapply lookup_lt_Some; eauto).
      eexists. split; [reflexivity|]. left. simpl. congruence.
    + rewrite list_lookup_insert_ne by exact Hne.
      exists sl'. split; [exact Hj | left; reflexivity].
  - rewrite list_lookup_fmap, Hj. simpl. eexists. split; [reflexivity|].
    unfold wake_slave. destruct (s_pc sl') eqn:E; simpl; rewrite ?E; auto.
Qed.

(** C8, amended.  In every run the destructor executes its statements in
    the order of the source: lock; for every turn of the loop test, last
    queued task, lock it, unlock the pool, wait on it, unlock it, lock the
    pool; then, the queue being empty, cancel every slave, broadcast,
    unlock, delete every slave.  The task it locks is the last of the queue
    and is locked while the pool is locked; it waits on it holding no
    mutex.  Cancel flags are set only in the loop of line 123, and from
    there to the broadcast the queue is empty: every task appended was
    dequeued.  No statement of the destructor changes a flag of a task or
    moves a slave, except to wake it.  The loop waits for the queue, not for
    completion; but the destructor returns only when every slave has
    terminated, so that every task a slave dequeued went through lines 75
    to 90 to the end, unless its [main()] raised. *)
Theorem destructor_drains (inSlaves np : nat) (ls : list label) (tr : trace) (s : state) :
  run unrestricted ls [] (init inSlaves np) = Some (tr, s) ->
  (exists rounds,
     statements Owner tr = owner_trace (length (slaves s)) (owner s) rounds) /\
  (forall t, owner s = D_tlock t \/ owner s = D_unlock t ->
     last (mTasks s) = Some t /\ p_mutex s = Some Owner) /\
  (forall t, owner s = D_waiting t ->
     p_mutex s <> Some Owner /\ t_mutex (heap s t) <> Some Owner) /\
  (forall i sl, slaves s !! i = Some sl -> mCancel sl = cancelled_upto (owner s) i) /\
  ((exists k, owner s = D_cancel k) \/ owner s = D_bcast ->
     mTasks s = [] /\ enqueued tr = dequeued tr /\ p_mutex s = Some Owner) /\
  (forall a s', exec LOwner s = Some (a, s') ->
     (forall t, mRunning (heap s' t) = mRunning (heap s t) /\
                mCompleted (heap s' t) = mCompleted (heap s t)) /\
     mTasks s' = mTasks s /\
     (forall i sl, slaves s !! i = Some sl ->
        exists sl', slaves s' !! i = Some sl' /\
          (s_pc sl' = s_pc sl \/ (s_pc sl = S_waiting /\ s_pc sl' = S_woken)))) /\
  (owner s = D_done ->
     forall i sl, slaves s !! i = Some sl ->
       handles (s_pc sl) = None /\
       exists done,
         handling i tr = concat (iteration <$> done) \/
         exists t, handling i tr
                   = concat (iteration <$> done) ++ take 6 (iteration t) ++ [SMain t false]).
Proof.
  intros Hr.
  pose proof (run_dtor_inv _ _ _ _ _ _ Hr (init_dtor_inv _ _)) as [IL I1 I2 I3 I4].
  pose proof (run_owner_inv _ _ _ _ _ _ Hr (init_owner_inv _ _)) as [Ho _].
  pose proof (run_fifo_inv _ _ _ _ _ _ Hr (init_fifo_inv _ _)) as Hf.
  pose proof (run_iter_inv _ _ _ _ _ _ Hr (init_iter_inv _ _)) as Hi.
  pose proof (li_owner_pool _ IL) as L3.
  pose proof (li_owner_task _ IL) as L6.
  split; [exact Ho|]. split.
  { intros t Ht. split; [apply I1; exact Ht|].
    apply L3. destruct Ht as [-> | ->]; reflexivity. }
  split.
  { intros t Ht. split.
    - intros H. apply L3 in H. rewrite Ht in H. discriminate.
    - intros H. apply L6 in H. rewrite Ht in H. discriminate. }
  split; [exact I3|]. split.
  { intros Hc. pose proof (I2 Hc) as Hq. split; [exact Hq|]. split.
    - unfold fifo_inv in Hf. rewrite Hq, app_nil_r in Hf. exact Hf.
    - apply L3. destruct Hc as [[k ->] | ->]; reflexivity. }
  split; [intros a s'; apply owner_step_frame|].
  intros Hd i sl Hsl.
  assert (terminated (s_pc sl) = true) as Ht.
  { eapply I4; [exact Hsl|]. rewrite Hd. reflexivity. }
  destruct (Hi _ _ Hsl) as [done Hh].
  destruct (s_pc sl) eqn:Hpc; try discriminate Ht.
  - split; [reflexivity|]. exists done. left. rewrite Hh. apply app_nil_r.
  - split; [reflexivity|]. exists done. right. exists t. exact Hh.
Qed.

(** C8, as stated, fails in its last part: the destructor never returns
    while a slave is anywhere between the dequeue of a task and the end of
    its completion. *)
Lemma destructor_awaits_completion :
  ~ (exists inSlaves np ls tr s i sl t k,
       run unrestricted ls [] (init inSlaves np) = Some (tr, s) /\
       owner s = D_done /\
       slaves s !! i = Some sl /\ handles (s_pc sl) = Some (t, k)).
Proof.
  intros (n & np & ls & tr & s & i & sl & t & k & Hr & Hd & Hsl & Hh).
  pose proof (run_dtor_inv _ _ _ _ _ _ Hr (init_dtor_inv _ _)) as [_ _ _ _ I4].
  assert (terminated (s_pc sl) = true) as Ht.
  { eapply I4; [exact Hsl|]. rewrite Hd. reflexivity. }
  destruct (s_pc sl); try discriminate Ht; discriminate Hh.
Qed.

Lemma destructor_drains_witness :
  (exists tr s,
     run unrestricted destroy_while_running [] (init 1 1) = Some (tr, s) /\
     owner s = D_delete 0 /\ slaves s !! 0 = Some (mkSlave true (S_main 0)) /\
     mCompleted (heap s 0) = false /\ exec LOwner s = None) /\
  (exists tr s,
     run unrestricted destroy_and_join [] (init 1 1) = Some (tr, s) /\
     owner s = D_done /\ mCompleted (heap s 0) = true /\
     statements Owner tr = owner_trace 1 D_done [0] /\
     exists done,
       handling 0 tr = concat (iteration <$> done) \/
       exists t, handling 0 tr
                 = concat (iteration <$> done) ++ take 6 (iteration t) ++ [SMain t false]).
Proof.
  split.
  - eexists _, _. split; [vm_compute; reflexivity|]. repeat split.
  - eexists _, _. split; [vm_compute; reflexivity|].
    split; [reflexivity|]. split; [reflexivity|]. split; [reflexivity|].
    pose proof (destructor_drains 1 1 destroy_and_join _ _
                  ltac:(vm_compute; reflexivity)) as H.
    destruct H as (_ & _ & _ & _ & _ & _ & Hj).
    exact (proj2 (Hj eq_refl 0 (mkSlave true S_exit) eq_refl)).
Defined.

(** *** The flags of a task *)

Lemma count_cons {A} (f : A -> bool) x l :
  count f (x :: l) = (if f x then 1 else 0) + count f l.
Proof. unfold count. simpl. destruct (f x); reflexivity. Qed.

Lemma count_app {A} (f : A -> bool) l1 l2 :
  count f (l1 ++ l2) = count f l1 + count f l2.
Proof. unfold count. rewrite List.filter_app, length_app. reflexivity. Qed.

Lemma count_insert {A} (f : A -> bool) (l : list A) i x y :
  l !! i = Some x ->
  count f (<[i:=y]> l) + (if f x then 1 else 0) = count f l + (if f y then 1 else 0).
Proof.
  revert i. induction l as [|z l IH]; intros i H; [destruct i; discriminate|].
  destruct i as [|i]; simpl in *.
  - injection H as ->. rewrite !count_cons. lia.
  - rewrite !count_cons. specialize (IH _ H). lia.
Qed.

Lemma count_fmap {A} (f : A -> bool) (g : A -> A) (l : list A) :
  (forall x, f (g x) = f x) -> count f (g <$> l) = count f l.
Proof.
  intros Hg. induction l as [|z l IH]; [reflexivity|].
  rewrite fmap_cons, !count_cons, Hg, IH. reflexivity.
Qed.

Lemma count_lookup {A} (f : A -> bool) (l : list A) i x :
  l !! i = Some x -> f x = true -> 1 <= count f l.
Proof.
  revert i. induction l as [|z l IH]; intros i H Hf; [destruct i; discriminate|].
  rewrite count_cons. destruct i as [|i]; simpl in *.
  - injection H as ->. rewrite Hf. lia.
  - specialize (IH _ H Hf). lia.
Qed.

Lemma count_lookup2 {A} (f : A -> bool) (l : list A) i j x y :
  i <> j -> l !! i = Some x -> l !! j = Some y -> f x = true -> f y = true ->
  2 <= count f l.
Proof.
  revert i j. induction l as [|z l IH]; intros i j Hne Hi Hj Hx Hy;
    [destruct i; discriminate|].
  rewrite count_cons. destruct i as [|i], j as [|j]; simpl in *.
  - congruence.
  - injection Hi as ->. rewrite Hx. pose proof (count_lookup f l j y Hj Hy). lia.
  - injection Hj as ->. rewrite Hy. pose proof (count_lookup f l i x Hi Hx). lia.
  - assert (i <> j) by congruence. specialize (IH i j H Hi Hj Hx Hy). lia.
Qed.

Lemma count_In (l : list task_ptr) t : In t l -> 1 <= count (Nat.eqb t) l.
Proof.
  induction l as [|z l IH]; intros H; [contradiction|].
  rewrite count_cons. destruct H as [->|H].
  - rewrite Nat.eqb_refl. lia.
  - specialize (IH H). lia.
Qed.

Lemma wake_claims t sl : claims_slave (s_pc (wake_slave sl)) t = claims_slave (s_pc sl) t.
Proof. unfold wake_slave. destruct (s_pc sl) eqn:E; simpl; rewrite ?E; reflexivity. Qed.

Lemma exec_fi_refs l s a s' :
  contract s l = true -> exec l s = Some (a, s') -> (forall t, refs s t <= 1) ->
  forall t, refs s' t <= 1.
Proof.
  intros G H I u. specialize (I u). revert I.
  unfold refs.
  step_cases H.
  all: expose; cbn [mTasks producers slaves set_mTasks set_p_mutex set_slaves set_heap
                    set_producers set_owner].
  all: rewrite ?(count_fmap _ wake_slave) by (intros; apply wake_claims).
  all: repeat match goal with
       | Hl : ?l !! ?i = Some ?x |- context [count ?f (<[?i := ?y]> ?l)] =>
           let E := fresh "E" in
           pose proof (count_insert f l i x y Hl) as E; cbn beta in E;
           revert E; generalize (count f (<[i := y]> l)); intros ? E
       end.
  all: rewrite ?count_cons, ?count_app, ?count_cons.
  all: rewrite_pcs.
  all: unfold claims_slave, claims_producer in *; cbn in *.
  all: repeat match goal with
       | H : context [Nat.eqb ?a ?b] |- _ => destruct (Nat.eqb_spec a b); subst; cbn in H
       | |- context [Nat.eqb ?a ?b] => destruct (Nat.eqb_spec a b); subst; cbn
       end.
  all: try lia.
  unfold refs, claims_slave, claims_producer in e. lia.
Qed.

(** Two references to one task contradict [refs s t <= 1]. *)
Lemma excl_slave_queue s t i sl :
  refs s t <= 1 -> slaves s !! i = Some sl -> claims_slave (s_pc sl) t = true ->
  In t (mTasks s) -> False.
Proof.
  unfold refs. intros H Hi Hc Hq.
  pose proof (count_lookup (fun sl => claims_slave (s_pc sl) t) _ _ _ Hi Hc).
  pose proof (count_In _ _ Hq). lia.
Qed.

Lemma excl_slave_slave s t i j sl sl' :
  refs s t <= 1 -> i <> j -> slaves s !! i = Some sl -> slaves s !! j = Some sl' ->
  claims_slave (s_pc sl) t = true -> claims_slave (s_pc sl') t = true -> False.
Proof.
  unfold refs. intros H Hne Hi Hj Hc Hc'.
  pose proof (count_lookup2 (fun sl => claims_slave (s_pc sl) t) _ _ _ _ _ Hne Hi Hj Hc Hc').
  lia.
Qed.

Lemma excl_slave_producer s t i sl p pc :
  refs s t <= 1 -> slaves s !! i = Some sl -> claims_slave (s_pc sl) t = true ->
  producers s !! p = Some pc -> claims_producer pc t = true -> False.
Proof.
  unfold refs. intros H Hi Hc Hp Hc'.
  pose proof (count_lookup (fun sl => claims_slave (s_pc sl) t) _ _ _ Hi Hc).
  pose proof (count_lookup (fun pc => claims_producer pc t) _ _ _ Hp Hc'). lia.
Qed.

Lemma excl_producer_queue s t p pc :
  refs s t <= 1 -> producers s !! p = Some pc -> claims_producer pc t = true ->
  In t (mTasks s) -> False.
Proof.
  unfold refs. intros H Hp Hc Hq.
  pose proof (count_lookup (fun pc => claims_producer pc t) _ _ _ Hp Hc).
  pose proof (count_In _ _ Hq). lia.
Qed.

Lemma exec_fi_queue l s a s' :
  exec l s = Some (a, s') -> flags_inv s ->
  forall t, In t (mTasks s') ->
    mRunning (heap s' t) = false /\ mCompleted (heap s' t) = false.
Proof.
  intros H [I1 I2 I3 I4 I5].
  step_cases H.
  all: expose; cbn; intros u Hu; heapcase; cbn.
  all: try (apply I2; assumption).
  all: try (split; reflexivity).
  all: try (apply I2; right; assumption).
  all: try (exfalso; eapply (excl_slave_queue s);
            [apply I1 | exact Hsl
            | rewrite Hspc; cbn; rewrite Nat.eqb_refl; reflexivity | assumption]).
  apply in_app_or in Hu as [Hu | [<- | []]].
  - apply I2. exact Hu.
  - apply (I3 p). right. exact Hpc.
Qed.

Ltac lookups_eq :=
  repeat match goal with
  | H : <[_ := _]> _ !! _ = Some _ |- _ =>
      apply list_lookup_insert_Some in H as [(? & ? & _) | (? & H)]
  end;
  simplify_eq.

Ltac slave_claims Hspc := rewrite Hspc; cbn; rewrite Nat.eqb_refl; reflexivity.

Lemma exec_fi_producer l s a s' :
  exec l s = Some (a, s') -> flags_inv s ->
  forall p t,
    producers s' !! p = Some (P_lock t) \/ producers s' !! p = Some (P_push t) ->
    mRunning (heap s' t) = false /\ mCompleted (heap s' t) = false.
Proof.
  intros H [I1 I2 I3 I4 I5].
  step_cases H.
  all: expose; cbn; intros q u Hu; heapcase; cbn.
  all: try (eapply I3; eassumption).
  all: try (split; reflexivity).
  all: try (exfalso; destruct Hu as [Hu|Hu];
            (eapply (excl_slave_producer s);
             [apply I1 | exact Hsl | slave_claims Hspc | exact Hu
             | cbn; rewrite Nat.eqb_refl; reflexivity])).
  all: destruct Hu as [Hu|Hu]; lookups_eq; try congruence.
  all: eapply I3; eauto.
Qed.

Lemma exec_fi_excl l s a s' :
  exec l s = Some (a, s') -> flags_inv s ->
  forall t, mRunning (heap s' t) && mCompleted (heap s' t) = false.
Proof.
  intros H [I1 I2 I3 I4 I5].
  step_cases H.
  all: expose; cbn; intros u; heapcase; cbn.
  all: try (apply I5).
  all: try reflexivity.
  all: match goal with
       | |- context [heap _ ?t] =>
           destruct (fun k Hh Hk => I4 _ _ t k Hsl Hh Hk) with (k := 3) as [Hr Hc];
           [rewrite Hspc; reflexivity | lia | rewrite ?Hr, ?Hc; reflexivity]
       | |- context [heap _ ?t] =>
           destruct (fun k Hh Hk => I4 _ _ t k Hsl Hh Hk) with (k := 9) as [Hr Hc];
           [rewrite Hspc; reflexivity | lia | rewrite ?Hr, ?Hc; reflexivity]
       end.
Qed.

Lemma exec_fi_slave l s a s' :
  exec l s = Some (a, s') -> flags_inv s ->
  forall i sl t k,
    slaves s' !! i = Some sl -> handles (s_pc sl) = Some (t, k) -> k <= 9 ->
    mRunning (heap s' t) = running_at k /\ mCompleted (heap s' t) = false.
Proof.
  intros H [I1 I2 I3 I4 I5].
  step_cases H.
  all: expose; cbn; intros j sl' u k Hj Hh Hk; lookups_eq; heapcase; cbn in *.
  all: try (eapply I4; eassumption).
  all: try discriminate Hh.
  all: simplify_eq.
  all: try (apply I2; left; reflexivity).
  all: try (edestruct I4 as [Hr Hc];
            [exact Hsl | rewrite Hspc; reflexivity | lia |];
            rewrite ?Hr, ?Hc; split; reflexivity).
  all: try lia.
  all: try (exfalso; eapply (excl_slave_slave s);
            [apply I1 | eassumption | exact Hsl | exact Hj | slave_claims Hspc
            | unfold claims_slave; rewrite Hh, Nat.eqb_refl; apply Nat.leb_le; exact Hk]).
  all: try (exfalso; eapply (excl_slave_producer s);
            [apply I1 | exact Hj
            | unfold claims_slave; rewrite Hh, Nat.eqb_refl; apply Nat.leb_le; exact Hk
            | exact Hpc | cbn; rewrite Nat.eqb_refl; reflexivity]).
  rewrite list_lookup_fmap in Hj. apply fmap_Some in Hj as (x & Hj & ->).
  eapply I4; [exact Hj | | exact Hk].
  rewrite <- Hh. unfold wake_slave. destruct (s_pc x) eqn:E; simpl; rewrite ?E; reflexivity.
Qed.

Lemma exec_flags_inv l s a s' :
  contract s l = true -> exec l s = Some (a, s') -> flags_inv s -> flags_inv s'.
Proof.
  intros G H I. constructor.
  - eapply exec_fi_refs; [exact G | exact H | apply (fi_refs _ I)].
  - eapply exec_fi_queue; eauto.
  - eapply exec_fi_producer; eauto.
  - eapply exec_fi_slave; eauto.
  - eapply exec_fi_excl; eauto.
Qed.

Lemma count_none {A} (f : A -> bool) (l : list A) :
  (forall i x, l !! i = Some x -> f x = false) -> count f l = 0.
Proof.
  induction l as [|z l IH]; intros H; [reflexivity|].
  rewrite count_cons, (H 0 z eq_refl), IH; [reflexivity|].
  intros i x Hi. apply (H (S i)). exact Hi.
Qed.

Lemma init_flags_inv n np : flags_inv (init n np).
Proof.
  constructor.
  - intros t. unfold refs.
    rewrite (count_none (fun pc => claims_producer pc t)),
            (count_none (fun sl => claims_slave (s_pc sl) t)).
    + simpl. lia.
    + intros i x H. apply init_slave in H as ->. reflexivity.
    + intros i x H. apply init_producer in H as ->. reflexivity.
  - intros t [].
  - intros p t [H|H]; apply init_producer in H; discriminate.
  - intros i sl t k H Hh. apply init_slave in H as ->. discriminate.
  - intros t. reflexivity.
Qed.

Lemma run_flags_inv ls tr s tr' s' :
  run contract ls tr s = Some (tr', s') -> flags_inv s -> flags_inv s'.
Proof.
  apply (run_invariant contract (fun _ s => flags_inv s)).
  intros. eapply exec_flags_inv; eauto.
Qed.

(** C9, amended.  When [push] is called with a task only while the pool
    does not refer to it (it is not queued, no other call of [push] is about
    to append it, no slave is between its dequeue and its completion), in
    every run no task is running and completed at once: a task reset by
    [push] and a queued task have both flags false, a slave sets
    running = true (line 80) only with completed false, running is true and completed false from there to line
    87, and line 88 sets completed = true with running false. *)
Theorem running_excludes_completed (inSlaves np : nat) (ls : list label) (tr : trace)
    (s : state) :
  run contract ls [] (init inSlaves np) = Some (tr, s) ->
  (forall t, ~ (mRunning (heap s t) = true /\ mCompleted (heap s t) = true)) /\
  (forall p t,
     producers s !! p = Some (P_lock t) \/ producers s !! p = Some (P_push t) ->
     mRunning (heap s t) = false /\ mCompleted (heap s t) = false) /\
  (forall t, In t (mTasks s) ->
     mRunning (heap s t) = false /\ mCompleted (heap s t) = false) /\
  (forall i sl t, slaves s !! i = Some sl -> s_pc sl = S_set_running t ->
     mRunning (heap s t) = false /\ mCompleted (heap s t) = false) /\
  (forall i sl t, slaves s !! i = Some sl -> s_pc sl = S_set_completed t ->
     mRunning (heap s t) = false /\ mCompleted (heap s t) = false) /\
  (forall i sl t k, slaves s !! i = Some sl -> handles (s_pc sl) = Some (t, k) ->
     4 <= k <= 8 ->
     mRunning (heap s t) = true /\ mCompleted (heap s t) = false).
Proof.
  intros Hr.
  pose proof (run_flags_inv _ _ _ _ _ Hr (init_flags_inv _ _)) as [I1 I2 I3 I4 I5].
  split.
  { intros t [Hrun Hc]. specialize (I5 t). rewrite Hrun, Hc in I5. discriminate. }
  split; [exact I3|]. split; [exact I2|]. split.
  { intros i sl t Hsl Hpc. apply (I4 i sl t 3 Hsl); [rewrite Hpc; reflexivity | lia]. }
  split.
  { intros i sl t Hsl Hpc. apply (I4 i sl t 9 Hsl); [rewrite Hpc; reflexivity | lia]. }
  intros i sl t k Hsl Hh Hk.
  destruct (I4 i sl t k Hsl Hh ltac:(lia)) as [Hrun Hc].
  split; [|exact Hc]. rewrite Hrun. unfold running_at.
  apply andb_true_intro. split; apply Nat.leb_le; lia.
Qed.

(** C9, as stated, fails: when the same task is pushed twice in a row,
    the second execution sets running = true while completed is still true
    from the first. *)
Lemma double_push_running_and_completed :
  exists tr s,
    run unrestricted double_push [] (init 1 1) = Some (tr, s) /\
    called tr = [0; 0] /\ dequeued tr = [0; 0] /\
    mRunning (heap s 0) = true /\ mCompleted (heap s 0) = true.
Proof.
  eexists _, _. split; [vm_compute; reflexivity|]. repeat split.
Qed.

Lemma running_excludes_completed_witness :
  exists tr s,
    run contract push_again [] (init 1 1) = Some (tr, s) /\
    called tr = [0; 0] /\ dequeued tr = [0; 0] /\
    slaves s !! 0 = Some (mkSlave false (S_bcast1 0)) /\
    mRunning (heap s 0) = true /\ mCompleted (heap s 0) = false.
Proof.
  eexists _, _. split; [vm_compute; reflexivity|].
  split; [reflexivity|]. split; [reflexivity|]. split; [reflexivity|].
  pose proof (running_excludes_completed 1 1 push_again _ _
                ltac:(vm_compute; reflexivity)) as (_ & _ & _ & _ & _ & H).
  apply (H 0 (mkSlave false (S_bcast1 0)) 0 4 eq_refl eq_refl). lia.
Defined.

(** *** Mutual exclusion *)

Lemma in_pool_section_holder s th :
  lock_inv s -> in_pool_section s th = true -> p_mutex s = Some th.
Proof.
  intros [L1 L2 L3 _ _ _] H. destruct th as [i|p|]; simpl in H.
  - destruct (slaves s !! i) as [sl|] eqn:E; [|discriminate]. eapply L1; eauto.
  - destruct (producers s !! p) as [pc|] eqn:E; [|discriminate]. eapply L2; eauto.
  - apply L3. exact H.
Qed.

Lemma in_task_section_holder s th t :
  lock_inv s -> in_task_section s th t = true -> t_mutex (heap s t) = Some th.
Proof.
  intros [_ _ _ L4 _ L6] H. destruct th as [i|p|]; simpl in H.
  - destruct (slaves s !! i) as [sl|] eqn:E; [|discriminate]. eapply L4; eauto.
  - discriminate.
  - apply L6. exact H.
Qed.

(** A statement that changes the queue is executed inside the pool's
    section; a statement that changes a flag of a task is executed inside
    the task's section or is the [reset()] of [push]. *)
Lemma exec_writes l s a s' :
  exec l s = Some (a, s') ->
  (mTasks s' <> mTasks s -> in_pool_section s (thread_of l) = true) /\
  (forall t,
     mRunning (heap s' t) <> mRunning (heap s t) \/
     mCompleted (heap s' t) <> mCompleted (heap s t) ->
     in_task_section s (thread_of l) t = true \/ a = PReset t).
Proof.
  intros H. step_cases H.
  all: expose; cbn; (split; [intros Hq | intros u Hf]).
  all: try congruence.
  all: try (rewrite ?Hsl, ?Hpc; cbn; rewrite_pcs; reflexivity).
  all: try (destruct Hf as [Hf|Hf]; congruence).
  all: unfold upd in Hf;
       repeat match type of Hf with
       | context [Nat.eqb ?x ?y] => destruct (Nat.eqb_spec x y); subst
       end; cbn in Hf.
  all: try (destruct Hf as [Hf|Hf]; congruence).
  all: try (left; rewrite ?Hsl; cbn; rewrite_pcs; cbn; apply Nat.eqb_refl).
  all: right; reflexivity.
Qed.

(** X4.  The two mutexes exclude: in every run at most one thread is
    inside a section of the pool's mutex, and at most one inside a section
    of a task's mutex; a thread inside a section is the holder of the
    mutex.  The queue is changed only from inside the pool's section.  The
    flags of a task are changed only from inside the task's section, with
    one exception: [push] resets them (line 138) without the task's mutex,
    and never takes that mutex. *)
Theorem mutual_exclusion (inSlaves np : nat) (ls : list label) (tr : trace) (s : state) :
  run unrestricted ls [] (init inSlaves np) = Some (tr, s) ->
  (forall th1 th2,
     in_pool_section s th1 = true -> in_pool_section s th2 = true -> th1 = th2) /\
  (forall t th1 th2,
     in_task_section s th1 t = true -> in_task_section s th2 t = true -> th1 = th2) /\
  (forall th, in_pool_section s th = true -> p_mutex s = Some th) /\
  (forall th t, in_task_section s th t = true -> t_mutex (heap s t) = Some th) /\
  (forall p t, t_mutex (heap s t) <> Some (Producer p)) /\
  (forall l a s', exec l s = Some (a, s') ->
     (mTasks s' <> mTasks s -> p_mutex s = Some (thread_of l)) /\
     (forall t,
        mRunning (heap s' t) <> mRunning (heap s t) \/
        mCompleted (heap s' t) <> mCompleted (heap s t) ->
        t_mutex (heap s t) = Some (thread_of l) \/ a = PReset t)).
Proof.
  intros Hr.
  pose proof (run_lock_inv _ _ _ _ _ _ Hr (init_lock_inv _ _)) as Hl.
  split.
  { intros th1 th2 H1 H2.
    apply (in_pool_section_holder _ _ Hl) in H1, H2. congruence. }
  split.
  { intros t th1 th2 H1 H2.
    apply (in_task_section_holder _ _ _ Hl) in H1, H2. congruence. }
  split; [intros th; apply in_pool_section_holder; exact Hl|].
  split; [intros th t; apply in_task_section_holder; exact Hl|].
  split; [intros p t; apply (li_producer_task _ Hl)|].
  intros l a s' He. destruct (exec_writes _ _ _ _ He) as [Hq Hf]. split.
  - intros H. apply in_pool_section_holder; auto.
  - intros t H. destruct (Hf t H) as [H'|H']; [left|right; exact H'].
    apply in_task_section_holder; auto.
Qed.

Lemma mutual_exclusion_witness :
  exists tr s,
    run unrestricted before_append [] (init 2 1) = Some (tr, s) /\
    in_pool_section s (Producer 0) = true /\
    p_mutex s = Some (Producer 0) /\
    in_pool_section s (Slave 0) = false /\
    exists s', exec (LProducer 0 None) s = Some (PEnqueue 0, s') /\
               mTasks s' = [0] /\ mTasks s' <> mTasks s.
Proof.
  eexists _, _. split; [vm_compute; reflexivity|].
  pose proof (mutual_exclusion 2 1 before_append _ _ ltac:(vm_compute; reflexivity))
    as (Hx & _ & Hh & _).
  split; [reflexivity|]. split; [exact (Hh (Producer 0) eq_refl)|].
  split.
  - match goal with |- ?b = false => destruct b eqn:E; [|reflexivity] end.
    discriminate (Hx (Slave 0) (Producer 0) E eq_refl).
  - eexists. split; [vm_compute; reflexivity|]. split; [reflexivity | discriminate].
Defined.

(** *** Access to the queue *)

Lemma pool_section_unique s th1 th2 :
  lock_inv s -> in_pool_section s th1 = true -> in_pool_section s th2 = true -> th1 = th2.
Proof.
  intros Hl H1 H2. apply (in_pool_section_holder _ _ Hl) in H1, H2. congruence.
Qed.

Lemma task_section_unique s t th1 th2 :
  lock_inv s -> in_task_section s th1 t = true -> in_task_section s th2 t = true ->
  th1 = th2.
Proof.
  intros Hl H1 H2. apply (in_task_section_holder _ _ _ Hl) in H1, H2. congruence.
Qed.

Ltac in_section :=
  cbn;
  repeat match goal with
  | H : slaves ?s !! ?i = Some _ |- context [slaves ?s !! ?i] => rewrite H
  | H : producers ?s !! ?i = Some _ |- context [producers ?s !! ?i] => rewrite H
  end;
  cbn; rewrite_pcs; cbn; rewrite ?Nat.eqb_refl; reflexivity.

(** Two threads found inside the pool's section at once. *)
Ltac section_conflict Hl :=
  exfalso;
  match goal with
  | Hi : slaves ?s !! ?i = Some _, Hj : slaves ?s !! ?j = Some _, Hne : ?i <> ?j |- _ =>
      assert (Slave i = Slave j)
        by (apply (pool_section_unique s _ _ Hl); in_section); congruence
  | Hi : slaves ?s !! ?i = Some _, Hj : slaves ?s !! ?j = Some _, Hne : ?j <> ?i |- _ =>
      assert (Slave i = Slave j)
        by (apply (pool_section_unique s _ _ Hl); in_section); congruence
  | Hi : slaves ?s !! ?i = Some _, Hp : producers ?s !! ?p = Some _ |- _ =>
      assert (Slave i = Producer p)
        by (apply (pool_section_unique s _ _ Hl); in_section); congruence
  | Hi : slaves ?s !! ?i = Some _ |- _ =>
      assert (Slave i = Owner)
        by (apply (pool_section_unique s _ _ Hl); in_section); congruence
  | Hp : producers ?s !! ?p = Some _ |- _ =>
      assert (Producer p = Owner)
        by (apply (pool_section_unique s _ _ Hl); in_section); congruence
  end.

Lemma snoc_nonempty {A} (l : list A) x : l ++ [x] <> [].
Proof. destruct l; discriminate. Qed.

Lemma exec_access_inv l s a s' :
  exec l s = Some (a, s') -> lock_inv s -> access_inv s -> access_inv s'.
Proof.
  intros H Hl [I1 I2 I3].
  step_cases H.
  all: expose.
  all: constructor; cbn; intros; lookups; cbn in *; rewrite ?wake_cancel.
  all: try discriminate.
  all: try (apply snoc_nonempty).
  all: try (right; apply snoc_nonempty).
  all: try (eapply I1; eassumption).
  all: try (eapply I2; eassumption).
  all: try (apply I3; congruence).
  all: try (left; reflexivity).
  all: try match goal with | H : is_empty ?q = _ |- _ => destruct q; cbn in *; try discriminate end.
  all: try (right; discriminate).
  all: try discriminate.
  all: try (destruct (I1 _ _ Hsl Hspc) as [?|?]; [congruence|assumption]).
  all: try (section_conflict Hl).
  all: try match goal with
       | H : s_pc (wake_slave ?x) = _ |- _ =>
           unfold wake_slave in H; destruct (s_pc x) eqn:?; cbn in H; try congruence
       end.
  all: try (eapply I1; eassumption).
  all: try (eapply I2; eassumption).
  - destruct (mTasks s); [|right; discriminate].
    destruct (mCancel sl); [left; reflexivity | discriminate].
  - destruct (mTasks s); discriminate.
Qed.

(** *** What holds a thread up *)

Lemma is_Some_None_false {A} (b : bool) : b = false -> (is_Some (@None A) <-> b = true).
Proof. intros ->. split; [intros [x H]; discriminate | discriminate]. Qed.

Lemma is_Some_Some_true {A} (x : A) (b : bool) : b = true -> (is_Some (Some x) <-> b = true).
Proof. intros ->. split; [reflexivity | eauto]. Qed.

Lemma exec_needs s th :
  lock_inv s -> access_inv s ->
  is_Some (exec (next th) s) <-> satisfied s (needs s th) = true.
Proof.
  intros [L1 L2 L3 L4 L5 L6] [A1 A2 A3].
  destruct th as [i|p|]; cbn.
  - unfold slave_step. destruct (slaves s !! i) as [sl|] eqn:Hsl; cbn;
      [|apply is_Some_None_false; reflexivity].
    pose proof (proj2 (L1 _ _ Hsl)) as Hp.
    pose proof (fun t => proj2 (L4 t _ _ Hsl)) as Ht.
    pose proof (A2 _ _ Hsl) as Hq.
    destruct (s_pc sl) eqn:Hpc; cbn in *.
    all: rewrite ?(Hp eq_refl); cbn.
    all: try rewrite (Ht t (Nat.eqb_refl t)); cbn.
    all: rewrite ?decide_True by reflexivity; cbn.
    all: repeat match goal with
         | |- context [if ?b then _ else _] => destruct b
         end; cbn.
    all: try (apply is_Some_Some_true; reflexivity).
    all: try (apply is_Some_None_false; reflexivity).
    all: try (destruct (p_mutex s); cbn;
              [apply is_Some_None_false | apply is_Some_Some_true]; reflexivity).
    all: try (destruct (t_mutex (heap s t)); cbn;
              [apply is_Some_None_false | apply is_Some_Some_true]; reflexivity).
    destruct (mTasks s); [exfalso; apply Hq; reflexivity|].
    apply is_Some_Some_true; reflexivity.
  - unfold push_step. destruct (producers s !! p) as [pc|] eqn:Hpc; cbn;
      [|apply is_Some_None_false; reflexivity].
    pose proof (proj2 (L2 _ _ Hpc)) as Hp.
    destruct pc; cbn in *.
    all: rewrite ?(Hp eq_refl); cbn.
    all: rewrite ?decide_True by reflexivity; cbn.
    all: try (apply is_Some_Some_true; reflexivity).
    all: try (apply is_Some_None_false; reflexivity).
    destruct (p_mutex s); cbn;
      [apply is_Some_None_false | apply is_Some_Some_true]; reflexivity.
  - unfold destroy_step.
    pose proof (proj2 L3) as Hp.
    pose proof (fun t => proj2 (L6 t)) as Ht.
    destruct (owner s) eqn:Hpc; cbn in *.
    all: rewrite ?(Hp eq_refl); cbn.
    all: try rewrite (Ht t (Nat.eqb_refl t)); cbn.
    all: rewrite ?decide_True by reflexivity; cbn.
    all: repeat match goal with
         | |- context [if ?b then _ else _] => destruct b
         end; cbn.
    all: try (apply is_Some_Some_true; reflexivity).
    all: try (apply is_Some_None_false; reflexivity).
    all: try (destruct (p_mutex s); cbn;
              [apply is_Some_None_false | apply is_Some_Some_true]; reflexivity).
    all: try (destruct (t_mutex (heap s t)); cbn;
              [apply is_Some_None_false | apply is_Some_Some_true]; reflexivity).
    all: try (destruct (slaves s !! i) as [sl|]; cbn; [destruct (terminated (s_pc sl))|];
              cbn; [apply is_Some_Some_true | apply is_Some_None_false
                   | apply is_Some_Some_true]; reflexivity).
    all: try (destruct (slaves s !! i); apply is_Some_Some_true; reflexivity).
    destruct (mTasks s) eqn:E; [exfalso; apply A3; reflexivity|].
    destruct (last (t :: l)) eqn:El; cbn; [apply is_Some_Some_true; reflexivity|].
    apply last_None in El. discriminate.
Qed.

Lemma exec_holder_inv l s a s' :
  exec l s = Some (a, s') -> holder_inv s -> holder_inv s'.
Proof.
  intros H I.
  assert (Ip : forall th, p_mutex s = Some th -> alive s th) by (apply (I PoolMutex)).
  assert (It : forall t th, t_mutex (heap s t) = Some th -> alive s th)
    by (intros t; apply (I (TaskMutex t))).
  clear I.
  step_cases H.
  all: expose.
  all: intros [|u] th; cbn; intros Hm.
  all: repeat match goal with
       | H : slaves _ !! _ = Some _ |- _ => apply lookup_lt_Some in H
       | H : producers _ !! _ = Some _ |- _ => apply lookup_lt_Some in H
       end.
  all: try discriminate Hm.
  all: try (unfold upd in Hm;
            match type of Hm with
            | context [Nat.eqb ?x ?y] => destruct (Nat.eqb_spec x y); subst
            end; cbn in Hm).
  all: try discriminate Hm.
  all: try (injection Hm as <-).
  all: try (apply Ip in Hm); try (apply It in Hm).
  all: try match goal with |- alive _ ?th => is_var th; destruct th end;
       cbn in *; rewrite ?length_insert, ?length_fmap; auto.
Qed.

Lemma init_holder_inv n np : holder_inv (init n np).
Proof. intros [|t] th H; discriminate H. Qed.

Lemma run_holder_inv G ls tr s tr' s' :
  run G ls tr s = Some (tr', s') -> holder_inv s -> holder_inv s'.
Proof.
  apply (run_invariant G (fun _ s => holder_inv s)). intros. eapply exec_holder_inv; eauto.
Qed.

Lemma init_access_inv n np : access_inv (init n np).
Proof.
  constructor.
  - intros i sl H Hpc. apply init_slave in H as ->. discriminate.
  - intros i sl H Hpc. apply init_slave in H as ->. discriminate.
  - discriminate.
Qed.

Lemma run_access_inv G ls tr s tr' s' :
  run G ls tr s = Some (tr', s') -> lock_inv s -> access_inv s ->
  lock_inv s' /\ access_inv s'.
Proof.
  intros Hr Hl Ha.
  eapply (run_invariant G (fun _ s => lock_inv s /\ access_inv s));
    [| exact Hr | split; assumption].
  intros ? ? ? ? ? [? ?] _ He. split.
  - eapply exec_lock_inv; eauto.
  - eapply exec_access_inv; eauto.
Qed.

(** The holder of a mutex is inside one of its sections. *)
Lemma holder_in_pool_section s th :
  lock_inv s -> holder_inv s -> p_mutex s = Some th -> in_pool_section s th = true.
Proof.
  intros [L1 L2 L3 _ _ _] I H. pose proof (I PoolMutex _ H) as Ha.
  destruct th as [i|p|]; cbn in *.
  - apply lookup_lt_is_Some_2 in Ha as [sl Hsl]. rewrite Hsl. cbn. eapply L1; eauto.
  - apply lookup_lt_is_Some_2 in Ha as [pc Hpc]. rewrite Hpc. cbn. eapply L2; eauto.
  - apply L3. exact H.
Qed.

Lemma holder_in_task_section s th t :
  lock_inv s -> holder_inv s -> t_mutex (heap s t) = Some th ->
  in_task_section s th t = true.
Proof.
  intros [_ _ _ L4 L5 L6] I H. pose proof (I (TaskMutex t) _ H) as Ha.
  destruct th as [i|p|]; cbn in *.
  - apply lookup_lt_is_Some_2 in Ha as [sl Hsl]. rewrite Hsl. cbn. eapply L4; eauto.
  - exfalso. eapply L5; eauto.
  - apply L6. exact H.
Qed.

(** A thread inside a section of a task's mutex can execute its next
    statement. *)
Lemma task_section_needs s th t :
  in_task_section s th t = true -> needs s th = Nothing.
Proof.
  destruct th as [i|p|]; cbn; [| discriminate |].
  - destruct (slaves s !! i) as [sl|]; cbn; [|discriminate].
    destruct (s_pc sl); cbn; try discriminate; reflexivity.
  - destruct (owner s); cbn; try discriminate; reflexivity.
Qed.

(** A thread inside a section of the pool's mutex can execute its next
    statement, unless it is the destructor at line 116. *)
Lemma pool_section_needs s th :
  in_pool_section s th = true ->
  needs s th = Nothing \/ exists t, th = Owner /\ owner s = D_tlock t.
Proof.
  destruct th as [i|p|]; cbn.
  - destruct (slaves s !! i) as [sl|]; cbn; [|discriminate].
    destruct (s_pc sl); cbn; try discriminate; auto.
  - destruct (producers s !! p) as [pc|]; cbn; [|discriminate].
    destruct pc; cbn; try discriminate; auto.
  - destruct (owner s); cbn; try discriminate; eauto.
Qed.

(** X5.  The queue is never read when it is empty: in every run a slave
    comes to [front()] and [pop()] (lines 75, 76) only with a task in the
    queue, which it takes, and the destructor comes to [back()] (line 115)
    only with a task in the queue; a slave comes to the test of line 72
    only cancelled or with a task in the queue. *)
Theorem queue_access_safe (inSlaves np : nat) (ls : list label) (tr : trace) (s : state) :
  run unrestricted ls [] (init inSlaves np) = Some (tr, s) ->
  (forall i sl, slaves s !! i = Some sl -> s_pc sl = S_front ->
     exists t q s',
       mTasks s = t :: q /\ exec (LSlave i) s = Some (SDequeue t, s') /\ mTasks s' = q) /\
  (owner s = D_back ->
     exists t s', last (mTasks s) = Some t /\ exec LOwner s = Some (DBack t, s')) /\
  (forall i sl, slaves s !! i = Some sl -> s_pc sl = S_test ->
     mCancel sl = true \/ mTasks s <> []).
Proof.
  intros Hr.
  destruct (run_access_inv _ _ _ _ _ _ Hr (init_lock_inv _ _) (init_access_inv _ _))
    as [_ [A1 A2 A3]].
  split.
  { intros i sl Hsl Hpc. pose proof (A2 _ _ Hsl Hpc) as Hq.
    destruct (mTasks s) as [|t q] eqn:E; [congruence|].
    exists t, q. eexists. split; [reflexivity|].
    cbn. unfold slave_step. rewrite Hsl. cbn. rewrite Hpc, E.
    split; reflexivity. }
  split; [|exact A1].
  intros Ho. pose proof (A3 Ho) as Hq.
  destruct (last (mTasks s)) as [t|] eqn:E.
  - exists t. eexists. split; [reflexivity|].
    cbn. unfold destroy_step. rewrite Ho, E. reflexivity.
  - apply last_None in E. congruence.
Qed.

Lemma queue_access_safe_witness :
  exists tr s s',
    run unrestricted destroy_finds_task [] (init 1 1) = Some (tr, s) /\
    owner s = D_back /\ mTasks s = [4] /\ exec LOwner s = Some (DBack 4, s').
Proof.
  eexists _, _, _. split; [vm_compute; reflexivity|].
  split; [reflexivity|]. split; [reflexivity|].
  pose proof (queue_access_safe 1 1 destroy_finds_task _ _
                ltac:(vm_compute; reflexivity)) as (_ & Hb & _).
  destruct (Hb eq_refl) as (t & s' & Hl & He).
  vm_compute in Hl. injection Hl as <-. vm_compute. reflexivity.
Defined.

(** X6.  No statement of the pool fails.  In every run a thread can
    execute its next statement unless that is a [lock()] (or the return
    from a wait) whose mutex is taken, or the thread is blocked inside a
    wait, or it is the destructor deleting a slave whose thread has not
    terminated, or it has nothing to execute.  In particular every
    [unlock()] and every [wait()] is called by the holder of the mutex, so
    that no ownership error is raised; and a step that frees a mutex is a
    step of its holder. *)
Theorem statements_never_fail (inSlaves np : nat) (ls : list label) (tr : trace)
    (s : state) (th : thread) :
  run unrestricted ls [] (init inSlaves np) = Some (tr, s) ->
  (is_Some (exec (next th) s) <-> satisfied s (needs s th) = true) /\
  (forall a s', exec (next th) s = Some (a, s') ->
     (holder s' PoolMutex = None -> holder s PoolMutex <> None ->
        holder s PoolMutex = Some th) /\
     (forall t, holder s' (TaskMutex t) = None -> holder s (TaskMutex t) <> None ->
        holder s (TaskMutex t) = Some th)).
Proof.
  intros Hr.
  destruct (run_access_inv _ _ _ _ _ _ Hr (init_lock_inv _ _) (init_access_inv _ _))
    as [Hl Ha].
  split; [apply exec_needs; assumption|].
  intros a s' He. clear Hl Ha Hr.
  destruct th as [i|p|]; cbn in He; step_split He.
  all: expose; cbn; (split; [intros H1 H2 | intros u H1 H2]).
  all: try congruence.
  all: unfold upd in H1;
       try match type of H1 with
           | context [Nat.eqb ?x ?y] => destruct (Nat.eqb_spec x y); subst
           end; cbn in *; try congruence.
Qed.

Lemma statements_never_fail_witness :
  exists tr s,
    run unrestricted before_append [] (init 2 1) = Some (tr, s) /\
    is_Some (exec (LProducer 0 None) s) /\
    needs s (Slave 0) = Wakeup /\
    needs s (Slave 1) = Nothing /\
    ~ is_Some (exec (LSlave 0) s).
Proof.
  eexists _, _. split; [vm_compute; reflexivity|].
  pose proof (fun th => proj1 (statements_never_fail 2 1 before_append _ _ th
                                 ltac:(vm_compute; reflexivity))) as H.
  split; [apply (H (Producer 0)); reflexivity|].
  split; [reflexivity|]. split; [reflexivity|].
  intros Hs. apply (H (Slave 0)) in Hs. discriminate Hs.
Defined.

(** X7.  The two mutexes cannot deadlock.  In every run the thread that
    holds the mutex of a task can execute its next statement; the thread
    that holds the pool's mutex can execute its next statement, unless it
    is the destructor at line 116 held up by a slave that holds the task's
    mutex, and that slave can execute its next statement.  A mutex is never
    held by a thread that is blocked in a wait, that has terminated, or
    that waits for the termination of a slave. *)
Theorem no_deadlock (inSlaves np : nat) (ls : list label) (tr : trace) (s : state) :
  run unrestricted ls [] (init inSlaves np) = Some (tr, s) ->
  (forall t th, t_mutex (heap s t) = Some th -> is_Some (exec (next th) s)) /\
  (forall th, p_mutex s = Some th ->
     is_Some (exec (next th) s) \/
     exists t i, th = Owner /\ owner s = D_tlock t /\ t_mutex (heap s t) = Some (Slave i) /\
                 is_Some (exec (LSlave i) s)) /\
  (forall m th, holder s m = Some th ->
     needs s th <> Wakeup /\ needs s th <> Over /\ forall i, needs s th <> Joined i).
Proof.
  intros Hr.
  destruct (run_access_inv _ _ _ _ _ _ Hr (init_lock_inv _ _) (init_access_inv _ _))
    as [Hl Ha].
  pose proof (run_holder_inv _ _ _ _ _ _ Hr (init_holder_inv _ _)) as Hh.
  assert (Ht : forall t th, t_mutex (heap s t) = Some th -> is_Some (exec (next th) s)).
  { intros t th H. apply (exec_needs _ _ Hl Ha).
    rewrite (task_section_needs s th t); [reflexivity|].
    apply holder_in_task_section; assumption. }
  split; [exact Ht|]. split.
  { intros th H. pose proof (holder_in_pool_section _ _ Hl Hh H) as Hs.
    destruct (pool_section_needs _ _ Hs) as [Hn | (t & -> & Ho)].
    - left. apply (exec_needs _ _ Hl Ha). rewrite Hn. reflexivity.
    - destruct (t_mutex (heap s t)) as [th'|] eqn:Hm.
      + right. pose proof (holder_in_task_section _ _ _ Hl Hh Hm) as Hs'.
        destruct th' as [i|p|]; cbn in Hs'; [| discriminate |].
        * exists t, i. split; [reflexivity|]. split; [exact Ho|].
          split; [exact Hm|]. apply (Ht t (Slave i) Hm).
        * rewrite Ho in Hs'. discriminate.
      + left. apply (exec_needs _ _ Hl Ha). cbn. rewrite Ho. cbn. rewrite Hm.
        reflexivity. }
  intros [|t] th H; cbn in H.
  - pose proof (holder_in_pool_section _ _ Hl Hh H) as Hs.
    destruct (pool_section_needs _ _ Hs) as [Hn | (u & -> & Ho)].
    + rewrite Hn. repeat split; try discriminate.
    + cbn. rewrite Ho. cbn. repeat split; try discriminate.
  - pose proof (holder_in_task_section _ _ _ Hl Hh H) as Hs.
    rewrite (task_section_needs _ _ _ Hs). repeat split; try discriminate.
Qed.

Lemma no_deadlock_witness :
  exists tr s,
    run unrestricted destroy_meets_slave [] (init 1 1) = Some (tr, s) /\
    p_mutex s = Some Owner /\ owner s = D_tlock 0 /\
    t_mutex (heap s 0) = Some (Slave 0) /\
    exec LOwner s = None /\
    is_Some (exec (LSlave 0) s).
Proof.
  eexists _, _. split; [vm_compute; reflexivity|].
  split; [reflexivity|]. split; [reflexivity|]. split; [reflexivity|].
  split; [reflexivity|].
  pose proof (no_deadlock 1 1 destroy_meets_slave _ _ ltac:(vm_compute; reflexivity))
    as (Ht & _ & _).
  exact (Ht 0 (Slave 0) eq_refl).
Defined.

(** *** Cancellation *)

Lemma wake_pc sl :
  s_pc (wake_slave sl) = s_pc sl \/
  (s_pc sl = S_waiting /\ s_pc (wake_slave sl) = S_woken).
Proof. unfold wake_slave. destruct (s_pc sl) eqn:E; cbn; auto. Qed.

Lemma exec_ci_front l s a s' :
  exec l s = Some (a, s') -> lock_inv s ->
  (forall i sl, slaves s !! i = Some sl -> mCancel sl = true -> s_pc sl <> S_front) ->
  forall i sl, slaves s' !! i = Some sl -> mCancel sl = true -> s_pc sl <> S_front.
Proof.
  intros H Hl I.
  step_cases H.
  all: expose; cbn; intros j sl' Hj Hc; lookups; cbn in *; rewrite ?wake_cancel in *.
  all: try discriminate.
  all: try congruence.
  all: try (eapply I; eassumption).
  all: try (intros Hf; section_conflict Hl).
  all: match goal with
       | |- s_pc (wake_slave ?x) <> _ =>
           destruct (wake_pc x) as [-> | [_ ->]]; [eapply I; eassumption | discriminate]
       end.
Qed.

Lemma exec_ci_awake l s a s' :
  exec l s = Some (a, s') -> dtor_inv s ->
  (past_broadcast (owner s) = true ->
   forall i sl, slaves s !! i = Some sl -> s_pc sl <> S_waiting) ->
  past_broadcast (owner s') = true ->
  forall i sl, slaves s' !! i = Some sl -> s_pc sl <> S_waiting.
Proof.
  intros H [_ _ _ I3 _] I.
  step_cases H.
  all: expose; cbn; intros Hp j sl' Hj; lookups; cbn in *.
  all: try discriminate.
  all: try (eapply I; [rewrite ?Hown; auto | eassumption]; fail).
  all: try (rewrite_pcs; cbn in *; eapply I; [reflexivity | eassumption]).
  all: try (exfalso; eapply I; [rewrite ?Hown; auto | eassumption | assumption]; fail).
  all: try (pose proof (I3 _ _ Hsl) as Hc; destruct (owner s); cbn in *;
            try discriminate; rewrite Hc in *; cbn in *; rewrite andb_false_r in *;
            discriminate).
  all: match goal with
       | |- s_pc (wake_slave ?x) <> _ =>
           unfold wake_slave; destruct (s_pc x) eqn:E; cbn; rewrite ?E; discriminate
       end.
Qed.

Lemma exec_ci_flag tr l s a s' :
  exec l s = Some (a, s') ->
  (forall i sl, In (Owner, DCancel i) tr -> slaves s !! i = Some sl -> mCancel sl = true) ->
  forall i sl, In (Owner, DCancel i) (tr ++ [(thread_of l, a)]) ->
    slaves s' !! i = Some sl -> mCancel sl = true.
Proof.
  intros H I.
  step_cases H.
  all: expose; cbn; intros j sl' Hin Hj; lookups; cbn in *; rewrite ?wake_cancel.
  all: try reflexivity.
  all: apply in_app_or in Hin as [Hin | [Hin | []]]; try discriminate Hin.
  all: try (eapply I; eassumption).
  all: congruence.
Qed.

Lemma exec_cancel_inv tr l s a s' :
  exec l s = Some (a, s') -> dtor_inv s -> cancel_inv tr s ->
  cancel_inv (tr ++ [(thread_of l, a)]) s'.
Proof.
  intros H Hd [I1 I2 I3]. constructor.
  - eapply exec_ci_front; eauto. apply (di_locks _ Hd).
  - eapply exec_ci_awake; eauto.
  - eapply exec_ci_flag; eauto.
Qed.

Lemma init_cancel_inv n np : cancel_inv [] (init n np).
Proof.
  constructor.
  - intros i sl H. apply init_slave in H as ->. discriminate.
  - discriminate.
  - intros i sl [].
Qed.

(** What a cancelled slave executes next is neither a dequeue nor a call
    of [wait()]. *)
Lemma cancelled_step s i sl a s' :
  slaves s !! i = Some sl -> mCancel sl = true -> s_pc sl <> S_front ->
  exec (LSlave i) s = Some (a, s') ->
  (forall t, a <> SDequeue t) /\ a <> SWaitPool.
Proof.
  intros Hsl Hc Hf H. step_split H.
  all: try (split; [intros u|]; discriminate).
  all: try congruence.
  rewrite Hc in Heqb. cbn in Heqb. rewrite andb_false_r in Heqb. discriminate.
Qed.

Lemma snoc_split {A} (tr tr1 tr2 : list A) e c :
  tr ++ [e] = tr1 ++ c :: tr2 ->
  (tr2 = [] /\ e = c /\ tr = tr1) \/
  (exists tr2', tr2 = tr2' ++ [e] /\ tr = tr1 ++ c :: tr2').
Proof.
  intros H. destruct tr2 as [|x tr2 _] using rev_ind.
  - left. change (tr1 ++ [c]) with (tr1 ++ [c]) in H.
    apply app_inj_tail in H as [-> ->]. auto.
  - right. exists tr2.
    change (tr1 ++ c :: tr2 ++ [x]) with (tr1 ++ (c :: tr2) ++ [x]) in H.
    rewrite app_assoc in H. apply app_inj_tail in H as [-> ->]. auto.
Qed.

Lemma run_cancel_inv ls : forall tr s tr' s',
  run unrestricted ls tr s = Some (tr', s') ->
  dtor_inv s -> cancel_inv tr s -> idle_since_cancel tr ->
  dtor_inv s' /\ cancel_inv tr' s' /\ idle_since_cancel tr'.
Proof.
  intros tr s tr' s' Hr Hd Hc Hi.
  eapply (run_invariant unrestricted
            (fun tr s => dtor_inv s /\ cancel_inv tr s /\ idle_since_cancel tr));
    [| exact Hr | auto].
  clear. intros tr s l a s' (Hd & Hc & Hi) _ He.
  split; [eapply exec_dtor_inv; eauto|].
  split; [eapply exec_cancel_inv; eauto|].
  intros i tr1 tr2 Heq.
  apply snoc_split in Heq as [(-> & _ & _) | (tr2' & -> & ->)].
  { split; [intros t|]; intros []. }
  destruct (Hi i tr1 tr2' eq_refl) as [H1 H2].
  assert (thread_of l = Slave i ->
          (forall t, a <> SDequeue t) /\ a <> SWaitPool) as Hstep.
  { intros Hth. destruct Hc as [C1 _ C3].
    destruct l; simpl in Hth; simplify_eq.
    - simpl in He. destruct (slaves s !! i) as [sl|] eqn:Hsl.
      + assert (mCancel sl = true) as Hm.
        { eapply C3; [|exact Hsl]. apply in_or_app. right. left. reflexivity. }
        eapply cancelled_step; eauto.
      + unfold slave_step in He. rewrite Hsl in He. discriminate.
    - simpl in He. unfold slave_raise in He.
      destruct (slaves s !! i) as [sl|]; [|discriminate]. simpl in He.
      destruct (s_pc sl); simplify_eq. split; [intros u|]; discriminate.
    - simpl in He. destruct (slaves s !! i) as [sl|]; [|discriminate]. simpl in He.
      destruct (s_pc sl); simplify_eq. split; [intros u|]; discriminate. }
  split.
  - intros t Hin. apply in_app_or in Hin as [Hin | [Hin | []]].
    + exact (H1 t Hin).
    + injection Hin as Hth Ha. destruct (Hstep Hth) as [Hn _]. exact (Hn t Ha).
  - intros Hin. apply in_app_or in Hin as [Hin | [Hin | []]].
    + exact (H2 Hin).
    + injection Hin as Hth Ha. destruct (Hstep Hth) as [_ Hn]. exact (Hn Ha).
Qed.

(** X8.  A cancelled slave takes no further task.  In every run, after
    the destructor has set the cancel flag of a slave (line 123) that slave
    executes no dequeue (lines 75, 76) and no [wait()] (line 71), also when
    tasks are pushed afterwards.  After the broadcast of line 125 every
    slave is cancelled and none is blocked on the pool: the wake-up is not
    lost. *)
Theorem cancelled_slave_takes_no_task (inSlaves np : nat) (ls : list label) (tr : trace)
    (s : state) :
  run unrestricted ls [] (init inSlaves np) = Some (tr, s) ->
  (forall i tr1 tr2, tr = tr1 ++ (Owner, DCancel i) :: tr2 ->
     (forall t, ~ In (Slave i, SDequeue t) tr2) /\ ~ In (Slave i, SWaitPool) tr2) /\
  (forall i sl, slaves s !! i = Some sl -> mCancel sl = true ->
     s_pc sl <> S_front /\
     forall a s', exec (LSlave i) s = Some (a, s') ->
       (forall t, a <> SDequeue t) /\ a <> SWaitPool) /\
  (past_broadcast (owner s) = true ->
   forall i sl, slaves s !! i = Some sl -> mCancel sl = true /\ s_pc sl <> S_waiting).
Proof.
  intros Hr.
  destruct (run_cancel_inv _ _ _ _ _ Hr (init_dtor_inv _ _) (init_cancel_inv _ _))
    as (Hd & [C1 C2 C3] & Hi).
  { intros i tr1 tr2 H. destruct tr1; discriminate H. }
  split; [exact Hi|]. split.
  { intros i sl Hsl Hc. split; [eapply C1; eauto|].
    intros a s'. eapply cancelled_step; eauto. }
  intros Hp i sl Hsl. split; [|eapply C2; eauto].
  rewrite (di_cancel _ Hd _ _ Hsl). destruct (owner s); try discriminate Hp; reflexivity.
Qed.

Lemma cancelled_slave_takes_no_task_witness :
  exists tr s,
    run unrestricted push_after_cancel [] (init 1 1) = Some (tr, s) /\
    owner s = D_done /\ mTasks s = [0] /\ dequeued tr = [] /\
    slaves s !! 0 = Some (mkSlave true S_exit) /\
    tr !! 6 = Some (Owner, DCancel 0) /\
    forall t, ~ In (Slave 0, SDequeue t) (drop 7 tr).
Proof.
  eexists _, _. split; [vm_compute; reflexivity|].
  split; [reflexivity|]. split; [reflexivity|]. split; [reflexivity|].
  split; [reflexivity|]. split; [reflexivity|].
  pose proof (cancelled_slave_takes_no_task 1 1 push_after_cancel _ _
                ltac:(vm_compute; reflexivity)) as (H & _ & _).
  match goal with
  | |- forall t, ~ In _ (drop 7 ?tr) =>
      exact (proj1 (H 0 (take 6 tr) (drop 7 tr) eq_refl))
  end.
Defined.

(** *** Overlapping calls of [push] *)

Lemma omap_push_script_calls done :
  omap call_arg (concat (push_script <$> done)) = fst <$> done.
Proof.
  induction done as [|c done IH]; [reflexivity|].
  rewrite fmap_cons. cbn [concat]. rewrite omap_app, IH. reflexivity.
Qed.

Lemma omap_push_script_appends done :
  omap append_arg (concat (push_script <$> done)) = fst <$> done.
Proof.
  induction done as [|c done IH]; [reflexivity|].
  rewrite fmap_cons. cbn [concat]. rewrite omap_app, IH. reflexivity.
Qed.

Lemma appends_sublist p tr : sublist (appends_by p tr) (enqueued tr).
Proof.
  unfold appends_by, enqueued, proj.
  induction tr as [|[th a] tr IH]; cbn; [constructor|].
  destruct (decide (th = Producer p)); cbn.
  - unfold enqueue_of. cbn. destruct a; cbn; try exact IH. constructor. exact IH.
  - unfold enqueue_of. cbn. destruct a; cbn; try exact IH. constructor. exact IH.
Qed.

(** X9.  The queue is first in, first out also when calls of [push]
    overlap.  In every run the tasks leave the queue in the order in which
    line 141 appended them, none is lost and none is taken twice; the
    tasks of one thread are appended in the order of its calls of [push]
    (the last one may be still to append), and they appear in that order
    among the tasks dequeued and queued. *)
Theorem fifo_under_concurrency (inSlaves np : nat) (ls : list label) (tr : trace)
    (s : state) :
  run unrestricted ls [] (init inSlaves np) = Some (tr, s) ->
  enqueued tr = dequeued tr ++ mTasks s /\
  (forall p pc, producers s !! p = Some pc ->
     calls_by p tr = appends_by p tr ++ option_list (claim_of pc)) /\
  (forall p, sublist (appends_by p tr) (dequeued tr ++ mTasks s)).
Proof.
  intros Hr.
  pose proof (run_push_inv _ _ _ _ _ _ Hr (init_push_inv _ _)) as Hp.
  pose proof (run_fifo_inv _ _ _ _ _ _ Hr (init_fifo_inv _ _)) as Hf.
  unfold fifo_inv in Hf.
  split; [exact Hf|]. split.
  - intros p pc Hpc. destruct (Hp _ _ Hpc) as (done & cur & Hd & Hc).
    unfold calls_by, appends_by. rewrite Hd, !omap_app.
    rewrite omap_push_script_calls, omap_push_script_appends, <- app_assoc. f_equal.
    destruct pc; cbn in Hc.
    all: try match goal with Hx : ex _ |- _ => destruct Hx as [? ?] end.
    all: subst cur; reflexivity.
  - intros p. rewrite <- Hf. apply appends_sublist.
Qed.

Lemma fifo_under_concurrency_witness :
  exists tr s,
    run unrestricted overlapping_pushes [] (init 1 2) = Some (tr, s) /\
    called tr = [5; 7] /\ mTasks s = [7; 5] /\
    enqueued tr = dequeued tr ++ mTasks s /\
    calls_by 0 tr = appends_by 0 tr ++ [].
Proof.
  eexists _, _. split; [vm_compute; reflexivity|].
  split; [reflexivity|]. split; [reflexivity|].
  pose proof (fifo_under_concurrency 1 2 overlapping_pushes _ _
                ltac:(vm_compute; reflexivity)) as (H1 & H2 & _).
  split; [exact H1|].
  exact (H2 0 P_idle eq_refl).
Defined.

(** *** What the flags tell *)

Lemma exists_insert (f : SlaveThread -> bool) (l : list SlaveThread) i sl sl' :
  l !! i = Some sl -> (f sl = true -> f sl' = true) ->
  (exists j x, l !! j = Some x /\ f x = true) ->
  exists j x, <[i:=sl']> l !! j = Some x /\ f x = true.
Proof.
  intros Hl Hf (j & x & Hj & Hx).
  destruct (decide (j = i)) as [->|Hne].
  - exists i, sl'. split.
    + apply list_lookup_insert_eq. eapply lookup_lt_Some; eauto.
    + apply Hf. congruence.
  - exists j, x. split; [|exact Hx]. rewrite list_lookup_insert_ne by congruence. exact Hj.
Qed.

Lemma exists_fmap (f : SlaveThread -> bool) (g : SlaveThread -> SlaveThread)
    (l : list SlaveThread) :
  (forall x, f x = true -> f (g x) = true) ->
  (exists j x, l !! j = Some x /\ f x = true) ->
  exists j x, (g <$> l) !! j = Some x /\ f x = true.
Proof.
  intros Hf (j & x & Hj & Hx). exists j, (g x). split; [|auto].
  rewrite list_lookup_fmap, Hj. reflexivity.
Qed.

Lemma wake_runs sl t : runs (s_pc (wake_slave sl)) t = runs (s_pc sl) t.
Proof. unfold wake_slave. destruct (s_pc sl) eqn:E; cbn; rewrite ?E; reflexivity. Qed.

Ltac keep_runner I :=
  match goal with
  | |- exists j x, <[?i:=_]> (slaves ?s) !! j = Some x /\ runs (s_pc x) ?u = true =>
      match goal with
      | Hl : slaves s !! i = Some _ |- _ =>
          first
            [ eexists i, _; split;
              [apply list_lookup_insert_eq; eapply lookup_lt_Some; exact Hl
              | cbn; apply Nat.eqb_refl]
            | apply (exists_insert (fun sl => runs (s_pc sl) u) _ _ _ _ Hl);
              [cbn; rewrite_pcs; cbn;
               first [auto; fail | intros E; discriminate E
                     | intros E; apply Nat.eqb_eq in E; congruence]
              | apply I; assumption] ]
      end
  | |- exists j x, (wake_slave <$> _) !! j = Some x /\ runs (s_pc x) ?u = true =>
      apply (exists_fmap (fun sl => runs (s_pc sl) u));
      [intros x; rewrite wake_runs; auto | apply I; assumption]
  end.

Lemma exec_runner_inv l s a s' :
  exec l s = Some (a, s') -> runner_inv s -> runner_inv s'.
Proof.
  intros H I.
  step_cases H.
  all: expose; intros u; cbn; unfold upd;
       try match goal with
           | |- context [Nat.eqb ?x ?t] => destruct (Nat.eqb_spec x t); subst
           end; cbn; intros Hrun.
  all: try discriminate Hrun.
  all: try (apply I; assumption).
  all: keep_runner I.
Qed.

Lemma init_runner_inv n np : runner_inv (init n np).
Proof. intros t H. discriminate H. Qed.

Lemma run_runner_inv G ls tr s tr' s' :
  run G ls tr s = Some (tr', s') -> runner_inv s -> runner_inv s'.
Proof.
  apply (run_invariant G (fun _ s => runner_inv s)). intros. eapply exec_runner_inv; eauto.
Qed.

Lemma handling_mono i tr e x : In x (handling i tr) -> In x (handling i (tr ++ [e])).
Proof. destruct e as [th a]. rewrite handling_snoc. intros H. apply in_or_app. auto. Qed.

Lemma exec_completion_inv tr l s a s' :
  exec l s = Some (a, s') -> completion_inv tr s ->
  completion_inv (tr ++ [(thread_of l, a)]) s'.
Proof.
  intros H I.
  step_cases H.
  all: expose; intros u; cbn; unfold upd;
       try match goal with
           | |- context [Nat.eqb ?x ?t] => destruct (Nat.eqb_spec x t); subst
           end; cbn; intros Hc.
  all: try discriminate Hc.
  all: try (destruct (I _ Hc) as (j & Hlt & Hj); exists j;
            rewrite ?length_insert, ?length_fmap;
            split; [exact Hlt | apply handling_mono; exact Hj]).
  eexists. rewrite length_insert. split; [eapply lookup_lt_Some; exact Hsl|].
  rewrite handling_snoc. rewrite decide_True by reflexivity.
  apply in_or_app. right. left. reflexivity.
Qed.

Lemma init_completion_inv n np : completion_inv [] (init n np).
Proof. intros t H. discriminate H. Qed.

Lemma run_completion_inv G ls tr s tr' s' :
  run G ls tr s = Some (tr', s') -> completion_inv tr s -> completion_inv tr' s'.
Proof.
  apply (run_invariant G completion_inv). intros. eapply exec_completion_inv; eauto.
Qed.

Lemma in_handling i tr a : In a (handling i tr) -> In (Slave i, a) tr.
Proof.
  unfold handling, proj. intros H. apply filter_In in H as [H _].
  induction tr as [|[th b] tr IH]; cbn in H; [contradiction|].
  destruct (decide (th = Slave i)) as [->|Hne]; cbn in H.
  - destruct H as [->|H]; [left; reflexivity | right; auto].
  - right. auto.
Qed.

Lemma in_dequeued i tr t : In (Slave i, SDequeue t) tr -> In t (dequeued tr).
Proof.
  unfold dequeued. induction tr as [|e tr IH]; cbn; [auto|].
  intros [->|H]; cbn; [left; reflexivity|].
  destruct (dequeue_of e); [right|]; auto.
Qed.

(** The list of statements of a slave that holds the write of line 88 for
    task [t] holds the dequeue of [t] and the return of its [main()]. *)
Lemma completed_in_iterations done pc t :
  In (SSetCompleted t) (concat (iteration <$> done) ++ slave_progress pc) ->
  In (SDequeue t) (concat (iteration <$> done) ++ slave_progress pc) /\
  In (SMain t true) (concat (iteration <$> done) ++ slave_progress pc).
Proof.
  intros H. apply in_app_or in H as [H|H].
  - apply in_concat in H as (l & Hl & Hin).
    apply list_elem_of_In, list_elem_of_fmap in Hl as (u & -> & Hu).
    assert (u = t) as ->.
    { cbn in Hin. repeat (destruct Hin as [Hin|Hin]; try discriminate Hin).
      - congruence.
      - contradiction. }
    split; apply in_or_app; left; apply in_concat; exists (iteration t).
    all: split; [apply list_elem_of_In, list_elem_of_fmap; eauto|].
    all: cbn; auto 10.
  - split; apply in_or_app; right.
    all: destruct pc; cbn in H |- *.
    all: repeat (destruct H as [H|H]; try discriminate H); try contradiction.
    all: injection H as ->; auto 12.
Qed.

(** X10.  A completed task was executed.  In every run, when the
    completed flag of a task is set, some slave has dequeued the task, has
    returned from its [main()] and has executed the write of line 88; the
    task was appended to the queue by a call of [push]. *)
Theorem completed_means_returned (inSlaves np : nat) (ls : list label) (tr : trace)
    (s : state) (t : task_ptr) :
  run unrestricted ls [] (init inSlaves np) = Some (tr, s) ->
  mCompleted (heap s t) = true ->
  (exists i, In (Slave i, SDequeue t) tr /\ In (Slave i, SMain t true) tr /\
             In (Slave i, SSetCompleted t) tr) /\
  In t (dequeued tr) /\ In t (enqueued tr).
Proof.
  intros Hr Hc.
  pose proof (run_completion_inv _ _ _ _ _ _ Hr (init_completion_inv _ _)) as Hi.
  pose proof (run_iter_inv _ _ _ _ _ _ Hr (init_iter_inv _ _)) as Hit.
  pose proof (run_fifo_inv _ _ _ _ _ _ Hr (init_fifo_inv _ _)) as Hf.
  destruct (Hi t Hc) as (i & Hlt & Hin).
  apply lookup_lt_is_Some_2 in Hlt as [sl Hsl].
  destruct (Hit _ _ Hsl) as [done Hh].
  assert (In (SDequeue t) (handling i tr) /\ In (SMain t true) (handling i tr)) as [Hd Hm].
  { rewrite Hh in *. apply completed_in_iterations. exact Hin. }
  apply in_handling in Hin, Hd, Hm.
  split; [exists i; auto|].
  pose proof (in_dequeued _ _ _ Hd) as Hq. split; [exact Hq|].
  unfold fifo_inv in Hf. rewrite Hf. apply in_or_app. left. exact Hq.
Qed.

Lemma completed_means_returned_witness :
  exists tr s,
    run unrestricted destroy_and_join [] (init 1 1) = Some (tr, s) /\
    mCompleted (heap s 0) = true /\
    (exists i, In (Slave i, SDequeue 0) tr /\ In (Slave i, SMain 0 true) tr /\
               In (Slave i, SSetCompleted 0) tr) /\
    In 0 (dequeued tr) /\ In 0 (enqueued tr).
Proof.
  eexists _, _. split; [vm_compute; reflexivity|].
  split; [reflexivity|].
  exact (completed_means_returned 1 1 destroy_and_join _ _ 0
           ltac:(vm_compute; reflexivity) eq_refl).
Defined.

(** X11.  A running task has a slave that runs it.  In every run, when
    the running flag of a task is set, some slave is between the write of
    line 80 and the write of line 87 for this task, or has been stopped
    inside the task's [main()] by a failure. *)
Theorem running_has_runner (inSlaves np : nat) (ls : list label) (tr : trace)
    (s : state) (t : task_ptr) :
  run unrestricted ls [] (init inSlaves np) = Some (tr, s) ->
  mRunning (heap s t) = true ->
  exists i sl,
    slaves s !! i = Some sl /\
    (s_pc sl = S_raised t \/
     exists k, handles (s_pc sl) = Some (t, k) /\ 4 <= k <= 8).
Proof.
  intros Hr Hm.
  pose proof (run_runner_inv _ _ _ _ _ _ Hr (init_runner_inv _ _)) as Hi.
  destruct (Hi t Hm) as (i & sl & Hsl & Hruns).
  exists i, sl. split; [exact Hsl|].
  destruct (s_pc sl); cbn in Hruns; try discriminate Hruns.
  all: apply Nat.eqb_eq in Hruns; subst.
  all: try (left; reflexivity).
  all: right; eexists; (split; [reflexivity | lia]).
Qed.

Lemma running_has_runner_witness :
  exists tr s,
    run unrestricted raising_task [] (init 1 1) = Some (tr, s) /\
    mRunning (heap s 0) = true /\
    exists i sl,
      slaves s !! i = Some sl /\
      (s_pc sl = S_raised 0 \/
       exists k, handles (s_pc sl) = Some (0, k) /\ 4 <= k <= 8).
Proof.
  eexists _, _. split; [vm_compute; reflexivity|].
  split; [reflexivity|].
  exact (running_has_runner 1 1 raising_task _ _ 0
           ltac:(vm_compute; reflexivity) eq_refl).
Defined.

(** **** How many tasks run at once *)

Lemma exec_size l s a s' :
  exec l s = Some (a, s') ->
  length (slaves s') = length (slaves s) /\ length (producers s') = length (producers s).
Proof.
  intros H. step_cases H.
  all: expose; cbn; rewrite ?length_insert, ?length_fmap; auto.
Qed.

Lemma run_size G ls : forall tr s tr' s',
  run G ls tr s = Some (tr', s') ->
  length (slaves s') = length (slaves s) /\ length (producers s') = length (producers s).
Proof.
  induction ls as [|l ls IH]; intros tr s tr' s' Hr; simpl in Hr.
  - injection Hr as <- <-. auto.
  - destruct (G s l); [|discriminate].
    destruct (exec l s) as [[a s1]|] eqn:He; [|discriminate].
    destruct (exec_size _ _ _ _ He) as [H1 H2].
    destruct (IH _ _ _ _ Hr) as [H3 H4]. split; congruence.
Qed.

Lemma runs_one_task pc t u : runs pc t = true -> runs pc u = true -> t = u.
Proof.
  destruct pc; cbn; try discriminate.
  all: intros H1 H2; apply Nat.eqb_eq in H1, H2; congruence.
Qed.

(** Distinct running tasks have distinct runners. *)
Lemma runners s (ts : list task_ptr) :
  runner_inv s -> List.NoDup ts -> (forall t, In t ts -> mRunning (heap s t) = true) ->
  exists js : list nat,
    length js = length ts /\ List.NoDup js /\
    (forall j, In j js -> j < length (slaves s)) /\
    (forall j, In j js ->
       exists t sl, In t ts /\ slaves s !! j = Some sl /\ runs (s_pc sl) t = true).
Proof.
  intros I Hnd. induction Hnd as [|t ts Hnin Hnd IH]; intros Hrun.
  - exists []. split; [reflexivity|]. split; [constructor|]. split; intros j [].
  - destruct IH as (js & Hlen & Hjs & Hlt & Hr).
    { intros u Hu. apply Hrun. right. exact Hu. }
    destruct (I t (Hrun t (or_introl eq_refl))) as (i & sl & Hsl & Hruns).
    exists (i :: js). split; [simpl; congruence|]. split.
    { constructor; [|exact Hjs]. intros Hin.
      destruct (Hr _ Hin) as (u & sl' & Hu & Hsl' & Hruns').
      assert (sl' = sl) as -> by congruence.
      assert (t = u) as -> by (eapply runs_one_task; eauto). contradiction. }
    split.
    { intros j [<-|Hj]; [eapply lookup_lt_Some; eauto | auto]. }
    intros j [<-|Hj].
    + exists t, sl. split; [left; reflexivity | auto].
    + destruct (Hr _ Hj) as (u & sl' & Hu & Hx). exists u, sl'. split; [right; exact Hu | exact Hx].
Qed.

Lemma NoDup_bounded (js : list nat) n :
  List.NoDup js -> (forall j, In j js -> j < n) -> length js <= n.
Proof.
  intros Hnd Hlt. replace n with (length (seq 0 n)) at 1 by apply length_seq.
  apply List.NoDup_incl_length; [exact Hnd|].
  intros j Hj. apply in_seq. specialize (Hlt j Hj). lia.
Qed.

(** X16.  The pool runs no more tasks at once than it has slaves.  In
    every run the number of slaves is the number given to the constructor,
    and the tasks whose running flag is set are at most that many: they
    have as many slaves, all different, each between line 80 and line 87
    for one of them (or stopped in its [main()] by a failure). *)
Theorem parallelism_is_bounded (inSlaves np : nat) (ls : list label) (tr : trace)
    (s : state) (ts : list task_ptr) :
  run unrestricted ls [] (init inSlaves np) = Some (tr, s) ->
  List.NoDup ts -> (forall t, In t ts -> mRunning (heap s t) = true) ->
  length (slaves s) = inSlaves /\ length ts <= inSlaves /\
  exists js : list nat,
    length js = length ts /\ List.NoDup js /\
    forall j, In j js ->
      exists t sl, In t ts /\ slaves s !! j = Some sl /\ runs (s_pc sl) t = true.
Proof.
  intros Hr Hnd Hrun.
  pose proof (run_runner_inv _ _ _ _ _ _ Hr (init_runner_inv _ _)) as Hi.
  destruct (run_size _ _ _ _ _ _ Hr) as [Hn _].
  simpl in Hn. rewrite length_allocate in Hn. simpl in Hn.
  split; [exact Hn|].
  destruct (runners s ts Hi Hnd Hrun) as (js & Hlen & Hjs & Hlt & Hr').
  split; [rewrite <- Hlen, <- Hn; apply NoDup_bounded; assumption|].
  exists js. auto.
Qed.

Lemma parallelism_is_bounded_witness :
  exists tr s,
    run unrestricted one_task [] (init 1 1) = Some (tr, s) /\
    mRunning (heap s 0) = true /\
    length (slaves s) = 1 /\ length [0] <= 1.
Proof.
  eexists _, _. split; [vm_compute; reflexivity|].
  split; [reflexivity|].
  assert (List.NoDup [0]) as Hnd by (constructor; [intros [] | constructor]).
  destruct (parallelism_is_bounded 1 1 one_task _ _ [0] ltac:(vm_compute; reflexivity) Hnd)
    as (H1 & H2 & _).
  - intros t [<-|[]]. reflexivity.
  - split; assumption.
Defined.

(** *** The wait of the destructor *)

Lemma last_In {A} (l : list A) x : last l = Some x -> In x l.
Proof.
  intros H. apply last_Some in H as [l' ->]. apply in_or_app. right. left. reflexivity.
Qed.

Lemma wake_announces sl t : announces (s_pc (wake_slave sl)) t = announces (s_pc sl) t.
Proof. unfold wake_slave. destruct (s_pc sl) eqn:E; cbn; rewrite ?E; reflexivity. Qed.

Lemma broadcast_task_sharp t s :
  (owner s <> D_waiting t /\ broadcast_task t s = s) \/
  (owner s = D_waiting t /\ broadcast_task t s = set_owner (D_woken t) s).
Proof.
  unfold broadcast_task. destruct (owner s) eqn:E; try (left; split; [discriminate|reflexivity]).
  destruct (Nat.eqb_spec t0 t); subst; [right; auto | left].
  split; [congruence | reflexivity].
Qed.

Ltac keep_announcer :=
  match goal with
  | |- exists j x, <[?i:=_]> (slaves ?s) !! j = Some x /\ announces (s_pc x) ?u = true =>
      match goal with
      | Hl : slaves s !! i = Some _ |- _ =>
          apply (exists_insert (fun sl => announces (s_pc sl) u) _ _ _ _ Hl);
          [cbn; rewrite_pcs; cbn; rewrite ?andb_false_r, ?andb_true_r;
           first [auto; fail | intros E; discriminate E]
          | assumption]
      end
  | |- exists j x, (wake_slave <$> _) !! j = Some x /\ announces (s_pc x) ?u = true =>
      apply (exists_fmap (fun sl => announces (s_pc sl) u));
      [intros x; rewrite wake_announces; auto | assumption]
  end.

Lemma exec_wait_inv l s a s' :
  exec l s = Some (a, s') -> dtor_inv s -> wait_inv s -> wait_inv s'.
Proof.
  intros H [Hl I1 _ _ _] I.
  step_cases H.
  all: unfold goto, pgoto, set_task, broadcast_pool, reset, cancel;
       try match goal with
           | |- context [broadcast_task ?t ?s] =>
               destruct (broadcast_task_sharp t s) as [[Hnw ->] | [? ->]]
           end.
  all: intros u; cbn; intros Hw.
  all: try discriminate Hw.
  all: try (apply I; rewrite ?Hown; exact Hw).
  all: try (injection Hw as <-).
  all: try (left; apply last_In; apply I1; auto; fail).
  all: try match goal with
       | Ho : owner _ = _ |- _ =>
           rewrite Ho in I; cbn in I; specialize (I _ eq_refl)
       end.
  all: try (specialize (I _ Hw)).
  all: try (destruct I as [I|I]; [left; exact I | right; keep_announcer]; fail).
  - destruct I as [I|I]; [|right; keep_announcer].
    rewrite Heql in I. destruct I as [<- | I]; [|left; exact I].
    right. eexists i, _. split.
    + apply list_lookup_insert_eq. eapply lookup_lt_Some; exact Hsl.
    + cbn. rewrite Nat.eqb_refl. reflexivity.
  - destruct I as [I|I]; [left; exact I | right].
    destruct (decide (t = u)) as [->|Hne].
    + exfalso.
      assert (Slave i = Owner); [|discriminate].
      apply (task_section_unique s u _ _ Hl).
      * cbn. rewrite Hsl. cbn. rewrite Hspc. cbn. apply Nat.eqb_refl.
      * cbn. destruct (owner s); cbn in Hw; try discriminate Hw;
          injection Hw as ->; cbn; try apply Nat.eqb_refl.
        congruence.
    + apply (exists_insert (fun sl => announces (s_pc sl) u) _ _ _ _ Hsl); [|exact I].
      cbn. rewrite Hspc. cbn. rewrite andb_true_r. intros E.
      apply Nat.eqb_eq in E. congruence.
  - destruct I as [I|I]; [left; apply in_or_app; left; exact I | right; exact I].
Qed.

Lemma init_wait_inv n np : wait_inv (init n np).
Proof. intros t H. discriminate H. Qed.

Lemma run_wait_inv G ls tr s tr' s' :
  run G ls tr s = Some (tr', s') -> dtor_inv s -> wait_inv s -> wait_inv s'.
Proof.
  intros Hr Hd Hw.
  apply (run_invariant G (fun _ s => dtor_inv s /\ wait_inv s)) in Hr.
  - apply Hr.
  - intros ? ? ? ? ? [? ?] _ He. split.
    + eapply exec_dtor_inv; eauto.
    + eapply exec_wait_inv; eauto.
  - split; assumption.
Qed.

(** X12.  The destructor does not miss the wake-up it waits for.  In
    every run, from the moment the destructor has taken the mutex of the
    last queued task (line 116) and while it is blocked on this task (line
    118), the task is still in the queue or a slave has dequeued it and has
    not yet executed the broadcast of line 81; meanwhile a slave that
    executes a broadcast for the task finds the destructor blocked on it
    and wakes it. *)
Theorem drain_wait_not_lost (inSlaves np : nat) (ls : list label) (tr : trace)
    (s : state) (t : task_ptr) :
  run unrestricted ls [] (init inSlaves np) = Some (tr, s) ->
  owner s = D_unlock t \/ owner s = D_wait t \/ owner s = D_waiting t ->
  (In t (mTasks s) \/
   exists i sl k, slaves s !! i = Some sl /\ handles (s_pc sl) = Some (t, k) /\ k <= 4) /\
  (forall i sl s', slaves s !! i = Some sl ->
     s_pc sl = S_bcast1 t \/ s_pc sl = S_bcast2 t ->
     exec (LSlave i) s = Some (SBroadcast t, s') ->
     owner s = D_waiting t /\ owner s' = D_woken t).
Proof.
  intros Hr Ho.
  pose proof (run_dtor_inv _ _ _ _ _ _ Hr (init_dtor_inv _ _)) as Hd.
  pose proof (run_wait_inv _ _ _ _ _ _ Hr (init_dtor_inv _ _) (init_wait_inv _ _)) as Hw.
  split.
  - destruct (Hw t) as [Hq | (i & sl & Hsl & Ha)].
    { destruct Ho as [-> | [-> | ->]]; reflexivity. }
    + left. exact Hq.
    + right. exists i, sl. unfold announces in Ha.
      destruct (handles (s_pc sl)) as [[u k]|]; [|discriminate].
      apply andb_prop in Ha as [Hu Hk]. apply Nat.eqb_eq in Hu. apply Nat.leb_le in Hk.
      subst. eauto.
  - intros i sl s' Hsl Hpc He.
    assert (owner s = D_waiting t) as Hwt.
    { destruct Ho as [Ho | [Ho | Ho]]; [| | exact Ho]; exfalso.
      all: assert (Slave i = Owner); [|discriminate].
      all: apply (task_section_unique s t _ _ (di_locks _ Hd)).
      all: try (cbn; rewrite Hsl; cbn; destruct Hpc as [-> | ->]; cbn; apply Nat.eqb_refl).
      all: cbn; rewrite Ho; cbn; apply Nat.eqb_refl. }
    split; [exact Hwt|].
    cbn in He. unfold slave_step in He. rewrite Hsl in He. cbn in He.
    destruct Hpc as [Hpc | Hpc]; rewrite Hpc in He; cbn in He.
    all: injection He as <-; cbn; unfold broadcast_task; rewrite Hwt, Nat.eqb_refl.
    all: reflexivity.
Qed.

Lemma drain_wait_not_lost_witness :
  exists tr s,
    run unrestricted destroy_waits [] (init 1 1) = Some (tr, s) /\
    owner s = D_waiting 0 /\ mTasks s = [0] /\
    (In 0 (mTasks s) \/
     exists i sl k, slaves s !! i = Some sl /\ handles (s_pc sl) = Some (0, k) /\ k <= 4).
Proof.
  eexists _, _. split; [vm_compute; reflexivity|].
  split; [reflexivity|]. split; [reflexivity|].
  exact (proj1 (drain_wait_not_lost 1 1 destroy_waits _ _ 0
                  ltac:(vm_compute; reflexivity) (or_intror (or_intror eq_refl)))).
Defined.

(** *** One task, one place *)

Lemma count_absent (l : list task_ptr) t : count (Nat.eqb t) l = 0 -> ~ In t l.
Proof. intros H Hin. pose proof (count_In _ _ Hin). lia. Qed.

Lemma count_le_cons (l : list task_ptr) x t :
  count (Nat.eqb t) l <= count (Nat.eqb t) (x :: l).
Proof. rewrite count_cons. lia. Qed.

Lemma NoDup_count (l : list task_ptr) :
  (forall t, count (Nat.eqb t) l <= 1) -> List.NoDup l.
Proof.
  induction l as [|x l IH]; intros H; constructor.
  - apply count_absent. specialize (H x). rewrite count_cons, Nat.eqb_refl in H. lia.
  - apply IH. intros t. specialize (H t). pose proof (count_le_cons l x t). lia.
Qed.

(** X13.  Under the contract of [push] a task is in one place at a time.
    When [push] is called with a task only while the pool does not refer
    to it, in every run the queue holds no task twice, no two slaves handle
    the same task at the same time (from its dequeue to the write of line
    88, hence while its [main()] executes), a task that a slave handles is
    not in the queue, and a task that a call of [push] is about to append
    is neither in the queue nor handled by a slave. *)
Theorem one_place_at_a_time (inSlaves np : nat) (ls : list label) (tr : trace)
    (s : state) :
  run contract ls [] (init inSlaves np) = Some (tr, s) ->
  List.NoDup (mTasks s) /\
  (forall t i j sl sl',
     slaves s !! i = Some sl -> slaves s !! j = Some sl' ->
     claims_slave (s_pc sl) t = true -> claims_slave (s_pc sl') t = true -> i = j) /\
  (forall t i sl,
     slaves s !! i = Some sl -> claims_slave (s_pc sl) t = true -> ~ In t (mTasks s)) /\
  (forall t p pc,
     producers s !! p = Some pc -> claims_producer pc t = true ->
     ~ In t (mTasks s) /\
     forall i sl, slaves s !! i = Some sl -> claims_slave (s_pc sl) t = false).
Proof.
  intros Hr.
  pose proof (run_flags_inv _ _ _ _ _ Hr (init_flags_inv _ _)) as [I1 _ _ _ _].
  split.
  { apply NoDup_count. intros t. specialize (I1 t). unfold refs in I1. lia. }
  split.
  { intros t i j sl sl' Hi Hj Hc Hc'. destruct (decide (i = j)) as [|Hne]; [assumption|].
    exfalso. eapply excl_slave_slave; eauto. }
  split.
  { intros t i sl Hi Hc Hq. eapply excl_slave_queue; eauto. }
  intros t p pc Hp Hc. split.
  - intros Hq. eapply excl_producer_queue; eauto.
  - intros i sl Hi. destruct (claims_slave (s_pc sl) t) eqn:E; [|reflexivity].
    exfalso. eapply excl_slave_producer; eauto.
Qed.

Lemma one_place_at_a_time_witness :
  exists tr s,
    run contract push_again [] (init 1 1) = Some (tr, s) /\
    slaves s !! 0 = Some (mkSlave false (S_bcast1 0)) /\
    ~ In 0 (mTasks s).
Proof.
  eexists _, _. split; [vm_compute; reflexivity|].
  split; [reflexivity|].
  pose proof (one_place_at_a_time 1 1 push_again _ _ ltac:(vm_compute; reflexivity))
    as (_ & _ & H & _).
  exact (H 0 0 (mkSlave false (S_bcast1 0)) eq_refl eq_refl).
Defined.

(** *** Runs that come to an end *)

Lemma reaches_nil s : reaches [] s s.
Proof. intros tr. exists tr. reflexivity. Qed.

Lemma reaches_app ls1 ls2 s s1 s2 :
  reaches ls1 s s1 -> reaches ls2 s1 s2 -> reaches (ls1 ++ ls2) s s2.
Proof.
  intros H1 H2 tr. destruct (H1 tr) as [tr1 E1]. destruct (H2 tr1) as [tr2 E2].
  exists tr2. rewrite run_app, E1. exact E2.
Qed.

Lemma reaches_cons l ls s a s1 s2 :
  exec l s = Some (a, s1) -> reaches ls s1 s2 -> reaches (l :: ls) s s2.
Proof.
  intros He H tr. destruct (H (tr ++ [(thread_of l, a)])) as [tr' E].
  exists tr'. simpl. rewrite He. exact E.
Qed.

Lemma insert_middle {A} (l1 l2 : list A) x y :
  <[length l1 := y]> (l1 ++ x :: l2) = l1 ++ y :: l2.
Proof. induction l1 as [|z l1 IH]; simpl; [reflexivity|]. f_equal. exact IH. Qed.

Ltac slave_at_middle :=
  eapply reaches_cons;
  [ cbn; unfold slave_step; cbn; rewrite list_lookup_middle by reflexivity; cbn;
    rewrite ?decide_True by reflexivity; cbn;
    unfold goto, set_slaves, set_p_mutex; cbn; rewrite insert_middle; reflexivity |].

Lemma slave_waits pre post h ps pc :
  reaches [LSlave (length pre); LSlave (length pre); LSlave (length pre)]
    (mkState [] None (pre ++ mkSlave false S_loop :: post) h ps pc)
    (mkState [] None (pre ++ mkSlave false S_waiting :: post) h ps pc).
Proof. do 3 slave_at_middle. apply reaches_nil. Qed.

Lemma slave_exits q pre post h ps pc :
  reaches [LSlave (length pre); LSlave (length pre); LSlave (length pre);
           LSlave (length pre); LSlave (length pre)]
    (mkState q None (pre ++ mkSlave true S_woken :: post) h ps pc)
    (mkState q None (pre ++ mkSlave true S_exit :: post) h ps pc).
Proof.
  eapply reaches_cons.
  { cbn. unfold slave_step. cbn. rewrite list_lookup_middle by reflexivity. cbn.
    unfold goto, set_slaves, set_p_mutex. cbn. rewrite insert_middle. reflexivity. }
  eapply reaches_cons.
  { cbn. unfold slave_step. cbn. rewrite list_lookup_middle by reflexivity. cbn.
    rewrite andb_false_r.
    unfold goto, set_slaves, set_p_mutex. cbn. rewrite insert_middle. reflexivity. }
  do 3 slave_at_middle. apply reaches_nil.
Qed.

Lemma all_wait_from h ps pc m : forall pre,
  reaches (flat_map (fun i => [LSlave i; LSlave i; LSlave i]) (seq (length pre) m))
    (mkState [] None (pre ++ replicate m (mkSlave false S_loop)) h ps pc)
    (mkState [] None (pre ++ replicate m (mkSlave false S_waiting)) h ps pc).
Proof.
  induction m as [|m IH]; intros pre.
  - apply reaches_nil.
  - cbn [seq flat_map replicate].
    eapply reaches_app; [apply slave_waits|].
    specialize (IH (pre ++ [mkSlave false S_waiting])).
    rewrite length_app, Nat.add_1_r in IH. cbn [length] in IH.
    rewrite <- !app_assoc in IH. exact IH.
Qed.

Lemma all_exit_from q h ps pc m : forall pre,
  reaches (flat_map (fun i => [LSlave i; LSlave i; LSlave i; LSlave i; LSlave i])
             (seq (length pre) m))
    (mkState q None (pre ++ replicate m (mkSlave true S_woken)) h ps pc)
    (mkState q None (pre ++ replicate m (mkSlave true S_exit)) h ps pc).
Proof.
  induction m as [|m IH]; intros pre.
  - apply reaches_nil.
  - cbn [seq flat_map replicate].
    eapply reaches_app; [apply slave_exits|].
    specialize (IH (pre ++ [mkSlave true S_exit])).
    rewrite length_app, Nat.add_1_r in IH. cbn [length] in IH.
    rewrite <- !app_assoc in IH. exact IH.
Qed.

Lemma cancel_from q h ps m : forall pre,
  reaches (repeat LOwner m)
    (mkState q (Some Owner) (pre ++ replicate m (mkSlave false S_waiting)) h ps
       (D_cancel (length pre)))
    (mkState q (Some Owner) (pre ++ replicate m (mkSlave true S_waiting)) h ps
       (D_cancel (length pre + m))).
Proof.
  induction m as [|m IH]; intros pre.
  - rewrite Nat.add_0_r. apply reaches_nil.
  - cbn [repeat replicate].
    eapply reaches_cons.
    { cbn. unfold destroy_step. cbn. rewrite list_lookup_middle by reflexivity.
      unfold cancel, set_owner, set_slaves. cbn. rewrite insert_middle. reflexivity. }
    specialize (IH (pre ++ [mkSlave true S_waiting])).
    rewrite length_app, Nat.add_1_r in IH. cbn [length] in IH.
    rewrite <- !app_assoc in IH. cbn [app] in IH.
    rewrite <- Nat.add_succ_comm. exact IH.
Qed.

Lemma delete_from q h ps m : forall pre,
  reaches (repeat LOwner m)
    (mkState q None (pre ++ replicate m (mkSlave true S_exit)) h ps
       (D_delete (length pre)))
    (mkState q None (pre ++ replicate m (mkSlave true S_exit)) h ps
       (D_delete (length pre + m))).
Proof.
  induction m as [|m IH]; intros pre.
  - rewrite Nat.add_0_r. apply reaches_nil.
  - cbn [repeat replicate].
    eapply reaches_cons.
    { cbn. unfold destroy_step. cbn. rewrite list_lookup_middle by reflexivity.
      cbn. reflexivity. }
    specialize (IH (pre ++ [mkSlave true S_exit])).
    rewrite length_app, Nat.add_1_r in IH. cbn [length] in IH.
    rewrite <- !app_assoc in IH. cbn [app] in IH.
    rewrite <- Nat.add_succ_comm. exact IH.
Qed.

Lemma allocate_replicate n : forall pool,
  allocate n pool = pool ++ replicate n (mkSlave false S_loop).
Proof.
  induction n as [|n IH]; intros pool; cbn.
  - rewrite app_nil_r. reflexivity.
  - rewrite IH, <- app_assoc. reflexivity.
Qed.

Lemma fmap_replicate_wake n :
  wake_slave <$> replicate n (mkSlave true S_waiting) = replicate n (mkSlave true S_woken).
Proof. induction n as [|n IH]; cbn; [reflexivity|]. rewrite IH. reflexivity. Qed.

(** The destructor of a pool whose queue is empty and whose slaves all
    wait runs to its end. *)
Lemma destroy_idle_reaches n h ps :
  reaches (destroy_idle n)
    (mkState [] None (replicate n (mkSlave false S_waiting)) h ps D_alive)
    (mkState [] None (replicate n (mkSlave true S_exit)) h ps D_done).
Proof.
  unfold destroy_idle.
  eapply reaches_cons; [reflexivity|].
  eapply reaches_cons; [reflexivity|].
  eapply reaches_cons; [reflexivity|].
  eapply reaches_app; [apply (cancel_from [] h ps n [])|]. cbn [app length Nat.add].
  eapply reaches_cons.
  { cbn. unfold destroy_step. cbn.
    rewrite (lookup_ge_None_2 _ n) by (rewrite length_replicate; lia).
    reflexivity. }
  eapply reaches_cons.
  { cbn. unfold broadcast_pool, set_owner, set_slaves. cbn.
    rewrite fmap_replicate_wake. reflexivity. }
  eapply reaches_cons; [reflexivity|].
  eapply reaches_app; [apply (all_exit_from [] h ps (D_delete 0) n [])|]. cbn [app].
  eapply reaches_app; [apply (delete_from [] h ps n [])|]. cbn [app length Nat.add].
  eapply reaches_cons; [|apply reaches_nil].
  cbn. unfold destroy_step. cbn.
  rewrite (lookup_ge_None_2 _ n) by (rewrite length_replicate; lia).
  reflexivity.
Qed.

Lemma run_length G ls : forall tr s tr' s',
  run G ls tr s = Some (tr', s') -> length tr' = length tr + length ls.
Proof.
  induction ls as [|l ls IH]; intros tr s tr' s' Hr; simpl in Hr.
  - injection Hr as <- <-. simpl. lia.
  - destruct (G s l); [|discriminate].
    destruct (exec l s) as [[a s1]|]; [|discriminate].
    apply IH in Hr. rewrite length_app in Hr. simpl in *. lia.
Qed.

(** X14.  A pool that is not used shuts down.  For every number of
    slaves, also none: when the slaves have blocked on the empty queue and
    the destructor is called, the destructor cancels every slave, its
    broadcast wakes them all, every slave finds itself cancelled and
    leaves its loop, and the destructor deletes every slave and returns,
    with the pool's mutex free. *)
Theorem unused_pool_shuts_down (inSlaves np : nat) :
  exists tr s,
    run unrestricted (shutdown inSlaves) [] (init inSlaves np) = Some (tr, s) /\
    owner s = D_done /\
    slaves s = replicate inSlaves (mkSlave true S_exit) /\
    p_mutex s = None /\ mTasks s = [] /\
    length tr = length (shutdown inSlaves).
Proof.
  assert (reaches (shutdown inSlaves) (init inSlaves np)
            (mkState [] None (replicate inSlaves (mkSlave true S_exit))
               (fun _ => new_task) (replicate np P_idle) D_done)) as H.
  { unfold shutdown, init. rewrite allocate_replicate. cbn [app].
    eapply reaches_app; [apply (all_wait_from _ _ D_alive inSlaves [])|]. cbn [app].
    apply destroy_idle_reaches. }
  destruct (H []) as [tr Hr]. exists tr. eexists. split; [exact Hr|].
  split; [reflexivity|]. split; [reflexivity|]. split; [reflexivity|].
  split; [reflexivity|]. apply (run_length _ _ _ _ _ _ Hr).
Qed.

(** One task is pushed to a pool whose slaves wait, and slave 0 serves
    it. *)
Lemma serve_reaches t rest h ps :
  t_mutex (h t) = None ->
  exists h',
    reaches (serve t)
      (mkState [] None (mkSlave false S_waiting :: rest) h (P_idle :: ps) D_alive)
      (mkState [] None (mkSlave false S_waiting :: rest) h' (P_idle :: ps) D_alive) /\
    h' t = mkTask false true None /\
    forall u, u <> t -> h' u = h u.
Proof.
  intros Hm. eexists. split; [|split].
  - unfold serve. cbn [repeat app].
    do 24 (eapply reaches_cons;
           [ unfold exec, slave_step, push_call, push_step; cbn;
             unfold upd; rewrite ?Nat.eqb_refl; cbn; rewrite ?Hm; cbn;
             rewrite ?decide_True by reflexivity; cbn;
             unfold goto, pgoto, set_task, reset, broadcast_task, set_slaves,
               set_producers, set_heap, set_p_mutex, set_mTasks, set_owner, upd; cbn;
             reflexivity |]).
    apply reaches_nil.
  - cbn. rewrite !Nat.eqb_refl. reflexivity.
  - intros u Hu. cbn. apply Nat.eqb_neq in Hu. rewrite !Hu. reflexivity.
Qed.

Lemma serve_all_reaches ts rest ps : forall h,
  (forall u, t_mutex (h u) = None) ->
  exists h',
    reaches (flat_map serve ts)
      (mkState [] None (mkSlave false S_waiting :: rest) h (P_idle :: ps) D_alive)
      (mkState [] None (mkSlave false S_waiting :: rest) h' (P_idle :: ps) D_alive) /\
    (forall t, In t ts -> h' t = mkTask false true None) /\
    (forall u, ~ In u ts -> h' u = h u).
Proof.
  induction ts as [|t ts IH]; intros h Hm.
  - exists h. split; [apply reaches_nil|]. split; [intros t []|auto].
  - destruct (serve_reaches t rest h ps (Hm t)) as (h1 & R1 & Ht1 & Ho1).
    destruct (IH h1) as (h2 & R2 & Ht2 & Ho2).
    { intros u. destruct (decide (u = t)) as [->|Hne].
      - rewrite Ht1. reflexivity.
      - rewrite (Ho1 u Hne). apply Hm. }
    exists h2. split.
    { cbn [flat_map]. eapply reaches_app; eauto. }
    split.
    + intros u [<-|Hu].
      * destruct (in_dec Nat.eq_dec t ts) as [Hin|Hnin]; [apply Ht2; exact Hin|].
        rewrite (Ho2 t Hnin). exact Ht1.
      * apply Ht2. exact Hu.
    + intros u Hu. rewrite Ho2 by (intros Hin; apply Hu; right; exact Hin).
      apply Ho1. intros ->. apply Hu. left. reflexivity.
Qed.

(** X15.  The tasks that are pushed are executed.  For every pool with
    at least one slave and every list of tasks: when the slaves have
    blocked on the empty queue and the tasks are pushed one after the
    other, each call of [push] waking a slave that takes the task, executes
    its [main()] and blocks on the queue again, then every task of the
    list ends completed and not running, with its mutex free, no other
    task is touched, and the pool can be destroyed, the destructor
    returning with every slave terminated. *)
Theorem pushed_tasks_are_executed (n np : nat) (ts : list task_ptr) :
  exists tr s,
    run unrestricted (life_cycle (S n) ts) [] (init (S n) (S np)) = Some (tr, s) /\
    (forall t, In t ts ->
       mRunning (heap s t) = false /\ mCompleted (heap s t) = true /\
       t_mutex (heap s t) = None) /\
    (forall t, ~ In t ts -> heap s t = new_task) /\
    mTasks s = [] /\ p_mutex s = None /\
    owner s = D_done /\
    slaves s = replicate (S n) (mkSlave true S_exit) /\
    producers s = replicate (S np) P_idle /\
    length tr = length (life_cycle (S n) ts).
Proof.
  destruct (serve_all_reaches ts (replicate n (mkSlave false S_waiting))
              (replicate np P_idle) (fun _ => new_task) (fun _ => eq_refl))
    as (h & Hs & Ht & Ho).
  assert (reaches (life_cycle (S n) ts) (init (S n) (S np))
            (mkState [] None (replicate (S n) (mkSlave true S_exit))
               h (replicate (S np) P_idle) D_done)) as H.
  { unfold life_cycle, init. rewrite allocate_replicate. cbn [app].
    eapply reaches_app; [apply (all_wait_from _ _ D_alive (S n) [])|]. cbn [app].
    eapply reaches_app; [exact Hs|]. apply destroy_idle_reaches. }
  destruct (H []) as [tr Hr]. exists tr. eexists. split; [exact Hr|].
  cbn. split.
  { intros t Hin. rewrite (Ht t Hin). auto. }
  split; [exact Ho|].
  repeat (split; [reflexivity|]). apply (run_length _ _ _ _ _ _ Hr).
Qed.

End ThreadPoolFacts.
